(** * Christmas Hunt: game session, placement and world generation

    A shallow embedding of the game logic of [src/App.tsx] and of the voxel
    world generator of [VoxelAssets] ([src/unnamed/part_001]).

    Numbers.  Every TypeScript [number] is an IEEE double.  Fields that only
    ever hold integers (identities, hit points, counters, lattice
    coordinates, colour codes) are modelled in [Z]; their arithmetic is exact
    in doubles far beyond any value reached here.  All other numbers are
    modelled as real numbers [R]: rounding is idealised away, and
    [Math.sqrt], [Math.sin], [Math.cos], [Math.floor] are the real functions.
    The terrain height function is given a second time, in [TerrainDouble],
    in the arithmetic of doubles, where its two distance tests are rounded.

    Randomness.  [Math.random()] is an oracle: the n-th call of a run returns
    [random n].  Code that draws random numbers threads the number of calls
    made so far. *)

From Stdlib Require Import Reals Lra Lia ZArith List String Bool Arith.
From Stdlib Require Import Classical.
From Stdlib Require Floats.
From stdpp Require Import gmap.
Import ListNotations.

Local Open Scope Z_scope.

(* ================================================================== *)
(** * Data model ([types.ts]) *)
(* ================================================================== *)

Inductive GiftType : Type :=
  | box | cane | ornament | stocking | gingerbread | star.

Definition Vec3 : Type := (R * R * R)%type.

Record Gift : Type := mkGift {
  gift_id : Z;
  gift_position : Vec3;
  gift_color : string;
  collected : bool;
  gift_type : GiftType;
  gift_rotation : option Vec3
}.

Record Snowman : Type := mkSnowman {
  snowman_id : Z;
  snowman_position : Vec3;
  snowman_rotation : R;
  hp : Z;
  isDead : bool
}.

Record GameState : Type := mkGameState {
  started : bool;
  gifts : list Gift;
  snowmen : list Snowman;
  foundCount : Z;
  gameOver : bool
}.

(* ================================================================== *)
(** * Game session state machine ([App]) *)
(* ================================================================== *)

Module Session.

(** The argument of [useState]. *)
Definition initialState : GameState :=
  {| started := false; gifts := []; snowmen := [];
     foundCount := 0; gameOver := false |}.

(** The initialisation effect: [{...prev, gifts: ..., snowmen: ...}]. *)
Definition initGame (gs : list Gift) (sms : list Snowman) (prev : GameState)
  : GameState :=
  {| started := started prev; gifts := gs; snowmen := sms;
     foundCount := foundCount prev; gameOver := gameOver prev |}.

Definition totalGoals : Z := 30.

(** [{ ...g, collected: true }] *)
Definition markCollected (g : Gift) : Gift :=
  {| gift_id := gift_id g; gift_position := gift_position g;
     gift_color := gift_color g; collected := true;
     gift_type := gift_type g; gift_rotation := gift_rotation g |}.

(** [gift && gift.collected] for the result of [Array.prototype.find]. *)
Definition found_and_collected (gift : option Gift) : bool :=
  match gift with
  | Some g => collected g
  | None => false
  end.

Definition handleCollect (id : Z) (prev : GameState) : GameState :=
  let gift := find (fun g => gift_id g =? id) (gifts prev) in
  if found_and_collected gift then prev
  else
    let newGifts :=
      map (fun g => if gift_id g =? id then markCollected g else g)
          (gifts prev) in
    let newCount := foundCount prev + 1 in
    {| started := started prev;
       gifts := newGifts;
       snowmen := snowmen prev;
       foundCount := newCount;
       gameOver := totalGoals <=? newCount |}.

(** The reward pushed when snowman [sm] (found under [id]) dies. *)
Definition rewardGift (id : Z) (sm : Snowman) : Gift :=
  let '(px, py, pz) := snowman_position sm in
  {| gift_id := 1000 + id;
     gift_position := (px, (py + 1.0)%R, pz);
     gift_color := "#ff00ff";
     collected := false;
     gift_type := gingerbread;
     gift_rotation := Some (0%R, 0%R, 0%R) |}.

(** [{ ...s, hp: newHp, isDead }] *)
Definition damaged (newHp : Z) (dead : bool) (s : Snowman) : Snowman :=
  {| snowman_id := snowman_id s; snowman_position := snowman_position s;
     snowman_rotation := snowman_rotation s; hp := newHp; isDead := dead |}.

Definition handleSnowmanHit (id : Z) (prev : GameState) : GameState :=
  match find (fun s => snowman_id s =? id) (snowmen prev) with
  | None => prev
  | Some sm =>
      if isDead sm then prev
      else
        let newHp := hp sm - 1 in
        let dead := newHp <=? 0 in
        let newGifts :=
          if dead then gifts prev ++ [rewardGift id sm] else gifts prev in
        let newSnowmen :=
          map (fun s => if snowman_id s =? id then damaged newHp dead s else s)
              (snowmen prev) in
        {| started := started prev;
           gifts := newGifts;
           snowmen := newSnowmen;
           foundCount := foundCount prev;
           gameOver := gameOver prev |}
  end.

(** The two interaction events the scene sends to the session. *)
Inductive Event : Type :=
  | Collect (id : Z)
  | Hit (id : Z).

Definition step (e : Event) (s : GameState) : GameState :=
  match e with
  | Collect id => handleCollect id s
  | Hit id => handleSnowmanHit id s
  end.

Definition run (es : list Event) (s : GameState) : GameState :=
  fold_left (fun st e => step e st) es s.

(** Number of gifts whose [collected] flag is set. *)
Definition countCollected (gs : list Gift) : Z :=
  Z.of_nat (List.length (List.filter collected gs)).

End Session.

(* ================================================================== *)
(** * Terrain height ([getTerrainVoxelY]) *)
(* ================================================================== *)

(** The function over real numbers, as the generators use it: rounding is
    idealised away.  [TerrainDouble], below, evaluates the same source in
    doubles; at the integer points of the world the two take the same
    branch. *)
Module Terrain.

Local Open Scope R_scope.

Definition Math_floor (x : R) : R := IZR (Zfloor x).

Definition getTerrainVoxelY (logicalX logicalZ : R) : R :=
  (* 1. Ponds (flat ice) *)
  let distToPond := sqrt ((logicalX - (-35)) ^ 2 + (logicalZ - 35) ^ 2) in
  if Rlt_dec distToPond 16 then -2
  else
    (* 2. Central hub *)
    let distToCenter := sqrt (logicalX ^ 2 + logicalZ ^ 2) in
    if Rlt_dec distToCenter 5 then 0
    else
      (* 3. General terrain noise *)
      let noise :=
        sin (logicalX * 0.05) * cos (logicalZ * 0.05) * 6
        + sin (logicalX * 0.1 + logicalZ * 0.2) * 2 in
      Math_floor noise.

End Terrain.

(* ================================================================== *)
(** * Generators that draw random numbers *)
(* ================================================================== *)

(** A computation over a store [U] that may call [Math.random()]: the
    second component of the state counts the calls made so far. *)
Definition Gen (U A : Type) : Type := U * nat -> A * (U * nat).

Definition ret {U A : Type} (a : A) : Gen U A := fun s => (a, s).

Definition bind {U A B : Type} (c : Gen U A) (k : A -> Gen U B) : Gen U B :=
  fun s => let '(a, s') := c s in k a s'.

Definition get {U : Type} : Gen U U := fun s => (fst s, s).

Definition modify {U : Type} (f : U -> U) : Gen U unit :=
  fun s => (tt, (f (fst s), snd s)).

Declare Scope gen_scope.
Delimit Scope gen_scope with gen.
Notation "x <- c ;; k" := (bind c (fun x => k))
  (at level 100, c at next level, right associativity) : gen_scope.
Notation "c ;;; k" := (bind c (fun _ => k))
  (at level 100, right associativity) : gen_scope.

(** [for (const a of l) body(a)] *)
Fixpoint forEach {U A : Type} (l : list A) (body : A -> Gen U unit)
  : Gen U unit :=
  match l with
  | [] => ret tt
  | a :: l' => bind (body a) (fun _ => forEach l' body)
  end.

(** The values [lo, lo+1, ..., lo+n-1] of a counting loop. *)
Definition range (lo : Z) (n : nat) : list Z :=
  map (fun k => lo + Z.of_nat k) (seq 0 n).

(** [l[i]] with the value read out of range given explicitly. *)
Definition pick {A : Type} (l : list A) (i : Z) (undefined : A) : A :=
  if i <? 0 then undefined else nth (Z.to_nat i) l undefined.

Definition VOXEL_SIZE : R := 0.25%R.

Section Generators.

Variable random : nat -> R.

Local Open Scope R_scope.
Local Open Scope gen_scope.

Definition Math_random {U : Type} : Gen U R :=
  fun s => (random (snd s), (fst s, S (snd s))).

Definition colors : list string :=
  ["#ff0000"; "#00ff00"; "#3333ff"; "#ffd700"; "#ff00ff"; "#00ffff";
   "#ff6b00"]%string.

Definition getRandomColor {U : Type} : Gen U string :=
  r <- Math_random ;;
  ret (pick colors (Zfloor (r * IZR (Z.of_nat (List.length colors))))
            "undefined"%string).

Definition types : list GiftType :=
  [box; box; cane; ornament; ornament; stocking; gingerbread; star].

(** An index past the end would read [undefined]; [box] stands for it. *)
Definition getRandomType {U : Type} : Gen U GiftType :=
  r <- Math_random ;;
  ret (pick types (Zfloor (r * IZR (Z.of_nat (List.length types)))) box).

(* ---------------------------------------------------------------- *)
(** ** [generateGifts] *)
(* ---------------------------------------------------------------- *)

(** The variables captured by [addGift]. *)
Record GiftStore : Type := mkGiftStore {
  store_gifts : list Gift;
  idCounter : Z
}.

(** [idCounter++] *)
Definition nextId : Gen GiftStore Z :=
  st <- get ;;
  modify (fun st' =>
    {| store_gifts := store_gifts st'; idCounter := (idCounter st' + 1)%Z |}) ;;;
  ret (idCounter st).

(** [gifts.push(g)] *)
Definition push (g : Gift) : Gen GiftStore unit :=
  modify (fun st =>
    {| store_gifts := store_gifts st ++ [g]; idCounter := idCounter st |}).

(** [addGift(x, y, z, type = getRandomType())]: the default argument is
    evaluated first, then the fields of the literal in order. *)
Definition addGift (x y z : R) (type : option GiftType)
  : Gen GiftStore unit :=
  ty <- match type with
        | Some t => ret t
        | None => getRandomType
        end ;;
  id <- nextId ;;
  color <- getRandomColor ;;
  r0 <- Math_random ;;
  r1 <- Math_random ;;
  r2 <- Math_random ;;
  push {| gift_id := id;
          gift_position := (x, y, z);
          gift_color := color;
          collected := false;
          gift_type := ty;
          gift_rotation := Some (r0 * 0.5, r1 * PI * 2, r2 * 0.5) |}.

Definition treeCount : nat := 12.
Definition maxRadius : R := 32.
Definition treeHeight : R := 100.

Definition radiusAtHeight (heightPercent : R) : R :=
  let yVoxel := heightPercent * treeHeight in
  maxRadius * (1 - heightPercent) + sin (yVoxel * 0.5) * 1.5.

(** Body of the loop "1. PLACE ON TREE". *)
Definition placeOnTree (i : Z) : Gen GiftStore unit :=
  rh <- Math_random ;;
  let heightPercent := 0.15 + rh * 0.7 in
  let yVoxel := heightPercent * treeHeight in
  ra <- Math_random ;;
  let angle := ra * PI * 2 in
  let r := radiusAtHeight heightPercent + 1.5 in
  let xVoxel := cos angle * r in
  let zVoxel := sin angle * r in
  addGift (xVoxel * VOXEL_SIZE) (yVoxel * VOXEL_SIZE) (zVoxel * VOXEL_SIZE)
          (Some (if (i mod 2 =? 0)%Z then ornament else star)).

Record House : Type := mkHouse {
  house_x : R; house_z : R; house_w : R; house_d : R
}.

Definition houses : list House :=
  [ mkHouse 50 0 12 16;
    mkHouse 30 (-50) 10 12;
    mkHouse (-40) (-40) 14 10;
    mkHouse 0 60 16 12 ].

(** Body of [houses.forEach], "2. PLACE IN HOUSES". *)
Definition placeInHouse (h : House) : Gen GiftStore unit :=
  rn <- Math_random ;;
  let numInside := (1 + Zfloor (rn * 2))%Z in
  forEach (range 0 (Z.to_nat numInside)) (fun _ =>
    r1 <- Math_random ;;
    let rX := (r1 - 0.5) * (house_w h - 5) in
    r2 <- Math_random ;;
    let rZ := (r2 - 0.5) * (house_d h - 5) in
    addGift ((house_x h + rX) * VOXEL_SIZE)
            (0 * VOXEL_SIZE + 0.3)
            ((house_z h + rZ) * VOXEL_SIZE)
            (Some stocking)).

Definition pondCount : nat := 4.

(** Body of the loop "3. PLACE ON ICE POND". *)
Definition placeOnPond (_ : Z) : Gen GiftStore unit :=
  ra <- Math_random ;;
  let angle := ra * PI * 2 in
  rr <- Math_random ;;
  let r := rr * 12 in
  let px := -35 + cos angle * r in
  let pz := 35 + sin angle * r in
  addGift (px * VOXEL_SIZE) (-2 * VOXEL_SIZE + 0.3) (pz * VOXEL_SIZE)
          (Some cane).

Definition targetInitial : Z := 25.

(** The loop [while (!valid && attempts < 50)] of one scatter item, by
    recursion on the attempts that are left. *)
Fixpoint scatterAttempts (left : nat) : Gen GiftStore unit :=
  match left with
  | O => ret tt
  | S left' =>
      rx <- Math_random ;;
      let xVoxel := (rx - 0.5) * 160 in
      rz <- Math_random ;;
      let zVoxel := (rz - 0.5) * 160 in
      if Rlt_dec (sqrt (xVoxel ^ 2 + zVoxel ^ 2)) 6
      then scatterAttempts left'
      else
        let yVoxel := Terrain.getTerrainVoxelY xVoxel zVoxel in
        let worldY := yVoxel * VOXEL_SIZE + 0.5 in
        addGift (xVoxel * VOXEL_SIZE) worldY (zVoxel * VOXEL_SIZE) None
  end.

(** "4. RANDOM TERRAIN SCATTER (the rest)". *)
Definition scatter : Gen GiftStore unit :=
  st <- get ;;
  let currentCount := Z.of_nat (List.length (store_gifts st)) in
  let remaining := Z.max 0 (targetInitial - currentCount) in
  forEach (range 0 (Z.to_nat remaining)) (fun _ => scatterAttempts 50).

Definition generateGifts_body : Gen GiftStore unit :=
  forEach (range 0 treeCount) placeOnTree ;;;
  forEach houses placeInHouse ;;;
  forEach (range 0 pondCount) placeOnPond ;;;
  scatter.

(** [generateGifts(count)] on a fresh store, the oracle at its first call.
    The argument [count] is never read. *)
Definition generateGifts (count : Z) : list Gift :=
  store_gifts
    (fst (snd (generateGifts_body
                 ({| store_gifts := []; idCounter := 0 |}, O)))).

(* ---------------------------------------------------------------- *)
(** ** [generateSnowmen] *)
(* ---------------------------------------------------------------- *)

Definition maxRange : R := 70.

(** [!v] for a variable declared with [let v;]: unassigned or zero. *)
Definition falsy (v : option R) : bool :=
  match v with
  | None => true
  | Some x => if Req_dec_T x 0 then true else false
  end.

(** The loop [while (!valid && attempts < 20)], by recursion on the
    attempts that are left; returns [xVoxel], [zVoxel] and [valid]. *)
Fixpoint sampleSpot {U : Type} (left : nat) (xVoxel zVoxel : option R)
  : Gen U (option R * option R * bool) :=
  match left with
  | O => ret (xVoxel, zVoxel, false)
  | S left' =>
      rx <- Math_random ;;
      let x := (rx - 0.5) * 2 * maxRange in
      rz <- Math_random ;;
      let z := (rz - 0.5) * 2 * maxRange in
      if Rlt_dec (sqrt (x ^ 2 + z ^ 2)) 8
      then sampleSpot left' (Some x) (Some z)
      else ret (Some x, Some z, true)
  end.

(** Body of the loop of [generateSnowmen]. *)
Definition placeSnowman (i : Z) : Gen (list Snowman) unit :=
  spot <- (if (i =? 0)%Z then ret (Some 15, Some 15, false)
           else if (i =? 1)%Z then ret (Some (-20), Some (-10), false)
           else sampleSpot 20 None None) ;;
  let '(xVoxel0, zVoxel0, _) := spot in
  let xVoxel := if falsy xVoxel0 then 10
                else match xVoxel0 with Some x => x | None => 10 end in
  let zVoxel := if falsy zVoxel0 then 10
                else match zVoxel0 with Some z => z | None => 10 end in
  let yVoxel := Terrain.getTerrainVoxelY xVoxel zVoxel in
  let worldY := yVoxel * VOXEL_SIZE in
  rr <- Math_random ;;
  modify (fun sms =>
    sms ++ [ {| snowman_id := i;
                snowman_position :=
                  (xVoxel * VOXEL_SIZE, worldY, zVoxel * VOXEL_SIZE);
                snowman_rotation := rr * PI * 2;
                hp := 3;
                isDead := false |} ]).

Definition generateSnowmen (count : Z) : list Snowman :=
  fst (snd (forEach (range 0 (Z.to_nat count)) placeSnowman ([], O))).

End Generators.

(* ================================================================== *)
(** * World generator ([generateWorld]) *)
(* ================================================================== *)

Module World.

Local Open Scope R_scope.
Local Open Scope gen_scope.

Definition WORLD_RADIUS : Z := 90.

Module PALETTE.
Definition SNOW : Z := 0xffffff.
Definition SNOW_SHADOW : Z := 0xe6e6fa.
Definition DIRT : Z := 0x4a3c31.
Definition STONE : Z := 0x666666.
Definition PATH : Z := 0xcabba0.
Definition ICE : Z := 0xa5f2f3.
Definition WATER : Z := 0x0a1a2a.
Definition BRICK_MAIN : Z := 0xb94e48.
Definition BRICK_DARK : Z := 0x8f332d.
Definition ROOF_SLATE : Z := 0x2d3436.
Definition WOOD_TRUNK : Z := 0x2e1e14.
Definition WOOD_PLANKS : Z := 0x5d4037.
Definition LEAF_DARK : Z := 0x0f2e13.
Definition LEAF_LIGHT : Z := 0x1f4523.
Definition LEAF_SNOWY : Z := 0x5c7a60.
Definition DECOR_RED : Z := 0xe60026.
Definition DECOR_GOLD : Z := 0xffd700.
Definition DECOR_SILVER : Z := 0xe0e0e0.
Definition DECOR_ROYAL_BLUE : Z := 0x0047ab.
Definition DECOR_PURPLE : Z := 0x800080.
Definition DECOR_PINK : Z := 0xff1493.
Definition LIGHT_STRING : Z := 0xffaa00.
Definition LIGHT_WARM : Z := 0xffcf48.
Definition STAR_CORE : Z := 0xffcc00.
Definition STAR_GLOW : Z := 0xff9900.
Definition LAMP_WARM : Z := 0xffaa44.
Definition LAMP_POST : Z := 0x1a1a1a.
End PALETTE.

Record VoxelData : Type := mkVoxel {
  voxel_x : Z; voxel_y : Z; voxel_z : Z; voxel_color : Z
}.

Record Point3 : Type := mkPoint3 { point_x : R; point_y : R; point_z : R }.

Record DoorData : Type := mkDoor { door_position : Vec3; door_rotation : R }.

(** The occupancy key: the source joins the three rounded coordinates into
    the string [vx,vy,vz]; distinct triples give distinct strings. *)
Definition Key : Type := (Z * Z * Z)%type.

(** The arrays, the set and the map that [generateWorld] fills. *)
Record WorldStore : Type := mkWorld {
  regularVoxels : list VoxelData;
  glowingVoxels : list VoxelData;
  interactiveIce : list VoxelData;
  waterVoxels : list VoxelData;
  lampCoords : list Point3;
  doors : list DoorData;
  occupied : gset Key;
  pathHeightMap : gmap (Z * Z) Z
}.

Definition emptyWorld : WorldStore :=
  mkWorld [] [] [] [] [] [] ∅ ∅.

Definition push_regular (v : VoxelData) (w : WorldStore) : WorldStore :=
  mkWorld (regularVoxels w ++ [v]) (glowingVoxels w) (interactiveIce w)
          (waterVoxels w) (lampCoords w) (doors w) (occupied w)
          (pathHeightMap w).

Definition push_glowing (v : VoxelData) (w : WorldStore) : WorldStore :=
  mkWorld (regularVoxels w) (glowingVoxels w ++ [v]) (interactiveIce w)
          (waterVoxels w) (lampCoords w) (doors w) (occupied w)
          (pathHeightMap w).

Definition push_ice (v : VoxelData) (w : WorldStore) : WorldStore :=
  mkWorld (regularVoxels w) (glowingVoxels w) (interactiveIce w ++ [v])
          (waterVoxels w) (lampCoords w) (doors w) (occupied w)
          (pathHeightMap w).

Definition push_water (v : VoxelData) (w : WorldStore) : WorldStore :=
  mkWorld (regularVoxels w) (glowingVoxels w) (interactiveIce w)
          (waterVoxels w ++ [v]) (lampCoords w) (doors w) (occupied w)
          (pathHeightMap w).

Definition push_lamp (p : Point3) (w : WorldStore) : WorldStore :=
  mkWorld (regularVoxels w) (glowingVoxels w) (interactiveIce w)
          (waterVoxels w) (lampCoords w ++ [p]) (doors w) (occupied w)
          (pathHeightMap w).

Definition push_door (d : DoorData) (w : WorldStore) : WorldStore :=
  mkWorld (regularVoxels w) (glowingVoxels w) (interactiveIce w)
          (waterVoxels w) (lampCoords w) (doors w ++ [d]) (occupied w)
          (pathHeightMap w).

Definition occupy (k : Key) (w : WorldStore) : WorldStore :=
  mkWorld (regularVoxels w) (glowingVoxels w) (interactiveIce w)
          (waterVoxels w) (lampCoords w) (doors w) ({[ k ]} ∪ occupied w)
          (pathHeightMap w).

Definition set_path (k : Z * Z) (h : Z) (w : WorldStore) : WorldStore :=
  mkWorld (regularVoxels w) (glowingVoxels w) (interactiveIce w)
          (waterVoxels w) (lampCoords w) (doors w) (occupied w)
          (<[ k := h ]> (pathHeightMap w)).

(* ---------------------------------------------------------------- *)
(** ** Numeric helpers of the host *)
(* ---------------------------------------------------------------- *)

Definition Rltb (x y : R) : bool := if Rlt_dec x y then true else false.
Definition Rleb (x y : R) : bool := if Rle_dec x y then true else false.
Definition Reqb (x y : R) : bool := if Req_dec_T x y then true else false.

(** [Math.round]: the nearest integer, halves upwards. *)
Definition Math_round (x : R) : Z := Zfloor (x + 0.5).

(** Truncation towards zero. *)
Definition Ztrunc (x : R) : Z := if Rlt_dec x 0 then Zceil x else Zfloor x.

(** The remainder operator [a % b] on numbers. *)
Definition js_rem (a b : R) : R := a - b * IZR (Ztrunc (a / b)).

(** [Math.pow(b, e)] for a base [b >= 0] and an exponent [e > 0]. *)
Definition Math_pow (b e : R) : R :=
  if Req_dec_T b 0 then 0 else Rpower b e.

(** [Math.atan2(y, x)] *)
Definition Math_atan2 (y x : R) : R :=
  if Rlt_dec 0 x then atan (y / x)
  else if Rlt_dec x 0 then
    (if Rle_dec 0 y then atan (y / x) + PI else atan (y / x) - PI)
  else if Rlt_dec 0 y then PI / 2
  else if Rlt_dec y 0 then - PI / 2
  else 0.

(** The values of [for (v = lo; v <= hi; v += step)]. *)
Definition stepsR_le (lo hi step : R) : list R :=
  map (fun k => lo + INR k * step)
      (seq 0 (Z.to_nat (Zfloor ((hi - lo) / step) + 1))).

(** The values of [for (v = lo; v < hi; v += step)]. *)
Definition stepsR_lt (lo hi step : R) : list R :=
  map (fun k => lo + INR k * step)
      (seq 0 (Z.to_nat (Zceil ((hi - lo) / step)))).

(** A loop whose body updates a local variable [s]. *)
Fixpoint forFold {U A S : Type} (l : list A) (s : S)
    (body : A -> S -> Gen U S) : Gen U S :=
  match l with
  | [] => ret s
  | a :: l' => bind (body a s) (fun s' => forFold l' s' body)
  end.

(** [a || c], where [c] is only evaluated when [a] is false. *)
Definition orElse {U : Type} (a : bool) (c : Gen U bool) : Gen U bool :=
  if a then ret true else c.

(** The tapering radius of the canopy at height [y]. *)
Definition treeHeight : R := 100.
Definition maxRadius : R := 32.

Definition currentRadius (y : R) : R :=
  let progress := y / treeHeight in
  maxRadius * (1 - progress) + sin (y * 0.5) * 1.5.

Record Building : Type := mkBuilding {
  b_x : R; b_z : R; b_w : R; b_d : R; b_h : R; b_r : R
}.

Definition buildings : list Building :=
  [ mkBuilding 50 0 12 16 12 1;
    mkBuilding 30 (-50) 10 12 10 0;
    mkBuilding (-40) (-40) 14 10 14 1;
    mkBuilding 0 60 16 12 11 1 ].

Definition directions : list (Z * Z * Z) :=
  [ (1, 0, 0); (-1, 0, 0); (0, 1, 0); (0, -1, 0); (0, 0, 1); (0, 0, -1);
    (1, 1, 0); (-1, 1, 0); (0, 1, 1); (0, 1, -1) ]%Z.

Section Generate.

Variable random : nat -> R.

(** The occupancy-checked insertion. *)
Definition add (x y z : R) (color : Z) (isGlowing : bool)
  : Gen WorldStore unit :=
  let vx := Math_round x in
  let vy := Math_round y in
  let vz := Math_round z in
  let key : Key := (vx, vy, vz) in
  w <- get ;;
  if decide (key ∈ occupied w) then ret tt
  else
    modify (occupy key) ;;;
    if isGlowing then modify (push_glowing (mkVoxel vx vy vz color))
    else modify (push_regular (mkVoxel vx vy vz color)).

Definition buildLamp (x y z : R) : Gen WorldStore unit :=
  let poleHeight := 9%Z in
  forEach (range 0 (Z.to_nat poleHeight)) (fun h =>
    add x (y + IZR h) z PALETTE.LAMP_POST false) ;;;
  let armY := y + IZR poleHeight - 1 in
  add x armY z PALETTE.LAMP_POST false ;;;
  add x (armY + 0.5) z PALETTE.LAMP_POST false ;;;
  let lightY := armY - 0.5 in
  add x lightY (z + 0.6) PALETTE.LAMP_POST false ;;;
  add x lightY (z - 0.6) PALETTE.LAMP_POST false ;;;
  add (x + 0.6) lightY z PALETTE.LAMP_POST false ;;;
  add (x - 0.6) lightY z PALETTE.LAMP_POST false ;;;
  add x lightY z PALETTE.LAMP_WARM true ;;;
  modify (push_lamp (mkPoint3 (x * VOXEL_SIZE) ((lightY - 1) * VOXEL_SIZE)
                              (z * VOXEL_SIZE))).

(** [createPath(x1, z1, x2, z2, widthOverride)]; the default width 1.5 is
    passed explicitly by the callers below. *)
Definition createPath (x1 z1 x2 z2 widthOverride : R)
  : Gen WorldStore unit :=
  let dist := sqrt ((x2 - x1) ^ 2 + (z2 - z1) ^ 2) in
  let steps := Zceil (dist * 2) in
  forEach (range 0 (Z.to_nat (steps + 1))) (fun i =>
    let t := IZR i / IZR steps in
    let cx := x1 + (x2 - x1) * t in
    let cz := z1 + (z2 - z1) * t in
    forEach (stepsR_le (- widthOverride) widthOverride 0.5) (fun ox =>
      forEach (stepsR_le (- widthOverride) widthOverride 0.5) (fun oz =>
        let px := Math_round (cx + ox) in
        let pz := Math_round (cz + oz) in
        modify (set_path (px, pz) 0%Z)))) ;;;
  if Rlt_dec 10 dist then
    let lampSpacing := 25 in
    let numLamps := Zfloor (dist / lampSpacing) in
    forEach (range 1 (Z.to_nat (numLamps - 1))) (fun i =>
      let t := IZR i / IZR numLamps in
      let lx := x1 + (x2 - x1) * t in
      let lz := z1 + (z2 - z1) * t in
      let offset := 2.5 in
      let side := if (i mod 2 =? 0)%Z then 1 else -1 in
      r <- Math_random random ;;
      let lampX := Math_round (lx + r * 0.5) in
      let lampZ := Math_round (lz + side * offset) in
      buildLamp (IZR lampX) 0 (IZR lampZ))
  else ret tt.

(** [rotate] inside [buildHouse]. *)
Definition rotate (cx cz rotation x z : R) : R * R :=
  if Req_dec_T rotation 0 then (cx + x, cz + z) else (cx - z, cz + x).

(** One cell of the wall, floor and roof loops of [buildHouse]; the local
    flag [doorRecorded] is passed in and returned. *)
Definition houseCell (cx cz width depth height rotation : R)
    (y x z : R) (doorRecorded : bool) : Gen WorldStore bool :=
  let groundY := 0 in
  let pos := rotate cx cz rotation x z in
  if Rlt_dec y height then
    if Rleb (width / 2 - 1) (Rabs x) || Rleb (depth / 2 - 1) (Rabs z) then
      let isFront := Rltb (Rabs (z - depth / 2)) 1.5 in
      let isDoorX := Rleb (-2) x && Rleb x 1 in
      let isDoorY := Rltb y 7 in
      if isFront && isDoorX && isDoorY then
        if negb doorRecorded && Reqb x (-2) && Reqb y 0 then
          let hingePos := rotate cx cz rotation (-2.5) (depth / 2) in
          let doorRot := if Req_dec_T rotation 0 then 0 else - PI / 2 in
          modify (push_door
            (mkDoor (fst hingePos * VOXEL_SIZE, groundY * VOXEL_SIZE,
                     snd hingePos * VOXEL_SIZE) doorRot)) ;;;
          ret true
        else ret doorRecorded
      else
        isDarkBrick <-
          orElse (Rltb (js_rem (Rabs (x * 3 + y * 2 + z)) 7) 2)
                 (r <- Math_random random ;; ret (Rltb 0.8 r)) ;;
        let col := if isDarkBrick then PALETTE.BRICK_DARK
                   else PALETTE.BRICK_MAIN in
        let isWindowH := (Rltb 3 y && Rltb y 7)
                         || (Rltb (height - 6) y && Rltb y (height - 2)) in
        let isWindowX := Rltb (Rabs x) 2
                         || (Rltb 10 width
                             && Rltb (Rabs (Rabs x - width / 4)) 2) in
        (if isFront && isWindowH && isWindowX
         then add (fst pos) (groundY + y) (snd pos) PALETTE.LIGHT_WARM true
         else add (fst pos) (groundY + y) (snd pos) col false) ;;;
        ret doorRecorded
    else if Req_dec_T y 0 then
      add (fst pos) (groundY + y) (snd pos) PALETTE.WOOD_PLANKS false ;;;
      ret doorRecorded
    else ret doorRecorded
  else
    let roofY := y - height in
    let roofScale := 1 - roofY / 8 in
    if Rleb (Rabs x) ((width / 2 + 1) * roofScale)
       && Rleb (Rabs z) (depth / 2 + 1) then
      isSnowTop <-
        orElse (Rltb 6 roofY) (r <- Math_random random ;; ret (Rltb 0.7 r)) ;;
      add (fst pos) (groundY + y) (snd pos)
          (if isSnowTop then PALETTE.SNOW else PALETTE.ROOF_SLATE) false ;;;
      ret doorRecorded
    else ret doorRecorded.

(** One cell of the chimney loops of [buildHouse]. *)
Definition chimneyCell (cx cz width height rotation : R) (y : R)
    (cx_ cz_ : Z) : Gen WorldStore unit :=
  let groundY := 0 in
  let chimneyX := width / 3 in
  let chimneyZ := 0 in
  let pos := rotate cx cz rotation (chimneyX + IZR cx_) (chimneyZ + IZR cz_) in
  let isSmoke := Rltb (height + 8) y in
  if isSmoke then
    r <- Math_random random ;;
    if Rltb 0.5 r && (cx_ =? 0)%Z && (cz_ =? 0)%Z then
      r2 <- Math_random random ;;
      add (fst pos) (groundY + y + r2 * 2) (snd pos) 0xaaaaaa%Z false
    else ret tt
  else add (fst pos) (groundY + y) (snd pos) PALETTE.BRICK_DARK false.

Definition buildHouse (cx cz width depth height rotation : R)
  : Gen WorldStore unit :=
  forFold (stepsR_lt 0 (height + 8) 1) false (fun y doorRecorded =>
    forFold (stepsR_le (- width / 2) (width / 2) 1) doorRecorded
      (fun x doorRecorded =>
        forFold (stepsR_le (- depth / 2) (depth / 2) 1) doorRecorded
          (fun z doorRecorded =>
            houseCell cx cz width depth height rotation y x z
                      doorRecorded))) ;;;
  forEach (stepsR_lt (height / 2) (height + 10) 1) (fun y =>
    forEach (range (-1) 3) (fun cx_ =>
      forEach (range (-1) 3) (fun cz_ =>
        chimneyCell cx cz width height rotation y cx_ cz_))).

(** Body of the first [buildings.forEach]: the paths to one building. *)
Definition buildingPaths (b : Building) : Gen WorldStore unit :=
  createPath 0 0 (b_x b) (b_z b) 1.5 ;;;
  if Req_dec_T (b_r b) 0 then
    let doorZ := b_z b + b_d b / 2 in
    createPath (b_x b) doorZ (b_x b) (doorZ + 4) 3
  else
    let doorX := b_x b - b_d b / 2 in
    createPath doorX (b_z b) (doorX - 4) (b_z b) 3.

Definition building (i : nat) : Building :=
  nth i buildings (mkBuilding 0 0 0 0 0 0).

Definition ringPaths : Gen WorldStore unit :=
  createPath 0 0 (-35) 35 1.5 ;;;
  createPath (b_x (building 0)) (b_z (building 0))
             (b_x (building 1)) (b_z (building 1)) 1.5 ;;;
  createPath (b_x (building 1)) (b_z (building 1))
             (b_x (building 2)) (b_z (building 2)) 1.5 ;;;
  createPath (b_x (building 2)) (b_z (building 2)) (-35) 35 1.5 ;;;
  createPath (-35) 35 (b_x (building 3)) (b_z (building 3)) 1.5 ;;;
  createPath (b_x (building 3)) (b_z (building 3))
             (b_x (building 0)) (b_z (building 0)) 1.5.

(* ---------------------------------------------------------------- *)
(** ** Terrain columns *)
(* ---------------------------------------------------------------- *)

Definition pondCenter_x : R := -35.
Definition pondCenter_z : R := 35.
Definition pondRadius : R := 18.
Definition ISLAND_DEPTH_CENTER : R := 45.
Definition pondIceY : Z := -2.
Definition pondWaterY : Z := -6.

(** One step [y] of the fill loop of the column [(x, z)]. *)
Definition columnCell (x z : Z) (isIceSurface isPath : bool)
    (surfaceY bottomY surfaceColor : Z) (y : Z) : Gen WorldStore unit :=
  let depthFromSurface := (surfaceY - y)%Z in
  let heightFromBottom := (y - bottomY)%Z in
  if isIceSurface then
    if (y =? pondIceY)%Z then
      modify (push_ice (mkVoxel x y z PALETTE.ICE))
    else if (y <? pondIceY)%Z && (pondWaterY <? y)%Z then ret tt
    else if (y =? pondWaterY)%Z then
      modify (push_water (mkVoxel x y z PALETTE.WATER))
    else if (y <? pondWaterY)%Z then
      if (y =? pondWaterY - 1)%Z then
        add (IZR x) (IZR y) (IZR z) PALETTE.DIRT false
      else if (heightFromBottom <? 2)%Z then
        add (IZR x) (IZR y) (IZR z) PALETTE.STONE false
      else ret tt
    else ret tt
  else
    let isCrust := (depthFromSurface <=? 7)%Z in
    let isBottom := (heightFromBottom <=? 2)%Z in
    if isCrust || isBottom then
      color <-
        (if (y =? surfaceY)%Z then ret surfaceColor
         else if (depthFromSurface <=? 2)%Z && negb isPath
         then ret PALETTE.DIRT
         else
           r <- Math_random random ;;
           ret (if Rltb 0.85 r then PALETTE.DIRT else PALETTE.STONE)) ;;
      add (IZR x) (IZR y) (IZR z) color false
    else ret tt.

(** Body of the two terrain loops: the column at [(x, z)]. *)
Definition terrainColumn (x z : Z) : Gen WorldStore unit :=
  let distSq := IZR x * IZR x + IZR z * IZR z in
  let dist := sqrt distSq in
  if Rlt_dec (IZR WORLD_RADIUS) dist then ret tt
  else
    w <- get ;;
    let pathKey := (Math_round (IZR x), Math_round (IZR z)) in
    let isPath :=
      if decide (is_Some (pathHeightMap w !! pathKey)) then true else false in
    let distToPond :=
      sqrt ((IZR x - pondCenter_x) ^ 2 + (IZR z - pondCenter_z) ^ 2) in
    let isPond := Rltb distToPond pondRadius in
    surface <-
      (if isPond then
         if Rlt_dec distToPond (pondRadius - 2)
         then ret (pondIceY, PALETTE.SNOW, true)
         else ret ((-1)%Z, PALETTE.DIRT, false)
       else if isPath then ret (0%Z, PALETTE.PATH, false)
       else
         let terrainNoise :=
           sin (IZR x * 0.05) * cos (IZR z * 0.05) * 6
           + sin (IZR x * 0.1 + IZR z * 0.2) * 2 in
         let surfaceY := Zfloor terrainNoise in
         r <- Math_random random ;;
         ret (surfaceY,
              if Rltb 0.7 r && (2 <? surfaceY)%Z then PALETTE.SNOW_SHADOW
              else PALETTE.SNOW,
              false)) ;;
    let '(surfaceY, surfaceColor, isIceSurface) := surface in
    let d := dist / IZR WORLD_RADIUS in
    let bottomNoise :=
      sin (IZR x * 0.15) * cos (IZR z * 0.15) * 4 + cos (IZR x * 0.3) * 2 in
    let structuralDepth := ISLAND_DEPTH_CENTER * (1 - Math_pow d 1.8) in
    let totalDepth := Rmax 5 (structuralDepth + bottomNoise) in
    let bottomY := Zfloor (IZR surfaceY - totalDepth) in
    forEach (range bottomY (Z.to_nat (surfaceY - bottomY + 1)))
      (columnCell x z isIceSurface isPath surfaceY bottomY surfaceColor).

Definition terrain : Gen WorldStore unit :=
  forEach (range (- WORLD_RADIUS) (Z.to_nat (2 * WORLD_RADIUS + 1))) (fun x =>
    forEach (range (- WORLD_RADIUS) (Z.to_nat (2 * WORLD_RADIUS + 1)))
      (fun z => terrainColumn x z)).

(* ---------------------------------------------------------------- *)
(** ** Tree, decoration and star *)
(* ---------------------------------------------------------------- *)

Definition treeBaseY : R := 0.

Definition trunk : Gen WorldStore unit :=
  forEach (stepsR_lt 0 (treeHeight * 0.25) 1) (fun y =>
    let trunkR := Rmax 2 (4 - y * 0.05) in
    forEach (stepsR_le (- trunkR) trunkR 1) (fun x =>
      forEach (stepsR_le (- trunkR) trunkR 1) (fun z =>
        if Rle_dec (x * x + z * z) (trunkR * trunkR)
        then add x (treeBaseY + y) z PALETTE.WOOD_TRUNK false
        else ret tt))).

(** One cell of a canopy disc. *)
Definition canopyCell (y x z : R) : Gen WorldStore unit :=
  let currentRadius := currentRadius y in
  let distSq := x * x + z * z in
  if Rle_dec distSq (currentRadius * currentRadius) then
    let isSurface :=
      Rltb ((currentRadius - 3) * (currentRadius - 3)) distSq in
    keep <- orElse isSurface (r <- Math_random random ;; ret (Rltb 0.85 r)) ;;
    if keep then
      let worldY := treeBaseY + y in
      r1 <- Math_random random ;;
      let col0 := if Rltb 0.7 r1 then PALETTE.LEAF_LIGHT
                  else PALETTE.LEAF_DARK in
      let col1 := if Rltb 12 (js_rem y 15) then PALETTE.LEAF_SNOWY
                  else col0 in
      decor <-
        (if isSurface then
           let angle := Math_atan2 z x in
           let spiral1 := js_rem (angle * 5 + y * 0.25) (PI * 2) in
           let spiral2 := js_rem (angle * 5 + y * 0.25 + PI) (PI * 2) in
           if Rltb (Rabs spiral1) 0.3 || Rltb (Rabs spiral2) 0.3
           then ret (PALETTE.LIGHT_STRING, true)
           else
             r2 <- Math_random random ;;
             if Rltb 0.93 r2 then
               rand <- Math_random random ;;
               ret (if Rltb rand 0.3 then PALETTE.DECOR_RED
                    else if Rltb rand 0.45 then PALETTE.DECOR_GOLD
                    else if Rltb rand 0.6 then PALETTE.DECOR_ROYAL_BLUE
                    else if Rltb rand 0.75 then PALETTE.DECOR_PURPLE
                    else if Rltb rand 0.85 then PALETTE.DECOR_PINK
                    else PALETTE.DECOR_SILVER,
                    true)
             else ret (col1, false)
         else ret (col1, false)) ;;
      add x worldY z (fst decor) (snd decor)
    else ret tt
  else ret tt.

Definition canopy : Gen WorldStore unit :=
  forEach (stepsR_lt 8 treeHeight 1) (fun y =>
    let bound := IZR (Zceil (currentRadius y)) in
    forEach (stepsR_le (- bound) bound 1) (fun x =>
      forEach (stepsR_le (- bound) bound 1) (fun z =>
        canopyCell y x z))).

Definition starTop : Gen WorldStore unit :=
  let starY := treeBaseY + treeHeight + 1 in
  forEach (range (-2) 5) (fun x =>
    forEach (range (-2) 5) (fun y =>
      forEach (range (-2) 5) (fun z =>
        if (Z.abs x + Z.abs y + Z.abs z <=? 3)%Z
        then add (IZR x) (starY + IZR y) (IZR z) PALETTE.STAR_CORE true
        else ret tt))) ;;;
  forEach directions (fun dir =>
    let '(d0, d1, d2) := dir in
    let len := if (1 <? Z.abs d0 + Z.abs d1 + Z.abs d2)%Z then 5%Z else 9%Z in
    forEach (range 2 (Z.to_nat (len - 2))) (fun i =>
      add (IZR (d0 * i)) (starY + IZR (d1 * i)) (IZR (d2 * i))
          PALETTE.STAR_GLOW true)).

Definition generateWorld_body : Gen WorldStore unit :=
  forEach buildings buildingPaths ;;;
  ringPaths ;;;
  forEach buildings (fun b =>
    buildHouse (b_x b) (b_z b) (b_w b) (b_d b) (b_h b) (b_r b)) ;;;
  terrain ;;;
  trunk ;;;
  canopy ;;;
  starTop.

(** The store when [generateWorld] returns; the returned object holds its
    four voxel arrays, [lampCoords] and [doors]. *)
Definition generateWorld : WorldStore :=
  fst (snd (generateWorld_body (emptyWorld, O))).

End Generate.

Definition key (v : VoxelData) : Key := (voxel_x v, voxel_y v, voxel_z v).

(** All voxels of a store: regular, glowing, ice and water. *)
Definition allVoxels (w : WorldStore) : list VoxelData :=
  regularVoxels w ++ glowingVoxels w ++ interactiveIce w ++ waterVoxels w.

End World.

(* ================================================================== *)
(** * Vocabulary of the statements *)
(* ================================================================== *)

(** The snowman that [find] returns for [id]. *)
Definition lookupSnowman (id : Z) (s : GameState) : option Snowman :=
  find (fun sm => snowman_id sm =? id) (snowmen s).

(** A snowman at the origin, used to exercise the transitions. *)
Definition freshSnowman (id : Z) : Snowman :=
  {| snowman_id := id; snowman_position := (0%R, 0%R, 0%R);
     snowman_rotation := 0%R; hp := 3; isDead := false |}.

(** An uncollected gift at the origin. *)
Definition plainGift (id : Z) : Gift :=
  mkGift id (0%R, 0%R, 0%R) "#ff0000" false box None.

(** Euclidean distance in the ground plane. *)
Definition distance2 (x1 z1 x2 z2 : R) : R :=
  sqrt ((x1 - x2) ^ 2 + (z1 - z2) ^ 2)%R.

(** The terrain height in the words of the specification: the ice level
    within 16 of the pond centre, else the flat hub within 5 of the origin,
    else the floor of the noise. *)
Definition terrainHeight (x z : R) : R :=
  if Rlt_dec (distance2 x z (-35) 35) 16 then (-2)%R
  else if Rlt_dec (distance2 x z 0 0) 5 then 0%R
  else IZR (Zfloor (sin (x * 0.05) * cos (z * 0.05) * 6
                    + sin (x * 0.1 + z * 0.2) * 2)%R).

(** [c] only appends gifts, numbered consecutively from [idCounter], and
    the gifts it appends satisfy [P]. *)
Definition appends (c : Gen GiftStore unit) (P : list Gift -> Prop) : Prop :=
  forall st n, exists new n',
    c (st, n) =
      (tt, ({| store_gifts := store_gifts st ++ new;
               idCounter := idCounter st + Z.of_nat (List.length new) |}, n'))
    /\ map gift_id new = range (idCounter st) (List.length new)
    /\ P new.

(** A gift on the tree surface: at a height fraction in [0.15, 0.85] of the
    tree, 1.5 voxels outside the canopy radius of the world generator at
    that height, with the type given by the parity of its index. *)
Definition treeShape (i : Z) (g : Gift) : Prop :=
  exists heightFraction angle : R,
    (0.15 <= heightFraction <= 0.85)%R /\
    (let y := heightFraction * 100 in
     let r := World.currentRadius y + 1.5 in
     gift_position g = (cos angle * r * 0.25, y * 0.25, sin angle * r * 0.25)
     /\ sqrt ((cos angle * r) ^ 2 + (sin angle * r) ^ 2) = r)%R /\
    gift_type g = (if i mod 2 =? 0 then ornament else star) /\
    collected g = false.

(** A scattered gift: lifted above the terrain at a sample that lies at
    least 6 voxel units from the origin. *)
Definition scatterShape (g : Gift) : Prop :=
  exists xVoxel zVoxel : R,
    (6 <= sqrt (xVoxel ^ 2 + zVoxel ^ 2))%R /\
    gift_position g =
      (xVoxel * 0.25,
       Terrain.getTerrainVoxelY xVoxel zVoxel * 0.25 + 0.5,
       zVoxel * 0.25)%R /\
    collected g = false.

(** The scatter sample drawn at calls [n] and [n + 1] is accepted. *)
Definition accepted (random : nat -> R) (n : nat) : Prop :=
  ~ (sqrt (((random n - 0.5) * 160) ^ 2
           + ((random (S n) - 0.5) * 160) ^ 2) < 6)%R.

(** No run of 50 consecutive scatter samples is rejected throughout. *)
Definition never_exhausts (random : nat -> R) : Prop :=
  forall n, exists k, (k < 50)%nat /\ accepted random (n + 2 * k).





(** An uncollected stocking, as placed inside a house. *)
Definition isStocking (g : Gift) : Prop :=
  gift_type g = stocking /\ collected g = false.

(** An uncollected candy cane, as placed on the pond. *)
Definition isCane (g : Gift) : Prop :=
  gift_type g = cane /\ collected g = false.

(** The oracle that answers [c] at every call. *)
Definition constStream (c : R) : nat -> R := fun _ => c.

(** The snowman sample [(x, x)] drawn when the oracle always answers [c]. *)
Definition constSpot (c : R) : R := ((c - 0.5) * 2 * maxRange)%R.

(* ---------------------------------------------------------------- *)
(** ** Invariants of the world store *)
(* ---------------------------------------------------------------- *)

Module WorldInv.

Import World.

(** The voxels that went through [add]. *)
Definition placedVoxels (w : WorldStore) : list VoxelData :=
  regularVoxels w ++ glowingVoxels w.

(** The voxels that the pond columns push directly. *)
Definition pondVoxels (w : WorldStore) : list VoxelData :=
  interactiveIce w ++ waterVoxels w.

(** The cells of the ice sheet and of the water line: the two fixed
    elevations over the columns strictly inside the pond. *)
Definition reserved (k : Key) : Prop :=
  let '(x, y, z) := k in
  (y = pondIceY \/ y = pondWaterY) /\
  (sqrt ((IZR x - pondCenter_x) ^ 2 + (IZR z - pondCenter_z) ^ 2)
   < pondRadius - 2)%R.

Record Inv (w : WorldStore) : Prop := mkInv {
  inv_placed_nodup : NoDup (map key (placedVoxels w));
  inv_occupied : forall k, k ∈ occupied w <-> In k (map key (placedVoxels w));
  inv_occupied_free : forall k, k ∈ occupied w -> ~ reserved k;
  inv_pond_reserved : forall v, In v (pondVoxels w) -> reserved (key v);
  inv_pond_nodup : NoDup (map key (pondVoxels w))
}.

(** The store in which a computation ends. *)
Definition after {A : Type} (c : Gen WorldStore A) (w : WorldStore) (n : nat)
  : WorldStore := fst (snd (c (w, n))).

Definition hoare {A : Type} (Pre : WorldStore -> Prop)
    (c : Gen WorldStore A) (Post : WorldStore -> Prop) : Prop :=
  forall w n, Pre w -> Post (after c w n).

(** A computation that leaves the pond arrays alone and keeps [Inv]. *)
Definition safe {A : Type} (c : Gen WorldStore A) : Prop :=
  forall w n,
    interactiveIce (after c w n) = interactiveIce w /\
    waterVoxels (after c w n) = waterVoxels w /\
    (Inv w -> Inv (after c w n)).

(** The ice voxel over the pond centre. *)
Definition centreIce : VoxelData := mkVoxel (-35) (-2) 35 PALETTE.ICE.

(** Position [(x, z, y)] of the terrain loops lies beyond the cell of
    [centreIce]. *)
Definition past_centre (x z y : Z) : Prop :=
  -35 < x \/ (x = -35 /\ (35 < z \/ (z = 35 /\ -2 < y))).

(** The terrain invariant at position [(x, z, y)] of the loops: the pond
    voxels pushed so far lie in earlier cells, and [centreIce] is present
    once its cell is passed. *)
Definition terrainInv (x z y : Z) (w : WorldStore) : Prop :=
  Inv w /\
  (forall v, In v (pondVoxels w) ->
     voxel_x v < x \/
     (voxel_x v = x /\
      (voxel_z v < z \/ (voxel_z v = z /\ voxel_y v < y)))) /\
  (past_centre x z y -> In centreIce (interactiveIce w)).

(** The terrain invariant before the column [(x, z)]. *)
Definition columnInv (x z : Z) (w : WorldStore) : Prop :=
  Inv w /\
  (forall v, In v (pondVoxels w) ->
     voxel_x v < x \/ (voxel_x v = x /\ voxel_z v < z)) /\
  (-35 < x \/ (x = -35 /\ 35 < z) -> In centreIce (interactiveIce w)).

(** The terrain invariant before the row [x]. *)
Definition rowInv (x : Z) (w : WorldStore) : Prop :=
  Inv w /\
  (forall v, In v (pondVoxels w) -> voxel_x v < x) /\
  (-35 < x -> In centreIce (interactiveIce w)).

(** Before the terrain: nothing pushed by the pond columns yet. *)
Definition startInv (w : WorldStore) : Prop :=
  Inv w /\ interactiveIce w = [] /\ waterVoxels w = [].

(** After the terrain: the ice voxel of the pond centre is present. *)
Definition endInv (w : WorldStore) : Prop :=
  Inv w /\ In centreIce (interactiveIce w).

(** The test [distToPond < pondRadius - 2] of the column [(x, z)]. *)
Definition insidePond (x z : Z) : Prop :=
  (sqrt ((IZR x - pondCenter_x) ^ 2 + (IZR z - pondCenter_z) ^ 2)
   < pondRadius - 2)%R.

End WorldInv.


(* ================================================================== *)
(** * The terrain height function in double arithmetic *)
(* ================================================================== *)

(** [getTerrainVoxelY] of [src/App.tsx] as an engine evaluates it.  Every
    number is a binary64 double; [+], [-], [*] and [<] are the operations
    of doubles, [Math.sqrt] is the correctly rounded square root and
    [v ** 2] the correctly rounded product [v * v].  [Math.sin] and
    [Math.cos], which the language only asks a host to approximate, are
    left to the host. *)
Module TerrainDouble.

Import PrimFloat FloatOps SpecFloat.

Local Open Scope float_scope.
Local Set Warnings "-inexact-float".

(** The double of an integer below 2^53 in absolute value. *)
Definition of_Z (n : Z) : float :=
  if (n <? 0)%Z then - of_uint63 (Uint63.of_Z (- n))
  else of_uint63 (Uint63.of_Z n).

(** The real number that a finite double stands for: [m * 2^e], with its
    sign. *)
Definition value (x : float) : R :=
  match Prim2SF x with
  | S754_finite s m e =>
      let magnitude :=
        if (0 <=? e)%Z then IZR (Z.pos m * 2 ^ e)
        else (IZR (Z.pos m) / IZR (2 ^ (- e)))%R in
      if s then (- magnitude)%R else magnitude
  | _ => 0%R
  end.

(** [Math.floor]: the largest integral double that is not above [x]; zeros,
    infinities, NaN and doubles without fraction bits are returned as they
    are. *)
Definition Math_floor (x : float) : float :=
  match Prim2SF x with
  | S754_finite s m e =>
      if (0 <=? e)%Z then x
      else
        let whole := (Z.pos m / 2 ^ (- e))%Z in
        let fraction := (Z.pos m mod 2 ^ (- e))%Z in
        if s then - of_Z (if (fraction =? 0)%Z then whole else whole + 1)
        else of_Z whole
  | _ => x
  end.

(** [v ** 2]. *)
Definition square (v : float) : float := v * v.

Section Host.

Variables Math_sin Math_cos : float -> float.

Definition getTerrainVoxelY (logicalX logicalZ : float) : float :=
  (* 1. Ponds (flat ice) *)
  let distToPond :=
    sqrt (square (logicalX - (-35)) + square (logicalZ - 35)) in
  if distToPond <? 16 then -2
  else
    (* 2. Central hub *)
    let distToCenter := sqrt (square logicalX + square logicalZ) in
    if distToCenter <? 5 then 0
    else
      (* 3. General terrain noise *)
      let noise :=
        Math_sin (logicalX * 0.05) * Math_cos (logicalZ * 0.05) * 6
        + Math_sin (logicalX * 0.1 + logicalZ * 0.2) * 2 in
      Math_floor noise.

End Host.

(** The two tests of [getTerrainVoxelY] at the integer point [(x, z)],
    compared with the exact tests on the squared distances. *)
Definition testsExact (x z : Z) : bool :=
  Bool.eqb (sqrt (square (of_Z x - (-35)) + square (of_Z z - 35)) <? 16)
           ((x + 35) ^ 2 + (z - 35) ^ 2 <? 256)%Z
  && Bool.eqb (sqrt (square (of_Z x) + square (of_Z z)) <? 5)
              (x ^ 2 + z ^ 2 <? 25)%Z.

(** [of_Z x] stands for the integer [x]. *)
Definition integral (x : Z) : bool :=
  match Prim2SF (of_Z x) with
  | S754_finite s m e =>
      (e <=? 0)%Z && (Z.pos m =? Z.abs x * 2 ^ (- e))%Z
      && Bool.eqb s (x <? 0)%Z
  | S754_zero _ => (x =? 0)%Z
  | _ => false
  end.

(** The integer lattice of the world: [-90 .. 90]. *)
Definition lattice : list Z := range (-90) 181.

(** The double next below 4, [3.9999999999999996]. *)
Definition below4 : float := 0x1.fffffffffffffp+1.

End TerrainDouble.

(* ================================================================== *)
(** * The scene components that send the events *)
(* ================================================================== *)

Module Scene.

(** [Collectibles]: a gift is rendered, and can be clicked, while it is not
    collected; its click sends [onCollect(gift.id)]. *)
Definition renderedGifts (gs : list Gift) : list Gift :=
  List.filter (fun g => negb (collected g)) gs.

(** [Snowmen]: a snowman is rendered while it is not dead; its click sends
    [onHit(sm.id)]. *)
Definition renderedSnowmen (sms : list Snowman) : list Snowman :=
  List.filter (fun sm => negb (isDead sm)) sms.

(** The events that the rendered scene can send in state [s]. *)
Definition offered (s : GameState) (e : Session.Event) : Prop :=
  match e with
  | Session.Collect id => In id (map gift_id (renderedGifts (gifts s)))
  | Session.Hit id => In id (map snowman_id (renderedSnowmen (snowmen s)))
  end.

(** A sequence of events, each offered by the scene when it is sent. *)
Fixpoint offeredRun (es : list Session.Event) (s : GameState) : Prop :=
  match es with
  | [] => True
  | e :: es' => offered s e /\ offeredRun es' (Session.step e s)
  end.

End Scene.

(* ================================================================== *)
(** * Vocabulary of the further statements *)
(* ================================================================== *)

Definition giftIds (s : GameState) : list Z := map gift_id (gifts s).

Definition snowmanIds (s : GameState) : list Z :=
  map snowman_id (snowmen s).

(** Number of snowmen still standing. *)
Definition aliveCount (s : GameState) : nat :=
  List.length (Scene.renderedSnowmen (snowmen s)).

(** A session whose identities are in order: gift identities are distinct,
    snowman identities are distinct, no gift yet carries the reward
    identity of a living snowman, and each snowman is dead exactly when it
    has no hit point left. *)
Record sessionInv (s : GameState) : Prop := mkSessionInv {
  si_gift_ids : NoDup (giftIds s);
  si_snowman_ids : NoDup (snowmanIds s);
  si_rewards_fresh :
    forall sm, In sm (snowmen s) -> isDead sm = false ->
               ~ In (1000 + snowman_id sm) (giftIds s);
  si_hp :
    forall sm, In sm (snowmen s) ->
               0 <= hp sm /\ isDead sm = (hp sm <=? 0)
}.

(** No gift carries the reward identity of a living snowman. *)
Definition rewardsFresh (s : GameState) : Prop :=
  forall sm, In sm (snowmen s) -> isDead sm = false ->
             ~ In (1000 + snowman_id sm) (giftIds s).

(** The event names a gift of the state, if it is a collect. *)
Definition known (s : GameState) (e : Session.Event) : Prop :=
  match e with
  | Session.Collect id => In id (giftIds s)
  | Session.Hit _ => True
  end.

Fixpoint knownRun (es : list Session.Event) (s : GameState) : Prop :=
  match es with
  | [] => True
  | e :: es' => known s e /\ knownRun es' (Session.step e s)
  end.

(** Every gift of [l] is still in [l'], at the same index, with the same
    identity, place, colour and type, and collected if it was. *)
Definition giftsPersist (l l' : list Gift) : Prop :=
  forall i g, nth_error l i = Some g ->
    exists g', nth_error l' i = Some g' /\
      gift_id g' = gift_id g /\
      gift_position g' = gift_position g /\
      gift_color g' = gift_color g /\
      gift_type g' = gift_type g /\
      gift_rotation g' = gift_rotation g /\
      (collected g = true -> collected g' = true).

(** Snowman [sm'] is snowman [sm] after some hits: same identity and place,
    no more hit points than before; unchanged if [sm] was dead. *)
Definition snowmanWorn (sm sm' : Snowman) : Prop :=
  snowman_id sm' = snowman_id sm /\
  snowman_position sm' = snowman_position sm /\
  snowman_rotation sm' = snowman_rotation sm /\
  hp sm' <= hp sm /\
  (isDead sm = true -> sm' = sm).

Definition snowmenPersist (l l' : list Snowman) : Prop :=
  Forall2 snowmanWorn l l'.

(** The oracle answers in the unit interval, as [Math.random] does. *)
Definition in_unit (random : nat -> R) : Prop :=
  forall n, (0 <= random n < 1)%R.

(** The snowman sample drawn at calls [n] and [n + 1] is accepted. *)
Definition accepted8 (random : nat -> R) (n : nat) : Prop :=
  ~ (sqrt (((random n - 0.5) * 2 * maxRange) ^ 2
           + ((random (S n) - 0.5) * 2 * maxRange) ^ 2) < 8)%R.

(** The oracle position at which [generateSnowmen] starts on snowman
    number [i]: the position reached once snowmen 0 .. i-1 are placed. *)
Definition snowmanStart (random : nat -> R) (i : nat) : nat :=
  snd (snd (forEach (range 0 i) (placeSnowman random) ([], O))).

(** Of the up to 20 samples that the loop of a snowman draws from position
    [n] on (at [n], [n + 2], ...), not all are rejected. *)
Definition sampleAccepted (random : nat -> R) (n : nat) : Prop :=
  exists k, (k < 20)%nat /\ accepted8 random (n + 2 * k).

(** What [generateSnowmen] guarantees of its snowman number [i], placed
    from oracle position [n] on. *)
Definition snowmanPlaced (random : nat -> R) (n : nat) (i : Z)
    (sm : Snowman) : Prop :=
  snowman_id sm = i /\ hp sm = 3 /\ isDead sm = false /\
  exists x z : R,
    x <> 0%R /\ z <> 0%R /\
    snowman_position sm
      = (x * 0.25, Terrain.getTerrainVoxelY x z * 0.25, z * 0.25)%R /\
    (i = 0 -> x = 15%R /\ z = 15%R) /\
    (i = 1 -> x = (-20)%R /\ z = (-10)%R) /\
    (in_unit random -> (-70 <= x <= 70 /\ -70 <= z <= 70)%R) /\
    (i = 0 \/ i = 1 \/ sampleAccepted random n ->
     (8 <= sqrt (x ^ 2 + z ^ 2))%R).

(** Snowman number [i] of a run of [generateSnowmen], whose sampling starts
    where the placement of its predecessors ended. *)
Definition snowmanOfRun (random : nat -> R) (i : Z) (sm : Snowman) : Prop :=
  snowmanPlaced random (snowmanStart random (Z.to_nat i)) i sm.

(** The session that [App] starts: the state of [useState] after the
    initialisation effect. *)
Definition appSession (random1 random2 : nat -> R) : GameState :=
  Session.initGame (generateGifts random1 30) (generateSnowmen random2 5)
                   Session.initialState.

(** The decoration that [addGift] gives every gift: a colour of the
    palette, not collected, and a rotation triple drawn in
    [0, 0.5) x [0, 2 PI) x [0, 0.5). *)
Definition decorated (g : Gift) : Prop :=
  In (gift_color g) colors /\ collected g = false /\
  exists a b c : R,
    gift_rotation g = Some (a, b, c) /\
    (0 <= a < 0.5 /\ 0 <= b < 2 * PI /\ 0 <= c < 0.5)%R.

(** The rectangle that [buildHouse] covers for building [b]: [rotate] swaps
    the two axes when the rotation flag is not 0. *)
Definition inFootprint (b : World.Building) (X Z : R) : Prop :=
  if Req_dec_T (World.b_r b) 0
  then (Rabs (X - World.b_x b) <= World.b_w b / 2 /\
        Rabs (Z - World.b_z b) <= World.b_d b / 2)%R
  else (Rabs (X - World.b_x b) <= World.b_d b / 2 /\
        Rabs (Z - World.b_z b) <= World.b_w b / 2)%R.

(** A stocking on the floor of one of the buildings of the world. *)
Definition housePlaced (g : Gift) : Prop :=
  gift_type g = stocking /\
  exists (b : World.Building) (X Z : R),
    In b World.buildings /\ inFootprint b X Z /\
    gift_position g = (X * 0.25, 0.3, Z * 0.25)%R.

(** A candy cane 0.3 above the pond ice, less than 12 from its centre. *)
Definition pondPlaced (g : Gift) : Prop :=
  gift_type g = cane /\
  exists px pz : R,
    (distance2 px pz (-35) 35 < 12)%R /\
    Terrain.getTerrainVoxelY px pz = (-2)%R /\
    gift_position g
      = (px * 0.25, Terrain.getTerrainVoxelY px pz * 0.25 + 0.3, pz * 0.25)%R.

(** A scattered gift: a sample of the square of half-width 80, outside the
    disc of radius 6, lifted 0.5 above the terrain height. *)
Definition scatterPlaced (g : Gift) : Prop :=
  exists x z : R,
    (-80 <= x < 80 /\ -80 <= z < 80)%R /\
    (6 <= sqrt (x ^ 2 + z ^ 2))%R /\
    gift_position g
      = (x * 0.25, Terrain.getTerrainVoxelY x z * 0.25 + 0.5, z * 0.25)%R.

(** The square of half-width 20 world units (80 voxels) around the tree
    axis. *)
Definition inSquare (g : Gift) : Prop :=
  let '(x, _, z) := gift_position g in (Rabs x <= 20 /\ Rabs z <= 20)%R.

(** A small session used to exercise the statements: two gifts, one
    snowman, and the events that collect the first gift, destroy the
    snowman and collect its reward. *)
Definition demoSession : GameState :=
  Session.initGame [plainGift 0; plainGift 1] [freshSnowman 0]
                   Session.initialState.

Definition demoEvents : list Session.Event :=
  [Session.Collect 0; Session.Hit 0; Session.Hit 0; Session.Hit 0;
   Session.Collect 1000].

(** A session of thirty gifts and no snowman, and the events that collect
    them all. *)
Definition thirtyGifts : GameState :=
  Session.initGame (map plainGift (range 0 30)) [] Session.initialState.

Definition collectAll : list Session.Event :=
  map Session.Collect (range 0 30).

(* ---------------------------------------------------------------- *)
(** ** The pond columns of the world generator *)
(* ---------------------------------------------------------------- *)

Module Pond.

Import World.

(** The ice and the water voxel of the column [c = (x, z)]. *)
Definition iceAt (c : Z * Z) : VoxelData :=
  mkVoxel (fst c) pondIceY (snd c) PALETTE.ICE.

Definition waterAt (c : Z * Z) : VoxelData :=
  mkVoxel (fst c) pondWaterY (snd c) PALETTE.WATER.

(** The test [distToPond < pondRadius - 2] of the terrain loop. *)
Definition insideb (c : Z * Z) : bool :=
  if Rlt_dec (sqrt ((IZR (fst c) - pondCenter_x) ^ 2
                    + (IZR (snd c) - pondCenter_z) ^ 2))
             (pondRadius - 2)
  then true else false.

(** The values of both terrain loop variables, and the columns in the
    order in which the two loops visit them. *)
Definition axis : list Z :=
  range (- WORLD_RADIUS) (Z.to_nat (2 * WORLD_RADIUS + 1)).

Definition grid : list (Z * Z) :=
  flat_map (fun x => map (pair x) axis) axis.

Definition pondColumns : list (Z * Z) := List.filter insideb grid.

(** Both pond arrays hold one voxel for each column of [cols], in order. *)
Definition lockstep (cols : list (Z * Z)) (w : WorldStore) : Prop :=
  interactiveIce w = map iceAt cols /\ waterVoxels w = map waterAt cols.

(** The same inside the fill loop of the column [c], before step [y]. *)
Definition midColumn (cols : list (Z * Z)) (c : Z * Z) (y : Z)
    (w : WorldStore) : Prop :=
  interactiveIce w
    = map iceAt cols ++ (if (pondIceY <? y)%Z then [iceAt c] else []) /\
  waterVoxels w
    = map waterAt cols ++ (if (pondWaterY <? y)%Z then [waterAt c] else []).

End Pond.

(* ---------------------------------------------------------------- *)
(** ** Framing and the doors of the world generator *)
(* ---------------------------------------------------------------- *)

Module Frame.

Import World WorldInv.

(** The computation [c] leaves the component [proj] of the store alone. *)
Definition keeps {X A : Type} (proj : WorldStore -> X)
    (c : Gen WorldStore A) : Prop :=
  forall w n, proj (after c w n) = proj w.

(** A component that the occupancy-checked insertion never touches. *)
Definition aside {X : Type} (proj : WorldStore -> X) : Prop :=
  (forall v w, proj (push_regular v w) = proj w) /\
  (forall v w, proj (push_glowing v w) = proj w) /\
  (forall k w, proj (occupy k w) = proj w).

(** The door that [buildHouse] records for the building [b]: hinged at
    [rotate(-2.5, depth / 2)] on the ground, turned with the house. *)
Definition doorOf (b : Building) : DoorData :=
  let hingePos := rotate (b_x b) (b_z b) (b_r b) (-2.5) (b_d b / 2) in
  mkDoor (fst hingePos * VOXEL_SIZE, 0 * VOXEL_SIZE,
          snd hingePos * VOXEL_SIZE)%R
         (if Req_dec_T (b_r b) 0 then 0 else - PI / 2)%R.

(** One step of a loop of [buildHouse] entered with the flag
    [doorRecorded = b]: either the flag and the doors are kept, or the flag
    was unset, is set now, and the door [d] has been recorded. *)
Definition doorStep (d : DoorData) (b : bool) (c : Gen WorldStore bool)
  : Prop :=
  forall w n,
    (fst (c (w, n)) = b /\ doors (after c w n) = doors w) \/
    (b = false /\ fst (c (w, n)) = true /\
     doors (after c w n) = doors w ++ [d]).

(** The cell of [buildHouse] at which the door is recorded at the latest. *)
Definition sets_flag {A : Type} (body : A -> bool -> Gen WorldStore bool)
    (a : A) : Prop :=
  forall b w n, fst (body a b (w, n)) = true.

End Frame.

(* ---------------------------------------------------------------- *)
(** ** The cracks of the ice pond ([IcePond], [crackGeometry]) *)
(* ---------------------------------------------------------------- *)

Module IcePond.

Local Open Scope R_scope.
Local Open Scope gen_scope.

Definition vx (v : Vec3) : R := fst (fst v).
Definition vy (v : Vec3) : R := snd (fst v).
Definition vz (v : Vec3) : R := snd v.

Definition centerX : R := -35 * VOXEL_SIZE.
Definition centerZ : R := 35 * VOXEL_SIZE.
Definition surfaceY : R := (-2 * VOXEL_SIZE) + (VOXEL_SIZE * 0.5) + 0.02.
Definition pondRadius : R := 16 * VOXEL_SIZE.

(** [new THREE.Vector3().lerpVectors(v1, v2, alpha)] *)
Definition lerpVectors (v1 v2 : Vec3) (alpha : R) : Vec3 :=
  (vx v1 + (vx v2 - vx v1) * alpha,
   vy v1 + (vy v2 - vy v1) * alpha,
   vz v1 + (vz v2 - vz v1) * alpha).

(** [points.push(p)] *)
Definition push_point (p : Vec3) : Gen (list Vec3) unit :=
  modify (fun points => points ++ [p]).

Section Crack.

Variable random : nat -> R.

(** [addJaggedLine(p1, p2, depth, maxOffset)]; [depth] counts down from the
    literals 5 and 3 of the two call sites, so that [depth <= 0] is
    [depth = 0]. *)
Fixpoint addJaggedLine (p1 p2 : Vec3) (depth : nat) (maxOffset : R)
  : Gen (list Vec3) unit :=
  match depth with
  | O => push_point p1 ;;; push_point p2
  | S depth' =>
      let mid := lerpVectors p1 p2 0.5 in
      r1 <- Math_random random ;;
      let mid := (vx mid + (r1 - 0.5) * maxOffset, vy mid, vz mid) in
      r2 <- Math_random random ;;
      let mid := (vx mid, vy mid, vz mid + (r2 - 0.5) * maxOffset) in
      addJaggedLine p1 mid depth' (maxOffset * 0.5) ;;;
      addJaggedLine mid p2 depth' (maxOffset * 0.5)
  end.

Definition numSpokes : Z := 12.
Definition numRings : Z := 8.

(** Body of the loop "1. Radial Cracks (Spokes)". *)
Definition spoke (i : Z) : Gen (list Vec3) unit :=
  ra <- Math_random random ;;
  let angle := (IZR i / IZR numSpokes) * PI * 2 + (ra * 0.5) in
  rs <- Math_random random ;;
  let rStart := rs * 2.0 in
  re <- Math_random random ;;
  let rEnd := pondRadius * (0.8 + re * 0.3) in
  let start := (centerX + cos angle * rStart, surfaceY,
                centerZ + sin angle * rStart) in
  let end_ := (centerX + cos angle * rEnd, surfaceY,
               centerZ + sin angle * rEnd) in
  addJaggedLine start end_ 5 0.5.

(** Body of the inner loop of "2. Connecting/Transverse Cracks". *)
Definition ringSegment (r : R) (segments j : Z) : Gen (list Vec3) unit :=
  g <- Math_random random ;;
  if Rlt_dec 0.6 g then ret tt
  else
    let angle1 := (IZR j / IZR segments) * PI * 2 in
    let angle2 := (IZR (j + 1) / IZR segments) * PI * 2 in
    let p1 := (centerX + cos angle1 * r, surfaceY,
               centerZ + sin angle1 * r) in
    let p2 := (centerX + cos angle2 * r, surfaceY,
               centerZ + sin angle2 * r) in
    addJaggedLine p1 p2 3 0.3.

Definition ring (i : Z) : Gen (list Vec3) unit :=
  let r := pondRadius * (0.2 + (IZR i / IZR numRings) * 0.8) in
  let segments := (12 + i * 2)%Z in
  forEach (range 0 (Z.to_nat segments)) (ringSegment r segments).

Definition crackGeometry_body : Gen (list Vec3) unit :=
  forEach (range 0 (Z.to_nat numSpokes)) spoke ;;;
  forEach (range 0 (Z.to_nat numRings)) ring.

(** The points handed to [setFromPoints]. *)
Definition crackGeometry : list Vec3 :=
  fst (snd (crackGeometry_body ([], O))).

End Crack.

(** [c] only appends points, and the points it appends satisfy [P]. *)
Definition grows (c : Gen (list Vec3) unit) (P : list Vec3 -> Prop) : Prop :=
  forall pts n, exists new n',
    c (pts, n) = (tt, (pts ++ new, n')) /\ P new.

(** A run of line segments from [a] to [b], each given by its two end
    points, in which every segment starts where the previous one ends. *)
Inductive chain : Vec3 -> list Vec3 -> Vec3 -> Prop :=
  | chain_one (a b : Vec3) : chain a [a; b] b
  | chain_app (a m b : Vec3) (l1 l2 : list Vec3) :
      chain a l1 m -> chain m l2 b -> chain a (l1 ++ l2) b.

(** A point at the height of the cracks, within [d] of the pond centre on
    both horizontal axes. *)
Definition nearCentre (d : R) (p : Vec3) : Prop :=
  vy p = surfaceY /\
  centerX - d <= vx p <= centerX + d /\
  centerZ - d <= vz p <= centerZ + d.

(** [16 * k] points with [lo <= k <= hi], all satisfying [Q]. *)
Definition counted (Q : Vec3 -> Prop) (lo hi : nat) (new : list Vec3)
  : Prop :=
  exists k : nat,
    List.length new = (16 * k)%nat /\ (lo <= k <= hi)%nat /\ Forall Q new.

End IcePond.

(* ---------------------------------------------------------------- *)
(** ** The falling snow ([SnowParticles]) *)
(* ---------------------------------------------------------------- *)

Module Snow.

Local Open Scope R_scope.
Local Open Scope gen_scope.

Record Particle : Type := mkParticle {
  px : R; py : R; pz : R; speed : R; offset : R
}.

Definition count : nat := 3000.

Section Particles.

Variable random : nat -> R.

(** Body of the loop that fills [temp]. *)
Definition newParticle : Gen (list Particle) unit :=
  r1 <- Math_random random ;;
  let x := (r1 - 0.5) * 80 in
  r2 <- Math_random random ;;
  let y := r2 * 40 + 10 in
  r3 <- Math_random random ;;
  let z := (r3 - 0.5) * 80 in
  r4 <- Math_random random ;;
  let speed := 0.01 + r4 * 0.04 in
  r5 <- Math_random random ;;
  modify (fun temp => temp ++ [mkParticle x y z speed (r5 * 100)]).

Definition particles : list Particle :=
  fst (snd (forEach (range 0 count) (fun _ => newParticle) ([], O))).

End Particles.

(** What one frame does to one particle: it falls by its speed and is put
    back at the top once below -5. *)
Definition fall (p : Particle) : Particle :=
  let y := py p - speed p in
  let y := if Rlt_dec y (-5) then 50 else y in
  mkParticle (px p) y (pz p) (speed p) (offset p).

(** The position given to the instance of a particle at clock [time]. *)
Definition displayed (time : R) (p : Particle) : Vec3 :=
  let wiggleX := sin (time + offset p) * 0.2 in
  let wiggleZ := cos (time * 0.8 + offset p) * 0.2 in
  (px p + wiggleX, py p, pz p + wiggleZ).

(** One frame callback, and [k] of them. *)
Definition frame (ps : list Particle) : list Particle := map fall ps.

Fixpoint frames (k : nat) (ps : list Particle) : list Particle :=
  match k with
  | O => ps
  | S k' => frames k' (frame ps)
  end.

(** A particle inside the snow volume. *)
Definition inVolume (p : Particle) : Prop :=
  -40 <= px p < 40 /\ -5 <= py p <= 50 /\ -40 <= pz p < 40 /\
  0.01 <= speed p < 0.05 /\ 0 <= offset p < 100.

End Snow.

(* ---------------------------------------------------------------- *)
(** ** Keyboard motion of the camera ([CameraRig]) *)
(* ---------------------------------------------------------------- *)

Module CameraRig.

Import IcePond.

Local Open Scope R_scope.

(** The methods of [THREE.Vector3] that the frame callback uses. *)
Definition add (a b : Vec3) : Vec3 := (vx a + vx b, vy a + vy b, vz a + vz b).
Definition sub (a b : Vec3) : Vec3 := (vx a - vx b, vy a - vy b, vz a - vz b).
Definition multiplyScalar (a : Vec3) (s : R) : Vec3 :=
  (vx a * s, vy a * s, vz a * s).
Definition lengthSq (a : Vec3) : R := vx a * vx a + vy a * vy a + vz a * vz a.
Definition length (a : Vec3) : R := sqrt (lengthSq a).

(** [normalize()] divides by [length() || 1]. *)
Definition normalize (a : Vec3) : Vec3 :=
  let d := if Req_dec_T (length a) 0 then 1 else length a in
  (vx a / d, vy a / d, vz a / d).

Record Keys : Type := mkKeys {
  forward : bool; backward : bool; left : bool; right : bool
}.

(** One frame callback with the controls mounted.  [fq] and [rq] are the
    vectors (0, 0, -1) and (1, 0, 0) turned by the camera quaternion; the
    result is the new camera position and the new orbit target. *)
Definition frame (keys : Keys) (delta : R) (fq rq : Vec3)
    (camera target : Vec3) : Vec3 * Vec3 :=
  if negb (forward keys) && negb (backward keys) && negb (left keys)
     && negb (right keys)
  then (camera, target)
  else
    let speed := 40 * delta in
    let forwardDir := normalize (vx fq, 0, vz fq) in
    let rightDir := normalize (vx rq, 0, vz rq) in
    let moveDir : Vec3 := (0, 0, 0) in
    let moveDir := if forward keys then add moveDir forwardDir else moveDir in
    let moveDir := if backward keys then sub moveDir forwardDir
                   else moveDir in
    let moveDir := if right keys then add moveDir rightDir else moveDir in
    let moveDir := if left keys then sub moveDir rightDir else moveDir in
    if Rlt_dec 0 (lengthSq moveDir) then
      let moveDir := multiplyScalar (normalize moveDir) speed in
      (add camera moveDir, add target moveDir)
    else (camera, target).

End CameraRig.

(* ---------------------------------------------------------------- *)
(** ** The swinging doors ([Door]) *)
(* ---------------------------------------------------------------- *)

Module Door.

Local Open Scope R_scope.

(** [THREE.MathUtils.lerp] and [THREE.MathUtils.damp]. *)
Definition lerp (x y t : R) : R := (1 - t) * x + t * y.
Definition damp (x y lambda dt : R) : R := lerp x y (1 - exp (- lambda * dt)).

(** The state of one door: the flag [isOpen] and the rotation of the
    hinge. *)
Record State : Type := mkState { isOpen : bool; angle : R }.

Definition initial : State := mkState false 0.

Definition targetRotation (s : State) : R :=
  if isOpen s then - PI / 1.5 else 0.

(** The frame callback and the click handler. *)
Definition frame (delta : R) (s : State) : State :=
  mkState (isOpen s) (damp (angle s) (targetRotation s) 4 delta).

Definition click (s : State) : State := mkState (negb (isOpen s)) (angle s).

Inductive Event : Type := Frame (delta : R) | Click.

Definition step (e : Event) (s : State) : State :=
  match e with
  | Frame delta => frame delta s
  | Click => click s
  end.

Definition run (es : list Event) (s : State) : State :=
  fold_left (fun st e => step e st) es s.

(** Frames never run backwards in time. *)
Definition forwardInTime (e : Event) : Prop :=
  match e with
  | Frame delta => 0 <= delta
  | Click => True
  end.

End Door.

(* ---------------------------------------------------------------- *)
(** ** The surface of the terrain columns *)
(* ---------------------------------------------------------------- *)

Module Surface.

Import World WorldInv.

(** A computation that leaves the path map alone and frees no cell. *)
Definition settled {A : Type} (c : Gen WorldStore A) : Prop :=
  forall w n,
    pathHeightMap (after c w n) = pathHeightMap w /\
    (forall k, k ∈ occupied w -> k ∈ occupied (after c w n)).

(** [terrainNoise] of the column [(x, z)]. *)
Definition terrainNoise (x z : Z) : R :=
  (sin (IZR x * 0.05) * cos (IZR z * 0.05) * 6
   + sin (IZR x * 0.1 + IZR z * 0.2) * 2)%R.

Definition distToPond (x z : Z) : R :=
  sqrt ((IZR x - pondCenter_x) ^ 2 + (IZR z - pondCenter_z) ^ 2).

(** The elevation [surfaceY] that the terrain loop computes for a column
    that is not iced over, given the path map [paths]: the rim of the pond,
    a path, or the floor of the noise. *)
Definition surfaceLevel (paths : gmap (Z * Z) Z) (x z : Z) : Z :=
  if Rlt_dec (distToPond x z) pondRadius then (-1)%Z
  else if decide (is_Some (paths !! (x, z))) then 0%Z
  else Zfloor (terrainNoise x z).

(** The column [(x, z)] lies on the island. *)
Definition onIsland (x z : Z) : Prop :=
  ~ (IZR WORLD_RADIUS < sqrt (IZR x * IZR x + IZR z * IZR z))%R.

(** The surface cell of the column [(x, z)] is taken. *)
Definition surfaced (paths : gmap (Z * Z) Z) (w : WorldStore) (x z : Z)
  : Prop :=
  onIsland x z -> ~ insidePond x z ->
  (x, surfaceLevel paths x z, z) ∈ occupied w.

(** The terrain loops have passed every column before [(x, z)]. *)
Definition surfacedBefore (paths : gmap (Z * Z) Z) (x z : Z)
    (w : WorldStore) : Prop :=
  pathHeightMap w = paths /\
  forall x' z' : Z,
    (x' < x \/ (x' = x /\ z' < z))%Z -> surfaced paths w x' z'.

End Surface.

(* ---------------------------------------------------------------- *)
(** ** The glowing mesh ([VoxelWorld]) *)
(* ---------------------------------------------------------------- *)

Module Glow.

Import World WorldInv.

Local Open Scope R_scope.

(** The intensity and the colour that the layout effect of [VoxelWorld]
    gives a glowing voxel of colour [color], before [multiplyScalar]. *)
Definition glow (isNight : bool) (color : Z) : R * Z :=
  if (color =? PALETTE.LAMP_WARM)%Z then
    if isNight then (50.0, color) else (0.5, 0x555555%Z)
  else if (color =? PALETTE.LIGHT_WARM)%Z then
    if isNight then (8.0, color) else (1.0, 0xaaaaaa%Z)
  else
    if negb isNight then (2.0, color) else (5.0, color).

(** No glowing voxel of the store has the colour of a lamp head. *)
Definition noLampGlow (w : WorldStore) : Prop :=
  Forall (fun v => voxel_color v <> PALETTE.LAMP_WARM) (glowingVoxels w).

Definition glowfree {A : Type} (c : Gen WorldStore A) : Prop :=
  hoare noLampGlow c noLampGlow.

(** The cell into which [buildLamp(x, 0, z)] puts the top of the pole. *)
Definition poleTop (x z : R) : Key :=
  (Math_round x, Math_round (0 + IZR 8), Math_round z).

End Glow.

(* ---------------------------------------------------------------- *)
(** ** The street lamps *)
(* ---------------------------------------------------------------- *)

Module Lamps.

Import World WorldInv.

(** The entry of [lampCoords] that [buildLamp(X, 0, Z)] pushes. *)
Definition lampAt (lx lz : Z) : Point3 :=
  mkPoint3 (IZR lx * VOXEL_SIZE) ((0 + IZR 9 - 1 - 0.5 - 1) * VOXEL_SIZE)
           (IZR lz * VOXEL_SIZE)%R.

(** The lamp [p] stands on a column of ten taken cells. *)
Definition standing (w : WorldStore) (p : Point3) : Prop :=
  exists lx lz : Z,
    p = lampAt lx lz /\
    forall h : Z, (0 <= h <= 9)%Z -> (lx, h, lz) ∈ occupied w.

(** [c] appends [k] lamps to [lampCoords], all standing when it returns,
    and frees no cell. *)
Definition lamps {A : Type} (k : nat) (c : Gen WorldStore A) : Prop :=
  forall w n, exists new,
    lampCoords (after c w n) = lampCoords w ++ new /\
    List.length new = k /\
    (forall key, key ∈ occupied w -> key ∈ occupied (after c w n)) /\
    Forall (standing (after c w n)) new.

(** The number of lamps that [createPath(x1, z1, x2, z2)] builds. *)
Definition lampCount (x1 z1 x2 z2 : R) : nat :=
  let dist := sqrt ((x2 - x1) ^ 2 + (z2 - z1) ^ 2) in
  if Rlt_dec 10 dist then Z.to_nat (Zfloor (dist / 25) - 1) else O.

End Lamps.
(* ================================================================== *)
(** * Properties of the game session *)
(* ================================================================== *)

Section SessionFacts.

Import Session.

Local Open Scope Z_scope.

(** Mapping an update over the elements that satisfy [p] changes nothing
    when [find p] finds none. *)
Lemma map_if_find_None {A : Type} (p : A -> bool) (h : A -> A) (l : list A) :
  find p l = None -> map (fun a => if p a then h a else a) l = l.
Proof.
  induction l as [|a l IH]; simpl; [reflexivity|].
  destruct (p a); [discriminate|].
  intros Hnone. now rewrite IH.
Qed.

(** After such an update with an [h] that keeps [p] true, [find p] returns
    the updated first match. *)
Lemma find_map_if {A : Type} (p : A -> bool) (h : A -> A) (l : list A) :
  (forall a, p a = true -> p (h a) = true) ->
  find p (map (fun a => if p a then h a else a) l) = option_map h (find p l).
Proof.
  intros Hp. induction l as [|a l IH]; simpl; [reflexivity|].
  destruct (p a) eqn:Ea.
  - now rewrite (Hp a Ea).
  - now rewrite Ea.
Qed.

(** An update of the elements with identity [id] is invisible to a lookup
    under another identity. *)
Lemma find_map_other (id j : Z) (h : Snowman -> Snowman) (l : list Snowman) :
  j <> id ->
  (forall s, snowman_id (h s) = snowman_id s) ->
  find (fun s => snowman_id s =? j)
       (map (fun s => if snowman_id s =? id then h s else s) l)
  = find (fun s => snowman_id s =? j) l.
Proof.
  intros Hne Hid. induction l as [|a l IH]; simpl; [reflexivity|].
  destruct (snowman_id a =? id) eqn:Ea.
  - apply Z.eqb_eq in Ea. rewrite Hid.
    destruct (snowman_id a =? j) eqn:Ej; [apply Z.eqb_eq in Ej; lia|exact IH].
  - destruct (snowman_id a =? j); [reflexivity|exact IH].
Qed.

Lemma handleCollect_foundCount (id : Z) (s : GameState) :
  foundCount (handleCollect id s) = foundCount s \/
  foundCount (handleCollect id s) = foundCount s + 1.
Proof.
  unfold handleCollect.
  destruct (found_and_collected _); simpl; [now left | now right].
Qed.

Lemma handleSnowmanHit_foundCount (id : Z) (s : GameState) :
  foundCount (handleSnowmanHit id s) = foundCount s /\
  gameOver (handleSnowmanHit id s) = gameOver s.
Proof.
  unfold handleSnowmanHit.
  destruct (find _ _) as [sm|]; [|now split].
  destruct (isDead sm); now split.
Qed.

Lemma step_foundCount (e : Event) (s : GameState) :
  foundCount s <= foundCount (step e s) <= foundCount s + 1.
Proof.
  destruct e as [id|id]; simpl.
  - destruct (handleCollect_foundCount id s) as [H|H]; rewrite H; lia.
  - destruct (handleSnowmanHit_foundCount id s) as [H _]; rewrite H; lia.
Qed.

(** The flag [gameOver] tracks the counter across every transition. *)
Lemma step_gameOver (e : Event) (s : GameState) :
  gameOver s = (30 <=? foundCount s) ->
  gameOver (step e s) = (30 <=? foundCount (step e s)).
Proof.
  intros Hinv. destruct e as [id|id]; simpl.
  - unfold handleCollect.
    destruct (found_and_collected _); simpl; [exact Hinv|reflexivity].
  - destruct (handleSnowmanHit_foundCount id s) as [Hc Hg].
    now rewrite Hc, Hg.
Qed.

Lemma run_app (es es' : list Event) (s : GameState) :
  run (es ++ es') s = run es' (run es s).
Proof. unfold run. apply fold_left_app. Qed.

Lemma run_gameOver (es : list Event) (s : GameState) :
  gameOver s = (30 <=? foundCount s) ->
  gameOver (run es s) = (30 <=? foundCount (run es s)).
Proof.
  revert s. induction es as [|e es IH]; intros s Hinv; simpl; [exact Hinv|].
  apply IH. now apply step_gameOver.
Qed.

Lemma run_foundCount_mono (es : list Event) (s : GameState) :
  foundCount s <= foundCount (run es s).
Proof.
  revert s. induction es as [|e es IH]; intros s; simpl; [lia|].
  specialize (IH (step e s)). pose proof (step_foundCount e s). lia.
Qed.

Lemma initGame_inv (gs : list Gift) (sms : list Snowman) :
  gameOver (initGame gs sms initialState)
  = (30 <=? foundCount (initGame gs sms initialState)).
Proof. reflexivity. Qed.

(** ** C1 *)

(** C1 (the code departs from the claim): [collect(id)] with an [id] that no
    gift carries is not a no-op.  The guard of [handleCollect] only returns
    the previous state for a gift that is found and already collected; for
    an unknown [id] the gift list is rebuilt unchanged but [foundCount] is
    incremented and [gameOver] re-evaluated. *)
Theorem handleCollect_unknown_id_counts (id : Z) (prev : GameState) :
  find (fun g => gift_id g =? id) (gifts prev) = None ->
  handleCollect id prev =
    {| started := started prev;
       gifts := gifts prev;
       snowmen := snowmen prev;
       foundCount := foundCount prev + 1;
       gameOver := 30 <=? foundCount prev + 1 |}.
Proof.
  intros Hnone. unfold handleCollect. rewrite Hnone. simpl.
  now rewrite (map_if_find_None _ markCollected _ Hnone).
Qed.

Lemma handleCollect_unknown_id_counts_witness :
  find (fun g => gift_id g =? 5) (gifts initialState) = None /\
  foundCount (handleCollect 5 initialState) = 1 /\
  handleCollect 5 initialState <> initialState.
Proof.
  assert (Hnone : find (fun g => gift_id g =? 5) (gifts initialState) = None)
    by reflexivity.
  split; [exact Hnone|].
  rewrite (handleCollect_unknown_id_counts 5 initialState Hnone).
  split; [reflexivity|discriminate].
Defined.

(** ** C2 *)

Lemma hit_noop_unknown (id : Z) (prev : GameState) :
  lookupSnowman id prev = None -> handleSnowmanHit id prev = prev.
Proof. unfold lookupSnowman, handleSnowmanHit. now intros ->. Qed.

Lemma hit_noop_dead (id : Z) (prev : GameState) (sm : Snowman) :
  lookupSnowman id prev = Some sm -> isDead sm = true ->
  handleSnowmanHit id prev = prev.
Proof. unfold lookupSnowman, handleSnowmanHit. now intros -> ->. Qed.

Lemma hit_alive (id : Z) (prev : GameState) (sm : Snowman) :
  lookupSnowman id prev = Some sm -> isDead sm = false ->
  let next := handleSnowmanHit id prev in
  let newHp := hp sm - 1 in
  lookupSnowman id next = Some (damaged newHp (newHp <=? 0) sm) /\
  (forall j, j <> id -> lookupSnowman j next = lookupSnowman j prev) /\
  gifts next =
    (if newHp <=? 0 then gifts prev ++ [rewardGift id sm] else gifts prev) /\
  started next = started prev /\
  foundCount next = foundCount prev /\
  gameOver next = gameOver prev.
Proof.
  unfold lookupSnowman, handleSnowmanHit. intros Hf Hd.
  rewrite Hf, Hd. cbn zeta. simpl.
  split.
  - rewrite (find_map_if (fun s => snowman_id s =? id)
               (damaged (hp sm - 1) (hp sm - 1 <=? 0))).
    + now rewrite Hf.
    + intros a Ha. exact Ha.
  - split; [|now repeat split].
    intros j Hj.
    apply (find_map_other id j (damaged (hp sm - 1) (hp sm - 1 <=? 0)));
      [exact Hj|reflexivity].
Qed.

(** Three hits on a snowman with three hit points. *)
Lemma hit_three_times (id : Z) (s0 : GameState) (sm : Snowman) :
  lookupSnowman id s0 = Some sm -> hp sm = 3 -> isDead sm = false ->
  let s1 := handleSnowmanHit id s0 in
  let s2 := handleSnowmanHit id s1 in
  let s3 := handleSnowmanHit id s2 in
  lookupSnowman id s1 = Some (damaged 2 false sm) /\ gifts s1 = gifts s0 /\
  lookupSnowman id s2 = Some (damaged 1 false sm) /\ gifts s2 = gifts s0 /\
  lookupSnowman id s3 = Some (damaged 0 true sm) /\
  gifts s3 = gifts s0 ++ [rewardGift id sm] /\
  (forall n, run (repeat (Hit id) n) s3 = s3).
Proof.
  intros Hf Hhp Hd s1 s2 s3.
  destruct (hit_alive id s0 sm Hf Hd) as (L1 & _ & G1 & _).
  rewrite Hhp in L1, G1. simpl in L1, G1. fold s1 in L1, G1.
  destruct (hit_alive id s1 _ L1 eq_refl) as (L2 & _ & G2 & _).
  simpl in L2, G2. fold s2 in L2, G2.
  destruct (hit_alive id s2 _ L2 eq_refl) as (L3 & _ & G3 & _).
  simpl in L3, G3. fold s3 in L3, G3.
  repeat split; try assumption.
  - congruence.
  - rewrite G3, G2, G1. unfold rewardGift. simpl. reflexivity.
  - induction n as [|n IH]; simpl; [reflexivity|].
    rewrite (hit_noop_dead id s3 _ L3 eq_refl). exact IH.
Qed.

(** C2: [hit(id)] is a no-op for an unknown or dead snowman; on a living one
    it takes one hit point from that snowman and from no other, marks it dead
    exactly when the new hit points are [<= 0], and in that case appends
    exactly one gift [1000 + id], uncollected, of type gingerbread, one unit
    above the snowman; nothing else changes.  Three hits on a snowman with
    [hp = 3] give hit points 2, 1, 0, the reward after the third hit only,
    and further hits change nothing. *)
Theorem hit_transition (id : Z) (prev : GameState) (sm : Snowman) :
  (lookupSnowman id prev = None -> handleSnowmanHit id prev = prev) /\
  (lookupSnowman id prev = Some sm -> isDead sm = true ->
     handleSnowmanHit id prev = prev) /\
  (lookupSnowman id prev = Some sm -> isDead sm = false ->
     let next := handleSnowmanHit id prev in
     let newHp := hp sm - 1 in
     let '(px, py, pz) := snowman_position sm in
     let reward :=
       {| gift_id := 1000 + id;
          gift_position := (px, (py + 1)%R, pz);
          gift_color := "#ff00ff";
          collected := false;
          gift_type := gingerbread;
          gift_rotation := Some (0%R, 0%R, 0%R) |} in
     lookupSnowman id next =
       Some {| snowman_id := snowman_id sm;
               snowman_position := snowman_position sm;
               snowman_rotation := snowman_rotation sm;
               hp := newHp;
               isDead := newHp <=? 0 |} /\
     (forall j, j <> id -> lookupSnowman j next = lookupSnowman j prev) /\
     (newHp <= 0 -> gifts next = gifts prev ++ [reward]) /\
     (0 < newHp -> gifts next = gifts prev) /\
     started next = started prev /\
     foundCount next = foundCount prev /\
     gameOver next = gameOver prev) /\
  (lookupSnowman id prev = Some sm -> hp sm = 3 -> isDead sm = false ->
     let s1 := handleSnowmanHit id prev in
     let s2 := handleSnowmanHit id s1 in
     let s3 := handleSnowmanHit id s2 in
     option_map hp (lookupSnowman id s1) = Some 2 /\
     option_map isDead (lookupSnowman id s1) = Some false /\
     gifts s1 = gifts prev /\
     option_map hp (lookupSnowman id s2) = Some 1 /\
     option_map isDead (lookupSnowman id s2) = Some false /\
     gifts s2 = gifts prev /\
     option_map hp (lookupSnowman id s3) = Some 0 /\
     option_map isDead (lookupSnowman id s3) = Some true /\
     gifts s3 = gifts prev ++ [rewardGift id sm] /\
     (forall n, run (repeat (Hit id) n) s3 = s3)).
Proof.
  split; [apply hit_noop_unknown|].
  split; [apply hit_noop_dead|].
  split.
  - intros Hf Hd.
    destruct (hit_alive id prev sm Hf Hd) as (L & O & G & S & F & W).
    cbn zeta. destruct (snowman_position sm) as [[px py] pz] eqn:Epos.
    split; [rewrite L; unfold damaged; now rewrite Epos|]. split; [exact O|].
    split; [|split; [|now repeat split]].
    + intros Hle. rewrite G. apply Z.leb_le in Hle. rewrite Hle.
      unfold rewardGift. rewrite Epos.
      replace (py + 1.0)%R with (py + 1)%R by lra. reflexivity.
    + intros Hlt. rewrite G.
      destruct (hp sm - 1 <=? 0) eqn:E; [apply Z.leb_le in E; lia|reflexivity].
  - intros Hf Hhp Hd.
    destruct (hit_three_times id prev sm Hf Hhp Hd)
      as (L1 & G1 & L2 & G2 & L3 & G3 & Hn).
    cbn zeta. rewrite L1, L2, L3. simpl. now repeat split.
Qed.

Lemma hit_transition_witness :
  let s0 := initGame [] [freshSnowman 0; freshSnowman 1] initialState in
  let s3 := handleSnowmanHit 1 (handleSnowmanHit 1 (handleSnowmanHit 1 s0)) in
  gifts s3 = [rewardGift 1 (freshSnowman 1)] /\
  handleSnowmanHit 1 s3 = s3.
Proof.
  intros s0 s3.
  destruct (hit_transition 1 s0 (freshSnowman 1)) as (_ & _ & _ & H3).
  destruct (H3 eq_refl eq_refl eq_refl) as (_ & _ & _ & _ & _ & _ & _ & _ & G & N).
  split; [exact G|]. exact (N 1%nat).
Defined.

(** ** C3 *)

(** C3 (the code departs from the claim): [foundCount] does not stay equal
    to the number of collected gifts.  From the initial state, one
    [collect(5)] gives [foundCount = 1] with no gift collected; in a session
    with one gift [0], [collect(0)] then [collect(5)] gives [foundCount = 2]
    with one gift collected.  The flag [gameOver] still agrees with the
    counter. *)
Theorem foundCount_exceeds_collected :
  let s := run [Collect 5] initialState in
  let g0 := mkGift 0 (0%R, 0%R, 0%R) "#ff0000" false box None in
  let t := run [Collect 0; Collect 5] (initGame [g0] [] initialState) in
  (foundCount s = 1 /\ countCollected (gifts s) = 0 /\
   gameOver s = (30 <=? foundCount s)) /\
  (foundCount t = 2 /\ countCollected (gifts t) = 1 /\
   gameOver t = (30 <=? foundCount t)).
Proof. cbv zeta. split; repeat split. Qed.

(** ** C4 *)

(** C4: along every sequence of collect and hit events from the start of a
    session, [gameOver] holds exactly in the states whose counter has
    reached 30; the counter never decreases, so the flag is set by the
    transition that takes the counter from 29 to 30, and stays set in every
    later state. *)
Theorem gameOver_win_condition
    (gs : list Gift) (sms : list Snowman) (es : list Event) :
  let s0 := initGame gs sms initialState in
  (gameOver (run es s0) = true <-> 30 <= foundCount (run es s0)) /\
  (forall e,
     gameOver (run es s0) = false ->
     gameOver (run (es ++ [e]) s0) = true ->
     foundCount (run es s0) = 29 /\ foundCount (run (es ++ [e]) s0) = 30) /\
  (forall e,
     foundCount (run es s0) < 30 -> 30 <= foundCount (run (es ++ [e]) s0) ->
     gameOver (run es s0) = false /\ gameOver (run (es ++ [e]) s0) = true) /\
  (forall es',
     gameOver (run es s0) = true -> gameOver (run (es ++ es') s0) = true) /\
  (forall es', foundCount (run es s0) <= foundCount (run (es ++ es') s0)).
Proof.
  intros s0.
  assert (Hinv : forall l, gameOver (run l s0) = (30 <=? foundCount (run l s0)))
    by (intros l; apply run_gameOver, initGame_inv).
  assert (Hmono : forall l l',
             foundCount (run l s0) <= foundCount (run (l ++ l') s0))
    by (intros l l'; rewrite run_app; apply run_foundCount_mono).
  split; [rewrite Hinv; apply Z.leb_le|].
  split; [|split; [|split]].
  - intros e Hf Ht. rewrite Hinv in Hf, Ht.
    apply Z.leb_gt in Hf. apply Z.leb_le in Ht.
    assert (Hs := step_foundCount e (run es s0)).
    rewrite run_app in Ht |- *. simpl in Ht |- *. lia.
  - intros e Hlt Hge. rewrite !Hinv.
    split; [apply Z.leb_gt; lia|apply Z.leb_le; lia].
  - intros es' Ht. rewrite Hinv in Ht |- *.
    apply Z.leb_le in Ht. apply Z.leb_le.
    specialize (Hmono es es'). lia.
  - exact (Hmono es).
Qed.

Lemma gameOver_win_condition_witness :
  let gs := map plainGift (range 0 30) in
  let s0 := initGame gs [] initialState in
  let es := map Collect (range 0 29) in
  gameOver (run es s0) = false /\
  gameOver (run (es ++ [Collect 29]) s0) = true /\
  foundCount (run es s0) = 29 /\
  foundCount (run (es ++ [Collect 29]) s0) = 30.
Proof.
  intros gs s0 es.
  assert (Hf : gameOver (run es s0) = false) by (vm_compute; reflexivity).
  assert (Ht : gameOver (run (es ++ [Collect 29]) s0) = true)
    by (vm_compute; reflexivity).
  destruct (gameOver_win_condition gs [] es) as (_ & Hfirst & _).
  destruct (Hfirst (Collect 29) Hf Ht) as [H29 H30].
  now repeat split.
Defined.

End SessionFacts.

(* ================================================================== *)
(** * Properties of the terrain height *)
(* ================================================================== *)

Section TerrainFacts.

Import Terrain.

Local Open Scope R_scope.

(** Comparing a square root with a positive bound. *)
Lemma sqrt_lt_bound (a c : R) :
  0 <= a -> 0 < c -> (sqrt a < c <-> a < c * c).
Proof.
  intros Ha Hc. split; intros H.
  - rewrite <- (sqrt_sqrt a Ha).
    assert (0 <= sqrt a) by apply sqrt_pos. nra.
  - rewrite <- (sqrt_square c) by lra.
    apply sqrt_lt_1_alt. lra.
Qed.

Lemma sum_sq_nonneg (a b : R) : 0 <= a ^ 2 + b ^ 2.
Proof. nra. Qed.

Lemma getTerrainVoxelY_hub : getTerrainVoxelY 0 0 = 0.
Proof.
  unfold getTerrainVoxelY.
  destruct (Rlt_dec _ 16) as [H|_].
  - apply sqrt_lt_bound in H; [lra|apply sum_sq_nonneg|lra].
  - destruct (Rlt_dec _ 5) as [_|H]; [reflexivity|].
    exfalso. apply H. apply sqrt_lt_bound; [apply sum_sq_nonneg|lra|lra].
Qed.

Lemma getTerrainVoxelY_pond : getTerrainVoxelY (-35) 35 = -2.
Proof.
  unfold getTerrainVoxelY.
  destruct (Rlt_dec _ 16) as [_|H]; [reflexivity|].
  exfalso. apply H. apply sqrt_lt_bound; [apply sum_sq_nonneg|lra|lra].
Qed.

(** With real numbers for doubles, the terrain height is the function the
    specification describes, and an integer. *)
Lemma getTerrainVoxelY_idealised :
  (forall x z, getTerrainVoxelY x z = terrainHeight x z) /\
  (forall x z, exists n : Z, getTerrainVoxelY x z = IZR n) /\
  getTerrainVoxelY 0 0 = 0 /\
  getTerrainVoxelY (-35) 35 = -2.
Proof.
  split; [|split; [|split]].
  - intros x z. unfold getTerrainVoxelY, terrainHeight, distance2, Math_floor.
    replace (x - 0) with x by lra. replace (z - 0) with z by lra.
    reflexivity.
  - intros x z. unfold getTerrainVoxelY, Math_floor.
    destruct (Rlt_dec _ 16); [now exists (-2)%Z|].
    destruct (Rlt_dec _ 5); [now exists 0%Z|].
    eexists. reflexivity.
  - exact getTerrainVoxelY_hub.
  - exact getTerrainVoxelY_pond.
Qed.

End TerrainFacts.

(* ================================================================== *)
(** * Properties of the gift placement *)
(* ================================================================== *)

Section GiftFacts.

Variable random : nat -> R.
Hypothesis random_range : forall n, (0 <= random n < 1)%R.

Local Open Scope Z_scope.

Lemma range_length (lo : Z) (n : nat) : List.length (range lo n) = n.
Proof. unfold range. now rewrite length_map, length_seq. Qed.

Lemma range_S (lo : Z) (n : nat) : range lo (S n) = lo :: range (lo + 1) n.
Proof.
  unfold range. simpl. f_equal; [lia|].
  rewrite <- seq_shift, map_map. apply map_ext. intros k. lia.
Qed.

Lemma range_app (lo : Z) (n m : nat) :
  range lo n ++ range (lo + Z.of_nat n) m = range lo (n + m).
Proof.
  revert lo. induction n as [|n IH]; intros lo.
  - simpl. now rewrite Z.add_0_r.
  - change (S n + m)%nat with (S (n + m)). rewrite !range_S. simpl.
    f_equal. rewrite <- IH. do 2 f_equal. lia.
Qed.

(** ** Composition of appending computations *)

Lemma appends_weaken (c : Gen GiftStore unit) (P Q : list Gift -> Prop) :
  (forall new, P new -> Q new) -> appends c P -> appends c Q.
Proof.
  intros HPQ Hc st n. destruct (Hc st n) as (new & n' & E & I & HP).
  exists new, n'. auto.
Qed.

Lemma appends_ret : appends (ret tt) (fun new => new = []).
Proof.
  intros st n. exists [], n. simpl. rewrite app_nil_r.
  rewrite Z.add_0_r.
  destruct st; auto.
Qed.

Lemma appends_seq (c1 c2 : Gen GiftStore unit) (P Q : list Gift -> Prop) :
  appends c1 P -> appends c2 Q ->
  appends (bind c1 (fun _ => c2))
          (fun new => exists a b, new = a ++ b /\ P a /\ Q b).
Proof.
  intros H1 H2 st n.
  destruct (H1 st n) as (a & n1 & E1 & I1 & HP).
  destruct (H2 {| store_gifts := store_gifts st ++ a;
                  idCounter := idCounter st + Z.of_nat (List.length a) |} n1)
    as (b & n2 & E2 & I2 & HQ).
  exists (a ++ b), n2. unfold bind. rewrite E1, E2. simpl in *.
  rewrite length_app, Nat2Z.inj_add, app_assoc, Z.add_assoc.
  split; [reflexivity|]. split.
  - rewrite map_app, I1, I2. apply range_app.
  - now exists a, b.
Qed.

Lemma appends_forEach {A : Type} (l : list A) (body : A -> Gen GiftStore unit)
    (P : A -> list Gift -> Prop) :
  (forall a, In a l -> appends (body a) (P a)) ->
  appends (forEach l body)
          (fun new => exists parts, new = concat parts /\ Forall2 P l parts).
Proof.
  induction l as [|a l IH]; intros Hb.
  - eapply appends_weaken; [|apply appends_ret].
    intros new ->. exists []. split; [reflexivity|constructor].
  - simpl. eapply appends_weaken.
    2: { apply appends_seq; [apply Hb; now left|].
         apply IH. intros a' Ha'. apply Hb. now right. }
    intros new (x & y & -> & HPx & parts & -> & HF).
    exists (x :: parts). split; [reflexivity|now constructor].
Qed.

(** ** The single steps *)

Lemma addGift_appends (x y z : R) (type : option GiftType) :
  appends (addGift random x y z type)
    (fun new => exists g, new = [g] /\ gift_position g = (x, y, z) /\
                          collected g = false /\
                          (forall t, type = Some t -> gift_type g = t)).
Proof.
  intros [gs idc] n. destruct type as [t|].
  - eexists [_], _. split; [reflexivity|].
    split; [cbn; f_equal; lia|].
    eexists. split; [reflexivity|]. simpl. repeat split. now intros ? [= ->].
  - eexists [_], _. split; [reflexivity|].
    split; [cbn; f_equal; lia|].
    eexists. split; [reflexivity|]. simpl. repeat split. discriminate.
Qed.

Lemma appends_random (k : R -> Gen GiftStore unit) (P : list Gift -> Prop) :
  (forall r, (0 <= r < 1)%R -> appends (k r) P) ->
  appends (bind (Math_random random) k) P.
Proof.
  intros Hk st n. unfold bind, Math_random. simpl.
  apply (Hk (random n) (random_range n)).
Qed.

(** Parts that each hold one gift concatenate to one gift per index. *)
Lemma Forall2_singletons {A : Type} (Q : A -> Gift -> Prop) (l : list A)
    (parts : list (list Gift)) :
  Forall2 (fun a new => exists g, new = [g] /\ Q a g) l parts ->
  Forall2 Q l (concat parts).
Proof.
  induction 1 as [|a new l parts (g & -> & HQ) _ IH]; simpl; now constructor.
Qed.

Lemma Forall2_range_nth (Q : Z -> Gift -> Prop) (lo : Z) (n : nat)
    (gs : list Gift) :
  Forall2 Q (range lo n) gs ->
  List.length gs = n /\
  forall k g, nth_error gs k = Some g -> Q (lo + Z.of_nat k) g.
Proof.
  revert lo gs. induction n as [|n IH]; intros lo gs H.
  - inversion H; subst. split; [reflexivity|]. now intros [|k] g.
  - rewrite range_S in H. inversion H as [|a g0 l gs' HQ HF]; subst.
    destruct (IH _ _ HF) as [Hlen Hnth]. split; [simpl; now rewrite Hlen|].
    intros [|k] g; simpl.
    + intros [= <-]. now rewrite Z.add_0_r.
    + intros Hk. replace (lo + Z.of_nat (S k))
        with (lo + 1 + Z.of_nat k) by lia. now apply Hnth.
Qed.

Lemma Forall2_const {A : Type} (Q : Gift -> Prop) (l : list A)
    (gs : list Gift) :
  Forall2 (fun _ g => Q g) l gs ->
  List.length gs = List.length l /\ Forall Q gs.
Proof.
  induction 1 as [|a g l gs HQ _ [IHl IHf]]; simpl; [now split|].
  split; [now rewrite IHl|now constructor].
Qed.

(** ** The tree surface *)

Lemma radiusAtHeight_currentRadius (heightPercent : R) :
  radiusAtHeight heightPercent
  = World.currentRadius (heightPercent * treeHeight)%R.
Proof.
  unfold radiusAtHeight, World.currentRadius, World.treeHeight,
    World.maxRadius, treeHeight, maxRadius.
  replace (heightPercent * 100 / 100)%R with heightPercent by field.
  reflexivity.
Qed.

Lemma currentRadius_positive (h : R) :
  (0.15 <= h <= 0.85)%R -> (0 < World.currentRadius (h * 100) + 1.5)%R.
Proof.
  intros Hh. unfold World.currentRadius, World.treeHeight, World.maxRadius.
  replace (h * 100 / 100)%R with h by field.
  pose proof (SIN_bound (h * 100 * 0.5)) as [Hs _]. lra.
Qed.

Lemma circle_radius (a r : R) :
  (0 <= r)%R -> sqrt ((cos a * r) ^ 2 + (sin a * r) ^ 2)%R = r.
Proof.
  intros Hr.
  replace ((cos a * r) ^ 2 + (sin a * r) ^ 2)%R
    with (((sin a)² + (cos a)²) * (r * r))%R by (unfold Rsqr; ring).
  rewrite sin2_cos2, Rmult_1_l. now apply sqrt_square.
Qed.

Lemma placeOnTree_appends (i : Z) :
  appends (placeOnTree random i)
          (fun new => exists g, new = [g] /\ treeShape i g).
Proof.
  unfold placeOnTree.
  apply appends_random; intros rh Hrh.
  apply appends_random; intros ra Hra.
  eapply appends_weaken; [|apply addGift_appends].
  intros new (g & -> & Hpos & Hcol & Hty). exists g. split; [reflexivity|].
  assert (Hh : (0.15 <= 0.15 + rh * 0.7 <= 0.85)%R) by lra.
  exists (0.15 + rh * 0.7)%R, (ra * PI * 2)%R.
  split; [exact Hh|]. split; [|split; [now apply Hty|exact Hcol]].
  cbv zeta. split.
  - rewrite Hpos, radiusAtHeight_currentRadius. reflexivity.
  - apply circle_radius. pose proof (currentRadius_positive _ Hh). lra.
Qed.

Lemma treeStage_appends :
  appends (forEach (range 0 treeCount) (placeOnTree random))
          (fun new => List.length new = 12%nat /\
                      forall k g, nth_error new k = Some g ->
                                  treeShape (Z.of_nat k) g).
Proof.
  eapply appends_weaken;
    [|apply appends_forEach; intros i _; apply placeOnTree_appends].
  intros new (parts & -> & HF).
  apply Forall2_singletons, Forall2_range_nth in HF. exact HF.
Qed.

(** ** Houses and pond *)

Lemma numInside_bounds (r : R) :
  (0 <= r < 1)%R -> 1 <= 1 + Zfloor (r * 2) <= 2.
Proof.
  intros Hr. pose proof (Zfloor_bound (r * 2)) as [Hlo Hhi].
  assert (H0 : (-1 < Zfloor (r * 2))%Z) by (apply lt_IZR; lra).
  assert (H2 : (Zfloor (r * 2) < 2)%Z) by (apply lt_IZR; lra).
  lia.
Qed.

Lemma placeInHouse_appends (h : House) :
  appends (placeInHouse random h)
          (fun new => (1 <= List.length new <= 2)%nat /\ Forall isStocking new).
Proof.
  unfold placeInHouse.
  apply appends_random; intros rn Hrn.
  eapply appends_weaken.
  2: { apply (appends_forEach _ _ (fun _ new => exists g, new = [g] /\
                                     (fun _ => isStocking) tt g)).
       intros k _.
       apply appends_random; intros r1 _.
       apply appends_random; intros r2 _.
       eapply appends_weaken; [|apply addGift_appends].
       intros new (g & -> & _ & Hcol & Hty). exists g.
       split; [reflexivity|]. split; [now apply Hty|exact Hcol]. }
  intros new (parts & -> & HF).
  apply (Forall2_singletons (fun _ => isStocking)), Forall2_const in HF.
  destruct HF as [Hlen Hall]. rewrite range_length in Hlen.
  pose proof (numInside_bounds rn Hrn). split; [lia|exact Hall].
Qed.

Lemma houseStage_appends :
  appends (forEach houses (placeInHouse random))
          (fun new => (4 <= List.length new <= 8)%nat /\ Forall isStocking new).
Proof.
  eapply appends_weaken;
    [|apply appends_forEach; intros h _; apply placeInHouse_appends].
  intros new (parts & -> & HF). unfold houses in HF.
  repeat match goal with
         | H : Forall2 _ (_ :: _) _ |- _ =>
             inversion H as [|? ? ? ? [? ?] ?]; subst; clear H
         | H : Forall2 _ [] _ |- _ => inversion H; subst; clear H
         end.
  simpl. rewrite app_nil_r, !length_app. split; [lia|].
  repeat (apply Forall_app; split); assumption.
Qed.

Lemma pondStage_appends :
  appends (forEach (range 0 pondCount) (placeOnPond random))
          (fun new => List.length new = 4%nat /\ Forall isCane new).
Proof.
  eapply appends_weaken.
  2: { apply (appends_forEach _ _ (fun _ new => exists g, new = [g] /\
                                     (fun _ => isCane) tt g)).
       intros k _. unfold placeOnPond.
       apply appends_random; intros r1 _.
       apply appends_random; intros r2 _.
       eapply appends_weaken; [|apply addGift_appends].
       intros new (g & -> & _ & Hcol & Hty). exists g.
       split; [reflexivity|]. split; [now apply Hty|exact Hcol]. }
  intros new (parts & -> & HF).
  apply (Forall2_singletons (fun _ => isCane)), Forall2_const in HF.
  now rewrite range_length in HF.
Qed.

(** ** Scatter *)

Lemma sqrt_not_lt (a c : R) : ~ (sqrt a < c)%R -> (c <= sqrt a)%R.
Proof. lra. Qed.

Lemma scatterAttempts_run (left : nat) :
  forall st n, exists new n',
    scatterAttempts random left (st, n) =
      (tt, ({| store_gifts := store_gifts st ++ new;
               idCounter := idCounter st + Z.of_nat (List.length new) |}, n'))
    /\ map gift_id new = range (idCounter st) (List.length new)
    /\ (List.length new <= 1)%nat
    /\ ((exists k, (k < left)%nat /\ accepted random (n + 2 * k)) <->
        List.length new = 1%nat)
    /\ Forall scatterShape new.
Proof.
  induction left as [|left IH]; intros st n.
  - destruct (appends_ret st n) as (new & n' & E & I & ->).
    exists [], n'. split; [exact E|]. split; [exact I|].
    split; [simpl; lia|]. split; [|constructor].
    split; [intros (k & Hk & _); lia|discriminate].
  - cbn [scatterAttempts]. unfold bind at 1 2, Math_random. cbn [fst snd].
    destruct (Rlt_dec _ 6) as [Hrej|Hacc].
    + destruct (IH st (S (S n))) as (new & n' & E & I & L & A & Sh).
      exists new, n'. split; [exact E|]. split; [exact I|].
      split; [exact L|]. split; [|exact Sh].
      split.
      * intros (k & Hk & Hak). apply A. destruct k as [|k].
        -- exfalso. apply Hak. rewrite Nat.mul_0_r, Nat.add_0_r. exact Hrej.
        -- exists k. split; [lia|].
           now replace (S (S n) + 2 * k)%nat with (n + 2 * S k)%nat by lia.
      * intros Hlen. apply A in Hlen. destruct Hlen as (k & Hk & Hak).
        exists (S k). split; [lia|].
        now replace (n + 2 * S k)%nat with (S (S n) + 2 * k)%nat by lia.
    + destruct (addGift_appends
                  ((random n - 0.5) * 160 * VOXEL_SIZE)
                  (Terrain.getTerrainVoxelY ((random n - 0.5) * 160)
                     ((random (S n) - 0.5) * 160) * VOXEL_SIZE + 0.5)
                  ((random (S n) - 0.5) * 160 * VOXEL_SIZE) None st (S (S n)))
        as (new & n' & E & I & g & -> & Hpos & Hcol & _).
      exists [g], n'. split; [exact E|]. split; [exact I|].
      split; [simpl; lia|]. split.
      { split; [reflexivity|]. intros _. exists O. split; [lia|].
        rewrite Nat.mul_0_r, Nat.add_0_r. exact Hacc. }
      constructor; [|constructor].
      exists ((random n - 0.5) * 160)%R, ((random (S n) - 0.5) * 160)%R.
      split; [now apply sqrt_not_lt|]. split; [exact Hpos|exact Hcol].
Qed.

Lemma scatterAttempts_appends :
  appends (scatterAttempts random 50)
          (fun new => (List.length new <= 1)%nat /\
                      (never_exhausts random -> List.length new = 1%nat) /\
                      Forall scatterShape new).
Proof.
  intros st n.
  destruct (scatterAttempts_run 50 st n) as (new & n' & E & I & L & A & S).
  exists new, n'. split; [exact E|]. split; [exact I|].
  split; [exact L|]. split; [|exact S].
  intros Hne. apply A, Hne.
Qed.


(** Parts of at most one gift each. *)
Lemma Forall2_at_most_one {A : Type} (C : Prop) (Q : Gift -> Prop)
    (l : list A) (parts : list (list Gift)) :
  Forall2 (fun _ new => (List.length new <= 1)%nat /\
                        (C -> List.length new = 1%nat) /\ Forall Q new)
          l parts ->
  (List.length (concat parts) <= List.length l)%nat /\
  (C -> List.length (concat parts) = List.length l) /\
  Forall Q (concat parts).
Proof.
  induction 1 as [|a new l parts (L & E & F) _ (IL & IE & IF)]; simpl.
  - split; [lia|]. split; [reflexivity|constructor].
  - rewrite length_app. split; [lia|]. split.
    + intros HC. rewrite (E HC), (IE HC). reflexivity.
    + now apply Forall_app.
Qed.

Lemma scatter_run (st : GiftStore) (n : nat) :
  exists new n',
    scatter random (st, n) =
      (tt, ({| store_gifts := store_gifts st ++ new;
               idCounter := idCounter st + Z.of_nat (List.length new) |}, n'))
    /\ map gift_id new = range (idCounter st) (List.length new)
    /\ Z.of_nat (List.length new)
         <= Z.max 0 (targetInitial - Z.of_nat (List.length (store_gifts st)))
    /\ (never_exhausts random ->
         Z.of_nat (List.length new)
         = Z.max 0 (targetInitial - Z.of_nat (List.length (store_gifts st))))
    /\ Forall scatterShape new.
Proof.
  unfold scatter. unfold bind at 1, get. cbn [fst snd].
  set (remaining :=
         Z.max 0 (targetInitial - Z.of_nat (List.length (store_gifts st)))).
  destruct (appends_forEach (range 0 (Z.to_nat remaining))
              (fun _ => scatterAttempts random 50) _
              (fun _ _ => scatterAttempts_appends) st n)
    as (new & n' & E & I & parts & -> & HF).
  exists (concat parts), n'. split; [exact E|]. split; [exact I|].
  apply Forall2_at_most_one in HF. destruct HF as (L & A & S).
  rewrite range_length in L, A.
  split; [lia|]. split; [|exact S].
  intros Hne. rewrite (A Hne). lia.
Qed.




(** ** The whole generator *)

(** The gifts come in four consecutive groups: tree, houses, pond and
    scatter, whatever is known of each group. *)
Lemma generateGifts_compose (count : Z)
    (PT PH PP : list Gift -> Prop) (PS : list Gift -> list Gift -> Prop) :
  appends (forEach (range 0 treeCount) (placeOnTree random)) PT ->
  appends (forEach houses (placeInHouse random)) PH ->
  appends (forEach (range 0 pondCount) (placeOnPond random)) PP ->
  (forall st n, exists new n',
     scatter random (st, n) =
       (tt, ({| store_gifts := store_gifts st ++ new;
                idCounter := idCounter st + Z.of_nat (List.length new) |}, n'))
     /\ map gift_id new = range (idCounter st) (List.length new)
     /\ PS (store_gifts st) new) ->
  exists tree hs pond sc,
    generateGifts random count = tree ++ hs ++ pond ++ sc /\
    map gift_id (generateGifts random count)
      = range 0 (List.length (generateGifts random count)) /\
    PT tree /\ PH hs /\ PP pond /\ PS ((tree ++ hs) ++ pond) sc.
Proof.
  intros HT HH HP HS.
  destruct (HT {| store_gifts := []; idCounter := 0 |} O)
    as (tree & n1 & E1 & I1 & Ht).
  cbn [store_gifts idCounter app] in E1, I1.
  match type of E1 with _ = (_, (?st, _)) =>
    destruct (HH st n1) as (hs & n2 & E2 & I2 & Hh)
  end.
  cbn [store_gifts idCounter app] in E2, I2.
  match type of E2 with _ = (_, (?st, _)) =>
    destruct (HP st n2) as (pond & n3 & E3 & I3 & Hp)
  end.
  cbn [store_gifts idCounter app] in E3, I3.
  match type of E3 with _ = (_, (?st, _)) =>
    destruct (HS st n3) as (sc & n4 & E4 & I4 & Hs)
  end.
  cbn [store_gifts idCounter app] in E4, I4, Hs.
  assert (Hgen : generateGifts random count = tree ++ hs ++ pond ++ sc).
  { unfold generateGifts, generateGifts_body, bind.
    rewrite E1, E2, E3, E4. cbn [fst snd store_gifts].
    now rewrite <- !app_assoc. }
  exists tree, hs, pond, sc. rewrite Hgen.
  split; [reflexivity|]. split; [|now repeat split].
  rewrite !map_app, I1, I2, I3, I4, !length_app, <- !range_app.
  repeat (f_equal; try lia).
Qed.



(** With the oracle in range, the scatter tops the list up to
    [targetInitial]. *)
Lemma generateGifts_structure (count : Z) :
  exists tree hs pond sc,
    generateGifts random count = tree ++ hs ++ pond ++ sc /\
    map gift_id (generateGifts random count)
      = range 0 (List.length (generateGifts random count)) /\
    (List.length tree = 12%nat /\
     forall k g, nth_error tree k = Some g -> treeShape (Z.of_nat k) g) /\
    ((4 <= List.length hs <= 8)%nat /\ Forall isStocking hs) /\
    (List.length pond = 4%nat /\ Forall isCane pond) /\
    ((16 + List.length hs + List.length sc <= 25)%nat /\
     (never_exhausts random ->
        (16 + List.length hs + List.length sc = 25)%nat) /\
     Forall scatterShape sc).
Proof.
  destruct (generateGifts_compose count _ _ _
              (fun old new =>
                 Z.of_nat (List.length new)
                   <= Z.max 0 (targetInitial - Z.of_nat (List.length old)) /\
                 (never_exhausts random ->
                    Z.of_nat (List.length new)
                    = Z.max 0 (targetInitial - Z.of_nat (List.length old))) /\
                 Forall scatterShape new)
              treeStage_appends houseStage_appends pondStage_appends
              scatter_run)
    as (tree & hs & pond & sc & Hgen & Hid & Ht & Hh & Hp & L4 & A4 & S4).
  exists tree, hs, pond, sc.
  split; [exact Hgen|]. split; [exact Hid|].
  split; [exact Ht|]. split; [exact Hh|]. split; [exact Hp|].
  destruct Ht as [Ht1 _]. destruct Hh as [Hh1 _]. destruct Hp as [Hp1 _].
  rewrite !length_app in L4, A4. unfold targetInitial in L4, A4.
  split; [lia|]. split; [|exact S4].
  intros Hne. specialize (A4 Hne). lia.
Qed.

Lemma generateGifts_length (count : Z) :
  (List.length (generateGifts random count) <= 25)%nat /\
  (never_exhausts random ->
     List.length (generateGifts random count) = 25%nat).
Proof.
  destruct (generateGifts_structure count)
    as (tree & hs & pond & sc & -> & _ & [Ht _] & _ & [Hp _] & L & A & _).
  rewrite !length_app, Ht, Hp. split; [lia|].
  intros Hne. specialize (A Hne). lia.
Qed.

(** ** An oracle that always answers [c] *)

Section Constant.

Variable c : R.
Hypothesis random_const : forall n, random n = c.






End Constant.

(** ** C9 *)

(** C9: the radius used for the tree gifts is the canopy radius of the
    world generator, [32 (1 - y/100) + 1.5 sin(0.5 y)], taken at the height
    [y] of the gift; the first twelve gifts stand at that radius plus 1.5
    around the trunk axis, at a height fraction within [0.15, 0.85] of the
    tree height 100, and their types alternate ornament, star. *)
Theorem tree_gifts_follow_canopy (count : Z) :
  (forall heightPercent,
     radiusAtHeight heightPercent
     = World.currentRadius (heightPercent * 100)%R) /\
  (forall y,
     World.currentRadius y
     = (32 * (1 - y / 100) + sin (y * 0.5) * 1.5)%R) /\
  exists tree rest,
    generateGifts random count = tree ++ rest /\
    List.length tree = 12%nat /\
    forall k g, nth_error tree k = Some g ->
      exists heightFraction angle : R,
        (0.15 <= heightFraction <= 0.85)%R /\
        (let y := heightFraction * 100 in
         let r := World.currentRadius y + 1.5 in
         gift_position g
           = (cos angle * r * 0.25, y * 0.25, sin angle * r * 0.25)
         /\ sqrt ((cos angle * r) ^ 2 + (sin angle * r) ^ 2) = r)%R /\
        gift_type g = (if Nat.even k then ornament else star).
Proof.
  split; [intros hp; apply radiusAtHeight_currentRadius|].
  split; [reflexivity|].
  destruct (generateGifts_structure count)
    as (tree & hs & pond & sc & Hgen & _ & [Hlen Hshape] & _).
  exists tree, (hs ++ pond ++ sc). split; [exact Hgen|]. split; [exact Hlen|].
  intros k g Hk. destruct (Hshape k g Hk) as (h & a & Hh & Hpos & Hty & _).
  exists h, a. split; [exact Hh|]. split; [exact Hpos|].
  rewrite Hty.
  destruct (Nat.even k) eqn:Ek.
  - apply Nat.even_spec in Ek. destruct Ek as [m ->].
    replace (Z.of_nat (2 * m) mod 2) with 0; [reflexivity|].
    rewrite Nat2Z.inj_mul, Z.mul_comm, Z.mod_mul; lia.
  - assert (Ho : Nat.odd k = true) by (now rewrite <- Nat.negb_even, Ek).
    apply Nat.odd_spec in Ho. destruct Ho as [m ->].
    replace (Z.of_nat (2 * m + 1) mod 2) with 1; [reflexivity|].
    rewrite Nat2Z.inj_add, Nat2Z.inj_mul, Z.add_comm, Z.mul_comm.
    rewrite Z.mod_add; [reflexivity|lia].
Qed.

(** ** C10 *)


End GiftFacts.

(* ================================================================== *)
(** * The gift placement under constant oracles *)
(* ================================================================== *)

Section GiftInstances.

Local Open Scope R_scope.

Lemma constStream_0_range : forall n, 0 <= constStream 0 n < 1.
Proof. intros n. unfold constStream. lra. Qed.




Lemma tree_gifts_follow_canopy_witness :
  exists tree rest,
    generateGifts (constStream 0) 30 = tree ++ rest /\
    List.length tree = 12%nat.
Proof.
  destruct (tree_gifts_follow_canopy (constStream 0) constStream_0_range 30)
    as (_ & _ & tree & rest & Hgen & Hlen & _).
  exists tree, rest. split; [exact Hgen|exact Hlen].
Defined.



End GiftInstances.

(* ================================================================== *)
(** * Properties of the snowman placement *)
(* ================================================================== *)

Section SnowmanFacts.

Local Open Scope R_scope.

Lemma falsy_nonzero (x : R) : x <> 0 -> falsy (Some x) = false.
Proof.
  intros Hx. unfold falsy. destruct (Req_dec_T x 0); [contradiction|reflexivity].
Qed.

Section Constant.

Variable random : nat -> R.
Variable c : R.
Hypothesis random_const : forall n, random n = c.

Hypothesis spot_rejected : sqrt (constSpot c ^ 2 + constSpot c ^ 2) < 8.

(** When every sample is rejected the loop ends with the last one. *)
Lemma sampleSpot_rejected (left : nat) :
  forall (xVoxel zVoxel : option R) (sms : list Snowman) (n : nat),
    sampleSpot random (S left) xVoxel zVoxel (sms, n)
    = ((Some (constSpot c), Some (constSpot c), false),
       (sms, (n + 2 * S left)%nat)).
Proof.
  induction left as [|left IH]; intros xVoxel zVoxel sms n.
  - cbn [sampleSpot]. unfold bind, Math_random. cbn [fst snd].
    rewrite !random_const. fold (constSpot c).
    destruct (Rlt_dec _ 8) as [_|H]; [|contradiction].
    unfold ret. do 2 f_equal. lia.
  - remember (S left) as m. cbn [sampleSpot]. unfold bind at 1 2, Math_random.
    cbn [fst snd]. rewrite !random_const. fold (constSpot c).
    destruct (Rlt_dec _ 8) as [_|H]; [|contradiction].
    rewrite IH. do 2 f_equal. lia.
Qed.

(** A snowman whose 20 samples are all rejected is put on the last of
    them, inside the excluded disc, and not on the fallback spot. *)
Lemma placeSnowman_rejected (i : Z) (sms : list Snowman) (n : nat) :
  (i <> 0)%Z -> (i <> 1)%Z -> constSpot c <> 0 ->
  placeSnowman random i (sms, n)
  = (tt, (sms ++ [ {| snowman_id := i;
                      snowman_position :=
                        (constSpot c * VOXEL_SIZE,
                         Terrain.getTerrainVoxelY (constSpot c) (constSpot c)
                           * VOXEL_SIZE,
                         constSpot c * VOXEL_SIZE);
                      snowman_rotation := c * PI * 2;
                      hp := 3;
                      isDead := false |} ], S (n + 40))).
Proof.
  intros H0 H1 Hs. unfold placeSnowman.
  destruct (Z.eqb_spec i 0) as [?|_]; [contradiction|].
  destruct (Z.eqb_spec i 1) as [?|_]; [contradiction|].
  unfold bind at 1. rewrite sampleSpot_rejected.
  rewrite (falsy_nonzero (constSpot c) Hs).
  unfold bind, Math_random, modify. cbn [fst snd].
  now rewrite random_const.
Qed.

Lemma placeSnowman_first (sms : list Snowman) (n : nat) :
  placeSnowman random 0 (sms, n)
  = (tt, (sms ++ [ {| snowman_id := 0;
                      snowman_position :=
                        (15 * VOXEL_SIZE,
                         Terrain.getTerrainVoxelY 15 15 * VOXEL_SIZE,
                         15 * VOXEL_SIZE);
                      snowman_rotation := c * PI * 2;
                      hp := 3;
                      isDead := false |} ], S n)).
Proof.
  unfold placeSnowman. change (0 =? 0)%Z with true.
  unfold bind at 1, ret. cbv beta iota.
  rewrite (falsy_nonzero 15) by lra.
  unfold bind, Math_random, modify. cbn [fst snd].
  now rewrite random_const.
Qed.

Lemma placeSnowman_second (sms : list Snowman) (n : nat) :
  placeSnowman random 1 (sms, n)
  = (tt, (sms ++ [ {| snowman_id := 1;
                      snowman_position :=
                        (-20 * VOXEL_SIZE,
                         Terrain.getTerrainVoxelY (-20) (-10) * VOXEL_SIZE,
                         -10 * VOXEL_SIZE);
                      snowman_rotation := c * PI * 2;
                      hp := 3;
                      isDead := false |} ], S n)).
Proof.
  unfold placeSnowman.
  change (1 =? 0)%Z with false. change (1 =? 1)%Z with true.
  unfold bind at 1, ret. cbv beta iota.
  rewrite (falsy_nonzero (-20)), (falsy_nonzero (-10)) by lra.
  unfold bind, Math_random, modify. cbn [fst snd].
  now rewrite random_const.
Qed.

Lemma generateSnowmen_three_rejected :
  constSpot c <> 0 ->
  generateSnowmen random 3
  = [ mkSnowman 0 (15 * VOXEL_SIZE,
                   Terrain.getTerrainVoxelY 15 15 * VOXEL_SIZE,
                   15 * VOXEL_SIZE) (c * PI * 2) 3 false;
      mkSnowman 1 (-20 * VOXEL_SIZE,
                   Terrain.getTerrainVoxelY (-20) (-10) * VOXEL_SIZE,
                   -10 * VOXEL_SIZE) (c * PI * 2) 3 false;
      mkSnowman 2 (constSpot c * VOXEL_SIZE,
                   Terrain.getTerrainVoxelY (constSpot c) (constSpot c)
                     * VOXEL_SIZE,
                   constSpot c * VOXEL_SIZE) (c * PI * 2) 3 false ].
Proof.
  intros Hs. unfold generateSnowmen.
  change (range 0 (Z.to_nat 3)) with [0%Z; 1%Z; 2%Z].
  cbn [forEach]. unfold bind at 1. rewrite placeSnowman_first.
  unfold bind at 1. rewrite placeSnowman_second.
  unfold bind at 1. rewrite placeSnowman_rejected by (lia || exact Hs).
  reflexivity.
Qed.

End Constant.

(** C7 (the code departs from the claim): after 20 rejected samples no
    fallback coordinate is used.  Under the oracle 0.51 every sample of the
    third snowman is [(1.4, 1.4)], within 8 of the origin; the snowman is
    placed on that sample, on the flat hub, and not at the fallback
    [(10, 10)].  The first two snowmen stand on their fixed spots, and every
    snowman starts with three hit points, alive. *)
Theorem generateSnowmen_no_fallback_after_cap :
  let spot := (0.51 - 0.5) * 2 * 70 in
  sqrt (spot ^ 2 + spot ^ 2) < 8 /\
  spot <> 10 /\
  Terrain.getTerrainVoxelY spot spot = 0 /\
  generateSnowmen (constStream 0.51) 3
  = [ mkSnowman 0 (15 * 0.25, Terrain.getTerrainVoxelY 15 15 * 0.25,
                   15 * 0.25) (0.51 * PI * 2) 3 false;
      mkSnowman 1 (-20 * 0.25, Terrain.getTerrainVoxelY (-20) (-10) * 0.25,
                   -10 * 0.25) (0.51 * PI * 2) 3 false;
      mkSnowman 2 (spot * 0.25, Terrain.getTerrainVoxelY spot spot * 0.25,
                   spot * 0.25) (0.51 * PI * 2) 3 false ].
Proof.
  intros spot.
  assert (Hrej : sqrt (spot ^ 2 + spot ^ 2) < 8).
  { apply sqrt_lt_bound; [apply sum_sq_nonneg|lra|unfold spot; lra]. }
  split; [exact Hrej|]. split; [unfold spot; lra|]. split.
  - unfold Terrain.getTerrainVoxelY.
    destruct (Rlt_dec _ 16) as [H|_].
    + apply sqrt_lt_bound in H; [unfold spot in H; lra|apply sum_sq_nonneg|lra].
    + destruct (Rlt_dec _ 5) as [_|H]; [reflexivity|].
      exfalso. apply H.
      apply sqrt_lt_bound; [apply sum_sq_nonneg|lra|unfold spot; lra].
  - apply (generateSnowmen_three_rejected (constStream 0.51) 0.51
             (fun _ => eq_refl) Hrej).
    unfold constSpot, maxRange. lra.
Qed.

End SnowmanFacts.

(* ================================================================== *)
(** * Properties of the world generator *)
(* ================================================================== *)

Section WorldFacts.

Import World WorldInv.

Variable random : nat -> R.
Hypothesis random_range : forall n, (0 <= random n < 1)%R.

Local Open Scope Z_scope.

(** ** Rules for [safe] *)

Lemma safe_ret {A : Type} (a : A) : safe (ret (U := WorldStore) a).
Proof. intros w n. unfold after, ret. simpl. auto. Qed.

Lemma safe_bind {A B : Type} (c : Gen WorldStore A) (k : A -> Gen WorldStore B) :
  safe c -> (forall a, safe (k a)) -> safe (bind c k).
Proof.
  intros Hc Hk w n. unfold after, bind.
  destruct (c (w, n)) as [a [w1 n1]] eqn:E.
  destruct (Hc w n) as (I1 & W1 & V1). unfold after in I1, W1, V1.
  rewrite E in I1, W1, V1. simpl in I1, W1, V1.
  destruct (Hk a w1 n1) as (I2 & W2 & V2). unfold after in I2, W2, V2.
  split; [congruence|]. split; [congruence|]. auto.
Qed.

Lemma safe_get : safe (get (U := WorldStore)).
Proof. intros w n. unfold after, get. simpl. auto. Qed.

Lemma safe_random_bind {B : Type} (k : R -> Gen WorldStore B) :
  (forall r, (0 <= r < 1)%R -> safe (k r)) ->
  safe (bind (Math_random random) k).
Proof.
  intros Hk w n. unfold after, bind, Math_random. simpl.
  apply (Hk (random n) (random_range n)).
Qed.

Lemma safe_forEach {A : Type} (l : list A) (body : A -> Gen WorldStore unit) :
  (forall a, In a l -> safe (body a)) -> safe (forEach l body).
Proof.
  induction l as [|a l IH]; intros Hb; simpl; [apply safe_ret|].
  apply safe_bind; [apply Hb; now left|].
  intros _. apply IH. intros a' Ha'. apply Hb. now right.
Qed.

Lemma safe_forFold {A S : Type} (l : list A) (s : S)
    (body : A -> S -> Gen WorldStore S) :
  (forall a s', In a l -> safe (body a s')) -> safe (forFold l s body).
Proof.
  revert s. induction l as [|a l IH]; intros s Hb; simpl; [apply safe_ret|].
  apply safe_bind; [apply Hb; now left|].
  intros s'. apply IH. intros a' s'' Ha'. apply Hb. now right.
Qed.

Lemma safe_orElse (a : bool) (c : Gen WorldStore bool) :
  safe c -> safe (orElse a c).
Proof. intros Hc. destruct a; [apply safe_ret|exact Hc]. Qed.

(** An update that touches none of the voxel arrays nor the occupancy. *)
Lemma safe_modify (f : WorldStore -> WorldStore) :
  (forall w, regularVoxels (f w) = regularVoxels w /\
             glowingVoxels (f w) = glowingVoxels w /\
             interactiveIce (f w) = interactiveIce w /\
             waterVoxels (f w) = waterVoxels w /\
             occupied (f w) = occupied w) ->
  safe (modify f).
Proof.
  intros Hf w n. unfold after, modify. simpl.
  destruct (Hf w) as (Hr & Hg & Hi & Hw & Ho).
  split; [exact Hi|]. split; [exact Hw|].
  intros [N O F P D]. unfold placedVoxels, pondVoxels in *.
  constructor; unfold placedVoxels, pondVoxels; rewrite ?Hr, ?Hg, ?Hi, ?Hw, ?Ho;
    assumption.
Qed.

(** ** The occupancy-checked insertion *)

Lemma keys_push_left (a b : list VoxelData) (v : VoxelData) :
  Permutation (map key ((a ++ [v]) ++ b)) (key v :: map key (a ++ b)).
Proof.
  rewrite <- app_assoc. simpl.
  change (key v :: map key (a ++ b)) with (map key (v :: a ++ b)).
  apply Permutation_map, Permutation_sym, Permutation_middle.
Qed.

Lemma keys_push_right (a b : list VoxelData) (v : VoxelData) :
  Permutation (map key (a ++ (b ++ [v]))) (key v :: map key (a ++ b)).
Proof.
  rewrite app_assoc.
  change (key v :: map key (a ++ b)) with (map key (v :: (a ++ b))).
  apply Permutation_map, Permutation_sym, Permutation_cons_append.
Qed.

Lemma Inv_placed (w w' : WorldStore) (v : VoxelData) :
  Inv w ->
  key v ∉ occupied w -> ~ reserved (key v) ->
  occupied w' = {[ key v ]} ∪ occupied w ->
  Permutation (map key (placedVoxels w')) (key v :: map key (placedVoxels w)) ->
  pondVoxels w' = pondVoxels w ->
  Inv w'.
Proof.
  intros [N O F P D] Hfresh Hfree Hocc Hperm Hpond.
  constructor.
  - rewrite Hperm. apply NoDup_cons. split; [|exact N].
    rewrite list_elem_of_In. intros Hin. apply Hfresh, O, Hin.
  - intros k. rewrite Hocc, elem_of_union, elem_of_singleton. split.
    + intros [->|Hk].
      * apply (Permutation_in _ (Permutation_sym Hperm)). now left.
      * apply (Permutation_in _ (Permutation_sym Hperm)). right. now apply O.
    + intros Hin. apply (Permutation_in _ Hperm) in Hin.
      destruct Hin as [<-|Hin]; [now left|right; now apply O].
  - intros k. rewrite Hocc, elem_of_union, elem_of_singleton.
    intros [->|Hk]; [exact Hfree|now apply F].
  - rewrite Hpond. exact P.
  - rewrite Hpond. exact D.
Qed.

Lemma safe_add (x y z : R) (color : Z) (isGlowing : bool) :
  ~ reserved (Math_round x, Math_round y, Math_round z) ->
  safe (add x y z color isGlowing).
Proof.
  intros Hfree w n. unfold after, add, bind, get. cbn [fst snd].
  destruct (decide _) as [Hin|Hout]; [simpl; auto|].
  destruct isGlowing; unfold modify; cbn [fst snd];
    (split; [reflexivity|]); (split; [reflexivity|]); intros HI.
  - eapply (Inv_placed w _ (mkVoxel (Math_round x) (Math_round y)
                                    (Math_round z) color) HI Hout Hfree);
      [reflexivity| |reflexivity].
    unfold placedVoxels. simpl. apply keys_push_right.
  - eapply (Inv_placed w _ (mkVoxel (Math_round x) (Math_round y)
                                    (Math_round z) color) HI Hout Hfree);
      [reflexivity| |reflexivity].
    unfold placedVoxels. simpl. apply keys_push_left.
Qed.

Lemma Math_round_nonneg (y : R) : (0 <= y)%R -> 0 <= Math_round y.
Proof.
  intros Hy. unfold Math_round. apply Zfloor_lub. simpl. lra.
Qed.

Lemma Math_round_IZR (k : Z) : Math_round (IZR k) = k.
Proof.
  unfold Math_round. apply Zfloor_eq. lra.
Qed.

(** Insertions at or above the ground never touch a reserved cell. *)
Lemma safe_add_above (x y z : R) (color : Z) (isGlowing : bool) :
  (0 <= y)%R -> safe (add x y z color isGlowing).
Proof.
  intros Hy. apply safe_add. unfold reserved, pondIceY, pondWaterY.
  pose proof (Math_round_nonneg y Hy). intros [[?|?] _]; lia.
Qed.

Lemma In_stepsR_le (lo hi step v : R) :
  (0 <= step)%R -> In v (stepsR_le lo hi step) -> (lo <= v)%R.
Proof.
  intros Hs Hin. unfold stepsR_le in Hin. apply in_map_iff in Hin.
  destruct Hin as (k & <- & _). pose proof (pos_INR k). nra.
Qed.

Lemma In_stepsR_lt (lo hi step v : R) :
  (0 <= step)%R -> In v (stepsR_lt lo hi step) -> (lo <= v)%R.
Proof.
  intros Hs Hin. unfold stepsR_lt in Hin. apply in_map_iff in Hin.
  destruct Hin as (k & <- & _). pose proof (pos_INR k). nra.
Qed.

Lemma In_range (lo : Z) (n : nat) (i : Z) :
  In i (range lo n) <-> lo <= i < lo + Z.of_nat n.
Proof.
  unfold range. rewrite in_map_iff. split.
  - intros (k & <- & Hk). apply in_seq in Hk. lia.
  - intros Hi. exists (Z.to_nat (i - lo)). split; [lia|].
    apply in_seq. lia.
Qed.

(** ** The stages that build above the ground *)

Lemma safe_push_lamp (p : Point3) : safe (modify (push_lamp p)).
Proof. apply safe_modify. intros w. now repeat split. Qed.

Lemma safe_push_door (d : DoorData) : safe (modify (push_door d)).
Proof. apply safe_modify. intros w. now repeat split. Qed.

Lemma safe_set_path (k : Z * Z) (h : Z) : safe (modify (set_path k h)).
Proof. apply safe_modify. intros w. now repeat split. Qed.

(** One structural step in a proof of [safe]. *)
Ltac safe_step :=
  lazymatch goal with
  | |- safe (ret _) => apply safe_ret
  | |- safe (bind (Math_random _) _) =>
      apply safe_random_bind; let r := fresh "r" in
      let Hr := fresh "Hr" in intros r Hr
  | |- safe (bind _ _) => apply safe_bind; [|intros ?]
  | |- safe (orElse _ _) => apply safe_orElse
  | |- safe (forEach _ _) =>
      apply safe_forEach; let a := fresh "a" in
      let Ha := fresh "Ha" in intros a Ha
  | |- safe (forFold _ _ _) =>
      apply safe_forFold; let a := fresh "a" in
      let Ha := fresh "Ha" in intros a ? Ha
  | |- safe (modify (push_lamp _)) => apply safe_push_lamp
  | |- safe (modify (push_door _)) => apply safe_push_door
  | |- safe (modify (set_path _ _)) => apply safe_set_path
  | |- safe (if ?b then _ else _) => destruct b
  | |- safe (let '(_, _) := ?p in _) => destruct p
  | |- safe (add _ _ _ _ _) => apply safe_add_above
  end.

Lemma safe_buildLamp (x y z : R) : (0 <= y)%R -> safe (buildLamp x y z).
Proof.
  intros Hy. unfold buildLamp. cbv zeta.
  repeat safe_step; try lra.
  apply In_range in Ha. assert (0 <= IZR a)%R by (apply IZR_le; lia). lra.
Qed.

Lemma safe_createPath (x1 z1 x2 z2 widthOverride : R) :
  safe (createPath random x1 z1 x2 z2 widthOverride).
Proof.
  unfold createPath. cbv zeta.
  repeat safe_step. apply safe_buildLamp. lra.
Qed.

Lemma safe_houseCell (cx cz width depth height rotation y x z : R)
    (doorRecorded : bool) :
  (0 <= y)%R ->
  safe (houseCell random cx cz width depth height rotation y x z doorRecorded).
Proof.
  intros Hy. unfold houseCell. cbv zeta.
  repeat safe_step; lra.
Qed.

Lemma safe_chimneyCell (cx cz width height rotation y : R) (cx_ cz_ : Z) :
  (0 <= y)%R ->
  safe (chimneyCell random cx cz width height rotation y cx_ cz_).
Proof.
  intros Hy. unfold chimneyCell. cbv zeta.
  repeat safe_step; nra.
Qed.

Lemma safe_buildHouse (cx cz width depth height rotation : R) :
  (0 <= height)%R ->
  safe (buildHouse random cx cz width depth height rotation).
Proof.
  intros Hh. unfold buildHouse.
  apply safe_bind; [|intros _].
  - do 3 safe_step. apply safe_houseCell.
    apply In_stepsR_lt in Ha; lra.
  - do 3 safe_step. apply safe_chimneyCell.
    apply In_stepsR_lt in Ha; lra.
Qed.

Lemma safe_paths :
  safe (bind (forEach buildings (buildingPaths random))
             (fun _ => ringPaths random)).
Proof.
  apply safe_bind; [|intros _].
  - safe_step. unfold buildingPaths. cbv zeta.
    repeat safe_step; apply safe_createPath.
  - unfold ringPaths. repeat safe_step; apply safe_createPath.
Qed.

Lemma safe_houses :
  safe (forEach buildings (fun b =>
          buildHouse random (b_x b) (b_z b) (b_w b) (b_d b) (b_h b) (b_r b))).
Proof.
  safe_step. apply safe_buildHouse.
  unfold buildings in Ha. simpl in Ha.
  destruct Ha as [<-|[<-|[<-|[<-|[]]]]]; simpl; lra.
Qed.

Lemma safe_trunk : safe trunk.
Proof.
  unfold trunk. cbv zeta. repeat safe_step.
  apply In_stepsR_lt in Ha; unfold treeBaseY; lra.
Qed.

Lemma safe_canopyCell (y x z : R) : (0 <= y)%R -> safe (canopyCell random y x z).
Proof.
  intros Hy. unfold canopyCell. cbv zeta.
  repeat safe_step; unfold treeBaseY; lra.
Qed.

Lemma safe_canopy : safe (canopy random).
Proof.
  unfold canopy. cbv zeta. do 3 safe_step.
  apply safe_canopyCell. apply In_stepsR_lt in Ha; lra.
Qed.

Lemma safe_starTop : safe starTop.
Proof.
  unfold starTop. cbv zeta. apply safe_bind; [|intros _].
  - repeat safe_step.
    match goal with H : In _ (range (-2) 5) |- (0 <= _ + IZR ?a)%R =>
      apply In_range in H; assert (-2 <= IZR a)%R by (apply IZR_le; lia)
    end.
    unfold treeBaseY, treeHeight. lra.
  - safe_step. destruct a as [[d0 d1] d2]. safe_step. apply safe_add_above.
    apply In_range in Ha0.
    assert (Hd : -1 <= d1 <= 1).
    { unfold directions in Ha. simpl in Ha.
      repeat (destruct Ha as [[= <- <- <-]|Ha]; [lia|]). destruct Ha. }
    assert (Hi : 2 <= a <= 8) by (destruct (1 <? _); simpl in Ha0; lia).
    assert (-8 <= IZR (d1 * a))%R by (apply IZR_le; nia).
    unfold treeBaseY, treeHeight. lra.
Qed.

(** ** Rules for [hoare] *)

Lemma hoare_weaken {A : Type} (P P' Q Q' : WorldStore -> Prop)
    (c : Gen WorldStore A) :
  (forall w, P' w -> P w) -> (forall w, Q w -> Q' w) ->
  hoare P c Q -> hoare P' c Q'.
Proof. intros HP HQ Hc w n Hw. apply HQ, Hc, HP, Hw. Qed.

Lemma hoare_ret {A : Type} (P : WorldStore -> Prop) (a : A) :
  hoare P (ret a) P.
Proof. intros w n Hw. exact Hw. Qed.

(** Sequencing, with what is known of the intermediate value. *)
Lemma hoare_bind {A B : Type} (P Q T : WorldStore -> Prop) (V : A -> Prop)
    (c : Gen WorldStore A) (k : A -> Gen WorldStore B) :
  (forall w n, P w -> V (fst (c (w, n))) /\ Q (after c w n)) ->
  (forall a, V a -> hoare Q (k a) T) ->
  hoare P (bind c k) T.
Proof.
  intros Hc Hk w n Hw. unfold after, bind.
  destruct (Hc w n Hw) as [Hv Hq]. unfold after in Hq.
  destruct (c (w, n)) as [a [w1 n1]]. simpl in Hv, Hq.
  apply (Hk a Hv w1 n1 Hq).
Qed.

Lemma hoare_forEach_range (J : Z -> WorldStore -> Prop) (lo : Z) (n : nat)
    (body : Z -> Gen WorldStore unit) :
  (forall i, lo <= i < lo + Z.of_nat n -> hoare (J i) (body i) (J (i + 1))) ->
  hoare (J lo) (forEach (range lo n) body) (J (lo + Z.of_nat n)).
Proof.
  revert lo. induction n as [|n IH]; intros lo Hb.
  - simpl. rewrite Z.add_0_r. apply hoare_ret.
  - rewrite range_S. simpl forEach.
    apply (hoare_bind _ (J (lo + 1)) _ (fun _ => True)).
    + intros w m Hw. split; [exact I|]. apply Hb; [lia|exact Hw].
    + intros _ _. replace (lo + Z.of_nat (S n)) with (lo + 1 + Z.of_nat n) by lia.
      apply IH. intros i Hi. apply Hb. lia.
Qed.

(** A safe computation keeps every terrain invariant. *)
Lemma safe_terrainInv {A : Type} (x z y : Z) (c : Gen WorldStore A) :
  safe c -> hoare (terrainInv x z y) c (terrainInv x z y).
Proof.
  intros Hc w n (HI & HP & HC). destruct (Hc w n) as (Ei & Ew & Hinv).
  unfold terrainInv, pondVoxels. rewrite Ei, Ew. auto.
Qed.

Lemma terrainInv_next (x z y : Z) (w : WorldStore) :
  ~ (x = -35 /\ z = 35 /\ y = -2) ->
  terrainInv x z y w -> terrainInv x z (y + 1) w.
Proof.
  intros Hne (HI & HP & HC). split; [exact HI|]. split.
  - intros v Hv. specialize (HP v Hv). lia.
  - intros Hpast. apply HC. unfold past_centre in *. lia.
Qed.

(** ** The terrain columns *)

Lemma In_push_left (a b : list VoxelData) (v u : VoxelData) :
  In u ((a ++ [v]) ++ b) <-> u = v \/ In u (a ++ b).
Proof. rewrite !in_app_iff. simpl. intuition auto. Qed.

Lemma In_push_right (a b : list VoxelData) (v u : VoxelData) :
  In u (a ++ (b ++ [v])) <-> u = v \/ In u (a ++ b).
Proof. rewrite !in_app_iff. simpl. intuition auto. Qed.

(** Pushing a pond voxel into the cell [(x, y, z)] that the loops have
    reached. *)
Lemma push_pond_terrainInv (x z y : Z) (color : Z) (w w' : WorldStore) :
  let v := mkVoxel x y z color in
  insidePond x z -> (y = pondIceY \/ y = pondWaterY) ->
  placedVoxels w' = placedVoxels w -> occupied w' = occupied w ->
  Permutation (map key (pondVoxels w')) (key v :: map key (pondVoxels w)) ->
  (forall u, In u (pondVoxels w') <-> u = v \/ In u (pondVoxels w)) ->
  (forall u, In u (interactiveIce w) -> In u (interactiveIce w')) ->
  (x = -35 /\ z = 35 /\ y = -2 -> In centreIce (interactiveIce w')) ->
  terrainInv x z y w -> terrainInv x z (y + 1) w'.
Proof.
  intros v Hin Hy Hpl Hoc Hperm Hmem Hmono Hnew (HI & HP & HC).
  destruct HI as [N O F P D].
  split; [constructor|split].
  - now rewrite Hpl.
  - intros k. now rewrite Hoc, Hpl.
  - intros k. rewrite Hoc. apply F.
  - intros u Hu. apply Hmem in Hu. destruct Hu as [->|Hu]; [|now apply P].
    unfold reserved, key, v. simpl. split; [exact Hy|exact Hin].
  - rewrite Hperm. apply NoDup_cons. split; [|exact D].
    rewrite list_elem_of_In, in_map_iff. intros (u & Hk & Hu).
    specialize (HP u Hu). unfold key, v in Hk. simpl in Hk.
    injection Hk as Hx Hy' Hz. lia.
  - intros u Hu. apply Hmem in Hu. destruct Hu as [->|Hu].
    + simpl. lia.
    + specialize (HP u Hu). lia.
  - intros Hpast.
    assert (Hcase : past_centre x z y \/ (x = -35 /\ z = 35 /\ y = -2))
      by (unfold past_centre in *; lia).
    destruct Hcase as [Hold|Hcell]; [apply Hmono, HC, Hold|now apply Hnew].
Qed.

Lemma columnCell_ice (x z : Z) (isPath : bool)
    (surfaceY bottomY surfaceColor y : Z) :
  insidePond x z ->
  hoare (terrainInv x z y)
        (columnCell random x z true isPath surfaceY bottomY surfaceColor y)
        (terrainInv x z (y + 1)).
Proof.
  intros Hin. unfold columnCell. cbv zeta.
  unfold pondIceY, pondWaterY.
  destruct (Z.eqb_spec y (-2)) as [->|Hice].
  { intros w n Hw. unfold after, modify. cbn [fst snd].
    apply (push_pond_terrainInv x z (-2) PALETTE.ICE w); auto.
    - unfold pondVoxels. simpl. apply keys_push_left.
    - intros u. unfold pondVoxels. simpl. apply In_push_left.
    - intros u Hu. simpl. apply in_app_iff. now left.
    - intros (-> & -> & _). simpl. apply in_app_iff. right. now left. }
  destruct ((y <? -2) && (-6 <? y)) eqn:Egap.
  { eapply hoare_weaken; [| |apply hoare_ret]; [intros w Hw; exact Hw|].
    intros w. apply terrainInv_next. lia. }
  destruct (Z.eqb_spec y (-6)) as [->|Hwater].
  { intros w n Hw. unfold after, modify. cbn [fst snd].
    apply (push_pond_terrainInv x z (-6) PALETTE.WATER w); auto.
    - unfold pondVoxels. simpl. apply keys_push_right.
    - intros u. unfold pondVoxels. simpl. apply In_push_right.
    - lia. }
  apply (hoare_weaken (terrainInv x z y) _ (terrainInv x z y));
    [auto|intros w; apply terrainInv_next; lia|].
  apply safe_terrainInv.
  destruct (Z.ltb_spec y (-6)) as [Hlow|_]; [|apply safe_ret].
  assert (Hfree : ~ reserved (Math_round (IZR x), Math_round (IZR y),
                              Math_round (IZR z))).
  { rewrite !Math_round_IZR. unfold reserved, pondIceY, pondWaterY.
    intros [[?|?] _]; lia. }
  destruct (y =? _); [apply safe_add, Hfree|].
  destruct (_ <? 2); [apply safe_add, Hfree|apply safe_ret].
Qed.

Lemma columnCell_plain (x z : Z) (isPath : bool)
    (surfaceY bottomY surfaceColor y : Z) :
  ~ insidePond x z ->
  safe (columnCell random x z false isPath surfaceY bottomY surfaceColor y).
Proof.
  intros Hout. unfold columnCell. cbv zeta.
  assert (Hfree : ~ reserved (Math_round (IZR x), Math_round (IZR y),
                              Math_round (IZR z))).
  { rewrite !Math_round_IZR. unfold reserved. intros [_ Hin]. now apply Hout. }
  destruct (_ || _); [|apply safe_ret].
  apply safe_bind; [repeat safe_step|intros color; apply safe_add, Hfree].
Qed.

Lemma insidePond_centre : insidePond (-35) 35.
Proof.
  unfold insidePond, pondCenter_x, pondCenter_z, pondRadius.
  apply sqrt_lt_bound; [apply sum_sq_nonneg|lra|lra].
Qed.

Lemma insidePond_isPond (x z : Z) :
  insidePond x z ->
  Rltb (sqrt ((IZR x - pondCenter_x) ^ 2 + (IZR z - pondCenter_z) ^ 2))
       pondRadius = true.
Proof.
  unfold insidePond, Rltb, pondRadius. intros H.
  destruct (Rlt_dec _ 18); [reflexivity|lra].
Qed.

Lemma centre_in_world :
  ~ (IZR WORLD_RADIUS < sqrt (IZR (-35) * IZR (-35) + IZR 35 * IZR 35))%R.
Proof.
  unfold WORLD_RADIUS. intros H.
  assert (Hlt : (sqrt (IZR (-35) * IZR (-35) + IZR 35 * IZR 35) < 90)%R)
    by (apply sqrt_lt_bound; lra).
  lra.
Qed.

Lemma bottomY_below (surfaceY : Z) (t : R) :
  Zfloor (IZR surfaceY - Rmax 5 t) <= surfaceY - 5.
Proof.
  rewrite <- (ZfloorZ (surfaceY - 5)). apply Zfloor_le.
  rewrite minus_IZR. pose proof (Rmax_l 5 t). lra.
Qed.

Lemma terrainColumn_step (x z : Z) :
  hoare (columnInv x z) (terrainColumn random x z) (columnInv x (z + 1)).
Proof.
  unfold terrainColumn. cbv zeta.
  destruct (Rlt_dec _ _) as [Hskip|_].
  { eapply hoare_weaken; [| |apply hoare_ret]; [intros w Hw; exact Hw|].
    intros w (HI & HP & HC). split; [exact HI|]. split.
    - intros v Hv. specialize (HP v Hv). lia.
    - intros Hpast. apply HC.
      destruct (Z.eq_dec x (-35)) as [->|Hx]; [|lia].
      destruct (Z.eq_dec z 35) as [->|Hz]; [|lia].
      exfalso. now apply centre_in_world. }
  apply (hoare_bind _ (columnInv x z) _ (fun _ => True)).
  { intros w n Hw. split; [exact I|exact Hw]. }
  intros w0 _.
  apply (hoare_bind _ (columnInv x z) _
           (fun surface : Z * Z * bool =>
              let '(surfaceY, _, isIceSurface) := surface in
              (isIceSurface = true -> insidePond x z /\ surfaceY = -2) /\
              (isIceSurface = false -> ~ insidePond x z) /\
              (x = -35 /\ z = 35 -> isIceSurface = true))).
  { intros w n Hw. unfold after.
    destruct (Rltb _ pondRadius) eqn:Epond.
    - destruct (Rlt_dec _ (pondRadius - 2)) as [Hin|Hout]; cbn.
      + split; [|exact Hw]. repeat split; auto; discriminate.
      + split; [|exact Hw]. repeat split; try discriminate; auto.
        intros [-> ->]. exfalso. apply Hout, insidePond_centre.
    - assert (Hout : ~ insidePond x z).
      { intros Hin. apply insidePond_isPond in Hin. congruence. }
      assert (Hc : x = -35 /\ z = 35 -> false = true).
      { intros [-> ->]. exfalso. apply Hout, insidePond_centre. }
      destruct (decide _); cbn; (split; [|exact Hw]);
        repeat split; try discriminate; auto. }
  intros [[surfaceY surfaceColor] isIceSurface] (Hice & Hplain & Hcentre).
  match goal with
  | |- hoare _ (forEach (range ?b _) _) _ => set (bottomY := b)
  end.
  assert (Hb : bottomY <= surfaceY - 5) by apply bottomY_below.
  eapply hoare_weaken; [| |apply (hoare_forEach_range (terrainInv x z))].
  - intros w (HI & HP & HC). split; [exact HI|]. split.
    + intros v Hv. specialize (HP v Hv). lia.
    + intros Hpast. apply HC. unfold past_centre in Hpast.
      destruct (Z.eq_dec x (-35)) as [->|Hx]; [|lia].
      destruct (Z.eq_dec z 35) as [->|Hz]; [|lia].
      destruct (Hice (Hcentre (conj eq_refl eq_refl))) as [_ ->]. lia.
  - intros w (HI & HP & HC). split; [exact HI|]. split.
    + intros v Hv. specialize (HP v Hv). lia.
    + intros Hpast. apply HC. unfold past_centre.
      destruct (Z.eq_dec x (-35)) as [->|Hx]; [|lia].
      destruct (Z.eq_dec z 35) as [->|Hz]; [|lia].
      destruct (Hice (Hcentre (conj eq_refl eq_refl))) as [_ ->]. lia.
  - intros y Hy. destruct isIceSurface.
    + apply columnCell_ice. now apply Hice.
    + apply (hoare_weaken (terrainInv x z y) _ (terrainInv x z y)); [auto| |].
      * intros w. apply terrainInv_next. intros (-> & -> & _).
        specialize (Hcentre (conj eq_refl eq_refl)). discriminate.
      * apply safe_terrainInv, columnCell_plain. now apply Hplain.
Qed.

Lemma terrainRow_step (x : Z) :
  hoare (rowInv x)
        (forEach (range (- WORLD_RADIUS) (Z.to_nat (2 * WORLD_RADIUS + 1)))
                 (fun z => terrainColumn random x z))
        (rowInv (x + 1)).
Proof.
  eapply hoare_weaken; [| |apply (hoare_forEach_range (columnInv x))].
  - intros w (HI & HP & HC). split; [exact HI|]. split.
    + intros v Hv. specialize (HP v Hv). lia.
    + intros Hpast. apply HC. unfold WORLD_RADIUS in Hpast. lia.
  - intros w (HI & HP & HC). split; [exact HI|]. split.
    + intros v Hv. specialize (HP v Hv). lia.
    + intros Hpast. apply HC. unfold WORLD_RADIUS. lia.
  - intros z _. apply terrainColumn_step.
Qed.

Lemma terrain_rows :
  hoare (rowInv (- WORLD_RADIUS)) (terrain random)
        (rowInv (- WORLD_RADIUS + Z.of_nat (Z.to_nat (2 * WORLD_RADIUS + 1)))).
Proof.
  unfold terrain. apply (hoare_forEach_range rowInv).
  intros x _. apply terrainRow_step.
Qed.

Lemma terrain_start_end : hoare startInv (terrain random) endInv.
Proof.
  eapply hoare_weaken; [| |apply terrain_rows].
  - intros w (HI & Hi & Hw). split; [exact HI|]. split.
    + intros v Hv. unfold pondVoxels in Hv. rewrite Hi, Hw in Hv. destruct Hv.
    + unfold WORLD_RADIUS. lia.
  - intros w (HI & _ & HC). split; [exact HI|]. apply HC.
    unfold WORLD_RADIUS. lia.
Qed.

Lemma safe_startInv {A : Type} (c : Gen WorldStore A) :
  safe c -> hoare startInv c startInv.
Proof.
  intros Hc w n (HI & Hi & Hw). destruct (Hc w n) as (Ei & Ew & Hinv).
  unfold startInv. rewrite Ei, Ew. auto.
Qed.

Lemma safe_endInv {A : Type} (c : Gen WorldStore A) :
  safe c -> hoare endInv c endInv.
Proof.
  intros Hc w n (HI & Hin). destruct (Hc w n) as (Ei & Ew & Hinv).
  unfold endInv. rewrite Ei. auto.
Qed.

Lemma hoare_seq {A B : Type} (P Q T : WorldStore -> Prop)
    (c : Gen WorldStore A) (k : Gen WorldStore B) :
  hoare P c Q -> hoare Q k T -> hoare P (bind c (fun _ => k)) T.
Proof.
  intros Hc Hk. apply (hoare_bind P Q T (fun _ => True)).
  - intros w n Hw. split; [exact I|now apply Hc].
  - intros _ _. exact Hk.
Qed.

Lemma Inv_emptyWorld : startInv emptyWorld.
Proof.
  split; [|now split]. constructor; simpl.
  - apply NoDup_nil_2.
  - intros k. split; [|intros []]. intros Hk. now apply elem_of_empty in Hk.
  - intros k Hk. now apply elem_of_empty in Hk.
  - intros v [].
  - apply NoDup_nil_2.
Qed.

Lemma generateWorld_endInv : endInv (generateWorld random).
Proof.
  unfold generateWorld.
  change (fst (snd (generateWorld_body random (emptyWorld, O))))
    with (after (generateWorld_body random) emptyWorld O).
  assert (H : hoare startInv (generateWorld_body random) endInv);
    [|exact (H emptyWorld O Inv_emptyWorld)].
  unfold generateWorld_body.
  apply (hoare_seq _ startInv).
  { apply safe_startInv. safe_step. unfold buildingPaths. cbv zeta.
    repeat safe_step; apply safe_createPath. }
  apply (hoare_seq _ startInv).
  { apply safe_startInv. unfold ringPaths.
    repeat safe_step; apply safe_createPath. }
  apply (hoare_seq _ startInv); [apply safe_startInv, safe_houses|].
  apply (hoare_seq _ endInv); [apply terrain_start_end|].
  apply (hoare_seq _ endInv); [apply safe_endInv, safe_trunk|].
  apply (hoare_seq _ endInv); [apply safe_endInv, safe_canopy|].
  apply safe_endInv, safe_starTop.
Qed.

(** The cells of the store are pairwise distinct as soon as the placed and
    the pond voxels are kept apart. *)
Lemma Inv_all_distinct (w : WorldStore) :
  Inv w -> NoDup (map key (allVoxels w)).
Proof.
  intros [N O F P D]. unfold allVoxels.
  change (regularVoxels w ++ glowingVoxels w ++ interactiveIce w
            ++ waterVoxels w)
    with (regularVoxels w ++ glowingVoxels w ++ pondVoxels w).
  rewrite app_assoc. fold (placedVoxels w). rewrite map_app.
  apply NoDup_app. split; [exact N|]. split; [|exact D].
  intros k Hk Hk'. rewrite list_elem_of_In in Hk, Hk'.
  apply in_map_iff in Hk'. destruct Hk' as (v & <- & Hv).
  apply (F (key v)); [now apply O|now apply P].
Qed.

(** Whatever [add] is given, the cell it rounds to is occupied when it
    returns. *)
Lemma add_occupies (x y z : R) (color : Z) (isGlowing : bool)
    (w : WorldStore) (n : nat) :
  (Math_round x, Math_round y, Math_round z)
    ∈ occupied (after (add x y z color isGlowing) w n).
Proof.
  unfold after, add, bind, get. cbn [fst snd].
  destruct (decide _) as [Hin|Hout]; [exact Hin|].
  destruct isGlowing; unfold modify; cbn [fst snd]; simpl;
    apply elem_of_union; left; now apply elem_of_singleton.
Qed.

(** ** C8 *)

(** C8 (as amended): no two voxels of the regular, glowing, ice and water
    arrays of [generateWorld] share a lattice cell.  The regular and glowing
    voxels all went through the occupancy-checked [add], so their cells are
    exactly the occupied ones; the ice and water voxels are pushed without
    that check and their cells are never marked occupied: they are distinct
    because each pond column pushes one of each, at the elevations -2 and
    -6, where [add] places nothing inside the pond. *)
Theorem generateWorld_voxels_distinct :
  let w := generateWorld random in
  NoDup (map key (allVoxels w)) /\
  (forall v, In v (regularVoxels w ++ glowingVoxels w) ->
     key v ∈ occupied w) /\
  (forall k, k ∈ occupied w ->
     exists v, In v (regularVoxels w ++ glowingVoxels w) /\ key v = k) /\
  (forall v, In v (interactiveIce w ++ waterVoxels w) ->
     (key v ∉ occupied w) /\
     (voxel_y v = -2 \/ voxel_y v = -6)).
Proof.
  intros w. destruct generateWorld_endInv as [HI _]. fold w in HI.
  split; [now apply Inv_all_distinct|].
  destruct HI as [N O F P D]. split; [|split].
  - intros v Hv. apply O, in_map, Hv.
  - intros k Hk. apply O, in_map_iff in Hk. destruct Hk as (v & E & Hv).
    now exists v.
  - intros v Hv. specialize (P v Hv). split.
    + intros Hocc. now apply (F (key v)).
    + destruct v as [x y z c]. exact (proj1 P).
Qed.

End WorldFacts.

(* ================================================================== *)
(** * The world generator under a constant oracle *)
(* ================================================================== *)

Section WorldInstances.

Import World WorldInv.

Lemma generateWorld_voxels_distinct_witness :
  NoDup (map key (allVoxels (generateWorld (constStream 0)))).
Proof.
  exact (proj1 (generateWorld_voxels_distinct (constStream 0)
                  constStream_0_range)).
Defined.

(** C8 (as stated) fails in its reason: not every voxel goes through the
    occupancy-checked insertion.  Every call of [add] leaves the cell it
    rounds to in [occupied]; yet the world generated under the oracle 0
    holds the ice voxel of the pond centre, at [(-35, -2, 35)], while that
    cell is not in [occupied]: the terrain loop pushed it directly. *)
Lemma ice_bypasses_occupancy :
  let w := generateWorld (constStream 0) in
  (forall x y z color isGlowing w0 n,
     (Math_round x, Math_round y, Math_round z)
       ∈ occupied (after (add x y z color isGlowing) w0 n)) /\
  In centreIce (interactiveIce w) /\
  key centreIce = ((-35)%Z, (-2)%Z, 35%Z) /\
  key centreIce ∉ occupied w.
Proof.
  intros w.
  destruct (generateWorld_endInv (constStream 0) constStream_0_range)
    as [HI Hin].
  fold w in HI, Hin.
  split; [intros; apply add_occupies|].
  split; [exact Hin|]. split; [reflexivity|].
  intros Hocc. apply (inv_occupied_free w HI _ Hocc).
  apply (inv_pond_reserved w HI). unfold pondVoxels.
  apply in_app_iff. now left.
Qed.

End WorldInstances.

(* ================================================================== *)
(** * The terrain height function in double arithmetic: properties *)
(* ================================================================== *)

Section TerrainDoubleFacts.

Import PrimFloat FloatOps SpecFloat.
Import TerrainDouble.

Local Open Scope Z_scope.
Local Set Warnings "-inexact-float".

(** ** Integer points *)

Lemma lattice_testsExact :
  forallb (fun x => forallb (testsExact x) lattice) lattice = true.
Proof. vm_compute. reflexivity. Qed.

Lemma lattice_integral : forallb integral lattice = true.
Proof. vm_compute. reflexivity. Qed.

Lemma In_lattice (x : Z) : -90 <= x <= 90 -> In x lattice.
Proof. intros H. apply In_range. lia. Qed.

Lemma IZR_pow2_pos (k : Z) : 0 <= k -> (0 < IZR (2 ^ k))%R.
Proof. intros H. apply IZR_lt. apply Z.pow_pos_nonneg; lia. Qed.

Lemma integral_value (x : Z) :
  integral x = true -> value (of_Z x) = IZR x.
Proof.
  unfold integral, value. destruct (Prim2SF (of_Z x)) as [s| | |s m e];
    try discriminate.
  - intros H. apply Z.eqb_eq in H. now subst x.
  - intros H. apply andb_prop in H. destruct H as [H Hs].
    apply andb_prop in H. destruct H as [He Hm].
    apply Z.leb_le in He. apply Z.eqb_eq in Hm. apply Bool.eqb_prop in Hs.
    cbv zeta.
    destruct (Z.leb_spec 0 e) as [He0|He0].
    + assert (e = 0) by lia. subst e. rewrite Hs.
      change (2 ^ (- 0)) with 1 in Hm. change (2 ^ 0) with 1.
      rewrite Z.mul_1_r in *. rewrite Hm.
      destruct (Z.ltb_spec x 0); [rewrite <- opp_IZR|]; f_equal; lia.
    + pose proof (IZR_pow2_pos (- e) ltac:(lia)) as Hp.
      rewrite Hm, mult_IZR, Hs.
      replace (IZR (Z.abs x) * IZR (2 ^ (- e)) / IZR (2 ^ (- e)))%R
        with (IZR (Z.abs x)) by (field; lra).
      destruct (Z.ltb_spec x 0); [rewrite <- opp_IZR|]; f_equal; lia.
Qed.

(** A Euclidean distance between integer points, compared with an integer
    bound. *)
Lemma distance2_lt_Z (x z cx cz r : Z) :
  0 < r ->
  (distance2 (IZR x) (IZR z) (IZR cx) (IZR cz) < IZR r)%R <->
  (x - cx) ^ 2 + (z - cz) ^ 2 < r ^ 2.
Proof.
  intros Hr. unfold distance2.
  replace ((IZR x - IZR cx) ^ 2 + (IZR z - IZR cz) ^ 2)%R
    with (IZR ((x - cx) ^ 2 + (z - cz) ^ 2))
    by (rewrite plus_IZR, !Z.pow_2_r, !mult_IZR, !minus_IZR; ring).
  rewrite sqrt_lt_bound;
    [|apply IZR_le; nia|now apply IZR_lt].
  rewrite <- mult_IZR. split; intros H.
  - apply lt_IZR in H. lia.
  - apply IZR_lt. lia.
Qed.

Lemma testsExact_lattice (x z : Z) :
  -90 <= x <= 90 -> -90 <= z <= 90 -> testsExact x z = true.
Proof.
  intros Hx Hz. pose proof lattice_testsExact as H.
  rewrite forallb_forall in H. specialize (H x (In_lattice x Hx)).
  rewrite forallb_forall in H. exact (H z (In_lattice z Hz)).
Qed.

Lemma integral_lattice (x : Z) : -90 <= x <= 90 -> integral x = true.
Proof.
  intros Hx. pose proof lattice_integral as H.
  rewrite forallb_forall in H. exact (H x (In_lattice x Hx)).
Qed.

(** [Math.floor] on a few doubles. *)
Lemma Math_floor_examples :
  Math_floor 2.66 = 2%float /\ Math_floor (-2.66) = (-3)%float /\
  Math_floor 0.5 = 0%float /\ Math_floor (-0.5) = (-1)%float /\
  Math_floor 7 = 7%float /\ Math_floor (-7) = (-7)%float /\
  Math_floor 1e300 = 1e300%float /\
  Math_floor infinity = infinity.
Proof. vm_compute. repeat split. Qed.

(** ** C5 *)

(** C5 (as amended): in double arithmetic the terrain height is [0] at
    [(0, 0)] and [-2] at the pond centre [(-35, 35)], whatever the host's
    sine and cosine are.  For every pair of doubles it is [-2] when the
    computed distance to [(-35, 35)] is below 16, otherwise [0] when the
    computed distance to the origin is below 5, otherwise the floor of the
    noise [sin(0.05 x) cos(0.05 z) 6 + sin(0.1 x + 0.2 z) 2] as the host
    computes it.  At every integer point [(x, z)] of the world,
    [-90 <= x, z <= 90], the computed distances decide as the Euclidean
    ones, so there it is the function of the specification: [-2] when the
    Euclidean distance from [(x, z)] to [(-35, 35)] is below 16, otherwise
    [0] when the Euclidean distance from the origin is below 5, otherwise
    the floor of the noise. *)
Theorem getTerrainVoxelY_double (Math_sin Math_cos : float -> float) :
  getTerrainVoxelY Math_sin Math_cos 0 0 = 0%float /\
  getTerrainVoxelY Math_sin Math_cos (-35) 35 = (-2)%float /\
  (forall X Z : float,
     getTerrainVoxelY Math_sin Math_cos X Z
     = if (PrimFloat.sqrt (square (X - (-35)) + square (Z - 35)) <? 16)%float
       then (-2)%float
       else if (PrimFloat.sqrt (square X + square Z) <? 5)%float
            then 0%float
            else Math_floor
                   (Math_sin (X * 0.05) * Math_cos (Z * 0.05) * 6
                    + Math_sin (X * 0.1 + Z * 0.2) * 2)%float) /\
  forall x z : Z,
    -90 <= x <= 90 -> -90 <= z <= 90 ->
    value (of_Z x) = IZR x /\ value (of_Z z) = IZR z /\
    ((distance2 (IZR x) (IZR z) (-35) 35 < 16)%R ->
       getTerrainVoxelY Math_sin Math_cos (of_Z x) (of_Z z) = (-2)%float) /\
    (~ (distance2 (IZR x) (IZR z) (-35) 35 < 16)%R ->
     (distance2 (IZR x) (IZR z) 0 0 < 5)%R ->
       getTerrainVoxelY Math_sin Math_cos (of_Z x) (of_Z z) = 0%float) /\
    (~ (distance2 (IZR x) (IZR z) (-35) 35 < 16)%R ->
     ~ (distance2 (IZR x) (IZR z) 0 0 < 5)%R ->
       getTerrainVoxelY Math_sin Math_cos (of_Z x) (of_Z z)
       = Math_floor
           (Math_sin (of_Z x * 0.05) * Math_cos (of_Z z * 0.05) * 6
            + Math_sin (of_Z x * 0.1 + of_Z z * 0.2) * 2)%float).
Proof.
  split; [vm_compute; reflexivity|]. split; [vm_compute; reflexivity|].
  split; [intros X Z; reflexivity|].
  intros x z Hx Hz.
  split; [apply integral_value, integral_lattice, Hx|].
  split; [apply integral_value, integral_lattice, Hz|].
  pose proof (testsExact_lattice x z Hx Hz) as Ht. unfold testsExact in Ht.
  apply andb_prop in Ht. destruct Ht as [Hp Hc].
  apply Bool.eqb_prop in Hp, Hc.
  pose proof (distance2_lt_Z x z (-35) 35 16 ltac:(lia)) as Dp.
  pose proof (distance2_lt_Z x z 0 0 5 ltac:(lia)) as Dc.
  replace (x - -35) with (x + 35) in Dp by lia.
  replace (x - 0) with x in Dc by lia. replace (z - 0) with z in Dc by lia.
  change (16 ^ 2) with 256 in Dp. change (5 ^ 2) with 25 in Dc.
  unfold getTerrainVoxelY. rewrite Hp, Hc.
  split; [|split].
  - intros H. apply Dp in H. apply Z.ltb_lt in H. rewrite H. reflexivity.
  - intros Hn H. apply Dc in H. apply Z.ltb_lt in H. rewrite H.
    destruct (Z.ltb_spec ((x + 35) ^ 2 + (z - 35) ^ 2) 256) as [Hl|_];
      [exfalso; apply Hn, Dp, Hl|reflexivity].
  - intros Hn Hm.
    destruct (Z.ltb_spec ((x + 35) ^ 2 + (z - 35) ^ 2) 256) as [Hl|_];
      [exfalso; apply Hn, Dp, Hl|].
    destruct (Z.ltb_spec (x ^ 2 + z ^ 2) 25) as [Hl|_];
      [exfalso; apply Hm, Dc, Hl|reflexivity].
Qed.

(** ** Off the integer points *)

Lemma Prim2SF_3 : Prim2SF 3 = S754_finite false 6755399441055744 (-51).
Proof. vm_compute. reflexivity. Qed.

Lemma Prim2SF_below4 :
  Prim2SF below4 = S754_finite false 9007199254740991 (-51).
Proof. vm_compute. reflexivity. Qed.

Lemma value_3 : value 3 = 3%R.
Proof.
  unfold value. rewrite Prim2SF_3. cbv zeta.
  change (0 <=? -51) with false. cbv iota.
  change (2 ^ (- -51)) with 2251799813685248. lra.
Qed.

Lemma value_below4 : value below4 = (4 - 1 / 2251799813685248)%R.
Proof.
  unfold value. rewrite Prim2SF_below4. cbv zeta.
  change (0 <=? -51) with false. cbv iota.
  change (2 ^ (- -51)) with 2251799813685248. lra.
Qed.

(** C5 (as stated) fails.  At [(3, 3.9999999999999996)] the Euclidean
    distance from the origin is below 5 (and the pond is far), so the
    function of the specification gives [0]; but the sum of the squares is
    the double next below 25, whose correctly rounded square root is
    exactly 5, so the test [distToCenter < 5] fails and the code returns
    the floor of the noise: [2] on a host whose sine and cosine return the
    doubles nearest to the true values. *)
Lemma getTerrainVoxelY_misses_hub :
  (distance2 (value 3) (value below4) 0 0 < 5)%R /\
  ~ (distance2 (value 3) (value below4) (-35) 35 < 16)%R /\
  terrainHeight (value 3) (value below4) = 0%R /\
  PrimFloat.sqrt (square 3 + square below4) = 5%float /\
  (forall Math_sin Math_cos : float -> float,
     getTerrainVoxelY Math_sin Math_cos 3 below4
     = Math_floor
         (Math_sin 0.15000000000000002 * Math_cos 0.19999999999999998 * 6
          + Math_sin 1.1 * 2)%float) /\
  (forall Math_sin Math_cos : float -> float,
     Math_sin 0.15000000000000002%float = 0.14943813247359924%float ->
     Math_cos 0.19999999999999998%float = 0.9800665778412416%float ->
     Math_sin 1.1%float = 0.8912073600614354%float ->
     getTerrainVoxelY Math_sin Math_cos 3 below4 = 2%float).
Proof.
  assert (Hc : (distance2 (value 3) (value below4) 0 0 < 5)%R).
  { rewrite value_3, value_below4. unfold distance2.
    apply sqrt_lt_bound; [apply sum_sq_nonneg|lra|]. nra. }
  assert (Hp : ~ (distance2 (value 3) (value below4) (-35) 35 < 16)%R).
  { rewrite value_3, value_below4. unfold distance2. intros H.
    apply sqrt_lt_bound in H; [|apply sum_sq_nonneg|lra]. nra. }
  assert (Hrun : forall Math_sin Math_cos : float -> float,
     getTerrainVoxelY Math_sin Math_cos 3 below4
     = Math_floor
         (Math_sin 0.15000000000000002 * Math_cos 0.19999999999999998 * 6
          + Math_sin 1.1 * 2)%float).
  { intros Math_sin Math_cos. unfold getTerrainVoxelY.
    change (PrimFloat.sqrt (square (3 - -35) + square (below4 - 35)) <? 16)%float
      with false.
    change (PrimFloat.sqrt (square 3 + square below4) <? 5)%float with false.
    change (3 * 0.05)%float with 0.15000000000000002%float.
    change (below4 * 0.05)%float with 0.19999999999999998%float.
    change (3 * 0.1 + below4 * 0.2)%float with 1.1%float.
    reflexivity. }
  split; [exact Hc|]. split; [exact Hp|]. split; [|split; [|split]].
  - unfold terrainHeight.
    destruct (Rlt_dec _ 16) as [H|_]; [now destruct Hp|].
    destruct (Rlt_dec _ 5) as [_|H]; [reflexivity|now destruct H].
  - vm_compute. reflexivity.
  - exact Hrun.
  - intros Math_sin Math_cos H1 H2 H3. rewrite Hrun, H1, H2, H3.
    vm_compute. reflexivity.
Qed.

Lemma getTerrainVoxelY_double_witness :
  getTerrainVoxelY (fun v => v) (fun v => v) (of_Z 3) (of_Z 0) = 0%float.
Proof.
  destruct (getTerrainVoxelY_double (fun v => v) (fun v => v))
    as (_ & _ & _ & H).
  destruct (H 3 0 ltac:(lia) ltac:(lia)) as (_ & _ & _ & Hhub & _).
  apply Hhub.
  - intros Hd. apply (distance2_lt_Z 3 0 (-35) 35 16) in Hd; lia.
  - apply (distance2_lt_Z 3 0 0 0 5); lia.
Defined.

End TerrainDoubleFacts.

(* ================================================================== *)
(** * Further properties of the game session *)
(* ================================================================== *)

Section SessionMore.

Import Session.

Local Open Scope Z_scope.

Lemma find_id_In (id : Z) (l : list Snowman) (sm : Snowman) :
  find (fun s => snowman_id s =? id) l = Some sm ->
  In sm l /\ snowman_id sm = id.
Proof.
  intros H. apply find_some in H. destruct H as [Hin Hid].
  split; [exact Hin|]. now apply Z.eqb_eq.
Qed.

Lemma find_gift_In (id : Z) (l : list Gift) (g : Gift) :
  find (fun g => gift_id g =? id) l = Some g ->
  In g l /\ gift_id g = id.
Proof.
  intros H. apply find_some in H. destruct H as [Hin Hid].
  split; [exact Hin|]. now apply Z.eqb_eq.
Qed.

Lemma find_gift_known (id : Z) (l : list Gift) :
  In id (map gift_id l) -> exists g, find (fun g => gift_id g =? id) l = Some g.
Proof.
  intros Hin. apply in_map_iff in Hin. destruct Hin as (g & Hid & Hg).
  destruct (find _ l) as [g'|] eqn:E; [now exists g'|].
  exfalso. apply (find_none _ _ E) in Hg. apply Z.eqb_neq in Hg. lia.
Qed.

Lemma map_mark_ids (id : Z) (l : list Gift) :
  map gift_id (map (fun g => if gift_id g =? id then markCollected g else g) l)
  = map gift_id l.
Proof.
  rewrite map_map. apply map_ext. intros g. now destruct (gift_id g =? id).
Qed.

Lemma map_damaged_ids (id newHp : Z) (dead : bool) (l : list Snowman) :
  map snowman_id
      (map (fun s => if snowman_id s =? id then damaged newHp dead s else s) l)
  = map snowman_id l.
Proof.
  rewrite map_map. apply map_ext. intros s. now destruct (snowman_id s =? id).
Qed.

Lemma handleCollect_giftIds (id : Z) (s : GameState) :
  giftIds (handleCollect id s) = giftIds s /\
  snowmen (handleCollect id s) = snowmen s.
Proof.
  unfold handleCollect, giftIds. destruct (found_and_collected _); simpl;
    [now split|]. split; [apply map_mark_ids|reflexivity].
Qed.

(** What a hit does to the lists, case by case. *)
Lemma handleSnowmanHit_cases (id : Z) (s : GameState) :
  handleSnowmanHit id s = s \/
  exists sm,
    In sm (snowmen s) /\ snowman_id sm = id /\ isDead sm = false /\
    snowmen (handleSnowmanHit id s)
      = map (fun x => if snowman_id x =? id
                      then damaged (hp sm - 1) (hp sm - 1 <=? 0) x else x)
            (snowmen s) /\
    gifts (handleSnowmanHit id s)
      = (if hp sm - 1 <=? 0 then gifts s ++ [rewardGift id sm] else gifts s).
Proof.
  unfold handleSnowmanHit.
  destruct (find _ _) as [sm|] eqn:E; [|now left].
  destruct (isDead sm) eqn:D; [now left|]. right.
  apply find_id_In in E. destruct E as [Hin Hid].
  exists sm. simpl. now repeat split.
Qed.

Lemma rewardGift_id (id : Z) (sm : Snowman) :
  gift_id (rewardGift id sm) = 1000 + id /\
  collected (rewardGift id sm) = false.
Proof.
  unfold rewardGift. destruct (snowman_position sm) as [[px py] pz]. now split.
Qed.

Lemma sessionInv_step (e : Event) (s : GameState) :
  sessionInv s -> sessionInv (step e s).
Proof.
  intros [G S F H]. destruct e as [id|id]; simpl.
  - destruct (handleCollect_giftIds id s) as [Eg Es].
    constructor; unfold snowmanIds; rewrite ?Eg, ?Es; assumption.
  - destruct (handleSnowmanHit_cases id s) as [->|(sm & Hin & Hid & Hd & Es & Eg)];
      [now constructor|].
    destruct (H sm Hin) as [Hhp Hdead]. rewrite Hd in Hdead.
    assert (Hpos : 1 <= hp sm)
      by (destruct (Z.leb_spec (hp sm) 0); [discriminate|lia]).
    assert (Hfresh : ~ In (1000 + id) (giftIds s))
      by (rewrite <- Hid; now apply F).
    constructor.
    + unfold giftIds. rewrite Eg. destruct (hp sm - 1 <=? 0); [|exact G].
      rewrite map_app. apply NoDup_app. split; [exact G|].
      split; [|apply NoDup_singleton].
      intros k Hk Hk'. apply list_elem_of_In in Hk, Hk'. simpl in Hk'.
      destruct (rewardGift_id id sm) as [Er _]. rewrite Er in Hk'.
      destruct Hk' as [<-|[]]. now apply Hfresh.
    + unfold snowmanIds. rewrite Es, map_damaged_ids. exact S.
    + intros sm' Hin' Hd'. rewrite Es in Hin'. apply in_map_iff in Hin'.
      destruct Hin' as (x & Hx & Hxin).
      assert (Hold : ~ In (1000 + snowman_id sm') (giftIds s)).
      { destruct (Z.eqb_spec (snowman_id x) id) as [Exid|Exid].
        - subst sm'. simpl. rewrite Exid. exact Hfresh.
        - subst sm'. now apply F. }
      unfold giftIds. rewrite Eg.
      destruct (hp sm - 1 <=? 0) eqn:Edead; [|exact Hold].
      rewrite map_app, in_app_iff. intros [Hl|Hr]; [now apply Hold|].
      simpl in Hr. destruct (rewardGift_id id sm) as [Er _]. rewrite Er in Hr.
      destruct Hr as [Hr|[]].
      destruct (Z.eqb_spec (snowman_id x) id) as [Exid|Exid].
      * subst sm'. simpl in Hd'. discriminate.
      * subst sm'. lia.
    + intros sm' Hin'. rewrite Es in Hin'. apply in_map_iff in Hin'.
      destruct Hin' as (x & Hx & Hxin).
      destruct (snowman_id x =? id); subst sm'; [|now apply H].
      simpl. split; [lia|reflexivity].
Qed.

Lemma sessionInv_run (es : list Event) (s : GameState) :
  sessionInv s -> sessionInv (run es s).
Proof.
  revert s. induction es as [|e es IH]; intros s Hs; [exact Hs|].
  simpl. apply IH, sessionInv_step, Hs.
Qed.

(** ** Counting *)

Lemma map_mark_absent (id : Z) (l : list Gift) :
  ~ In id (map gift_id l) ->
  map (fun g => if gift_id g =? id then markCollected g else g) l = l.
Proof.
  induction l as [|a l IH]; simpl; [reflexivity|]. intros Hn.
  destruct (Z.eqb_spec (gift_id a) id) as [E|_]; [exfalso; apply Hn; now left|].
  rewrite IH; [reflexivity|]. intros H. apply Hn. now right.
Qed.

Lemma countCollected_cons (a : Gift) (l : list Gift) :
  countCollected (a :: l)
  = (if collected a then 1 else 0) + countCollected l.
Proof.
  unfold countCollected. simpl. destruct (collected a); simpl; lia.
Qed.

Lemma countCollected_app (l k : list Gift) :
  countCollected (l ++ k) = countCollected l + countCollected k.
Proof.
  unfold countCollected. rewrite List.filter_app, length_app. lia.
Qed.

Lemma countCollected_le (l : list Gift) :
  0 <= countCollected l <= Z.of_nat (List.length l).
Proof.
  unfold countCollected. pose proof (List.filter_length_le collected l). lia.
Qed.

(** With distinct identities, collecting marks one gift. *)
Lemma countCollected_mark (id : Z) (l : list Gift) (g : Gift) :
  NoDup (map gift_id l) -> In g l -> gift_id g = id -> collected g = false ->
  countCollected (map (fun g => if gift_id g =? id then markCollected g else g) l)
  = countCollected l + 1.
Proof.
  induction l as [|a l IH]; intros Hnd Hin Hid Hc; [destruct Hin|].
  simpl in Hnd. apply NoDup_cons in Hnd. destruct Hnd as [Hnotin Hnd].
  rewrite list_elem_of_In in Hnotin.
  simpl map. rewrite !countCollected_cons.
  destruct Hin as [->|Hin].
  - rewrite Hid, Z.eqb_refl, Hc. simpl.
    rewrite map_mark_absent; [lia|now rewrite <- Hid].
  - destruct (Z.eqb_spec (gift_id a) id) as [E|_].
    + exfalso. apply Hnotin. rewrite E, <- Hid. now apply in_map.
    + rewrite (IH Hnd Hin Hid Hc). lia.
Qed.

(** Distinct gift identities and fresh reward identities are kept by every
    event, whatever the snowman identities and hit points are. *)
Lemma giftsFresh_step (e : Event) (s : GameState) :
  NoDup (giftIds s) -> rewardsFresh s ->
  NoDup (giftIds (step e s)) /\ rewardsFresh (step e s).
Proof.
  intros G F. destruct e as [id|id]; simpl.
  - destruct (handleCollect_giftIds id s) as [Eg Es].
    unfold rewardsFresh. rewrite Eg, Es. split; assumption.
  - destruct (handleSnowmanHit_cases id s) as [->|(sm & Hin & Hid & Hd & Es & Eg)];
      [split; assumption|].
    assert (Hfresh : ~ In (1000 + id) (giftIds s))
      by (rewrite <- Hid; now apply F).
    split.
    + unfold giftIds. rewrite Eg. destruct (hp sm - 1 <=? 0); [|exact G].
      rewrite map_app. apply NoDup_app. split; [exact G|].
      split; [|apply NoDup_singleton].
      intros k Hk Hk'. apply list_elem_of_In in Hk, Hk'. simpl in Hk'.
      destruct (rewardGift_id id sm) as [Er _]. rewrite Er in Hk'.
      destruct Hk' as [<-|[]]. now apply Hfresh.
    + intros sm' Hin' Hd'. rewrite Es in Hin'. apply in_map_iff in Hin'.
      destruct Hin' as (x & Hx & Hxin).
      assert (Hold : ~ In (1000 + snowman_id sm') (giftIds s)).
      { destruct (Z.eqb_spec (snowman_id x) id) as [Exid|Exid].
        - subst sm'. simpl. rewrite Exid. exact Hfresh.
        - subst sm'. now apply F. }
      unfold giftIds. rewrite Eg.
      destruct (hp sm - 1 <=? 0) eqn:Edead; [|exact Hold].
      rewrite map_app, in_app_iff. intros [Hl|Hr]; [now apply Hold|].
      simpl in Hr. destruct (rewardGift_id id sm) as [Er _]. rewrite Er in Hr.
      destruct Hr as [Hr|[]].
      destruct (Z.eqb_spec (snowman_id x) id) as [Exid|Exid].
      * subst sm'. simpl in Hd'. discriminate.
      * subst sm'. lia.
Qed.

Lemma count_step_ids (e : Event) (s : GameState) :
  NoDup (giftIds s) -> known s e ->
  foundCount s = countCollected (gifts s) ->
  foundCount (step e s) = countCollected (gifts (step e s)).
Proof.
  intros HG Hk Hc. destruct e as [id|id]; simpl in *.
  - destruct (find_gift_known id (gifts s) Hk) as [g Hg].
    unfold handleCollect. rewrite Hg. simpl.
    destruct (collected g) eqn:Ec; [exact Hc|]. simpl.
    apply find_gift_In in Hg. destruct Hg as [Hin Hid].
    rewrite (countCollected_mark id (gifts s) g); auto. lia.
  - destruct (handleSnowmanHit_foundCount id s) as [Ef _]. rewrite Ef.
    destruct (handleSnowmanHit_cases id s) as [->|(sm & _ & _ & _ & _ & Eg)];
      [exact Hc|].
    rewrite Eg. destruct (hp sm - 1 <=? 0); [|exact Hc].
    rewrite countCollected_app, Hc, countCollected_cons.
    destruct (rewardGift_id id sm) as [_ ->].
    change (countCollected []) with 0. lia.
Qed.

Lemma count_run_ids (es : list Event) (s : GameState) :
  NoDup (giftIds s) -> rewardsFresh s -> knownRun es s ->
  foundCount s = countCollected (gifts s) ->
  foundCount (run es s) = countCollected (gifts (run es s)).
Proof.
  revert s. induction es as [|e es IH]; intros s HG HF Hk Hc; [exact Hc|].
  destruct Hk as [Hk Hks]. simpl.
  destruct (giftsFresh_step e s HG HF) as [HG' HF'].
  apply IH; [exact HG'|exact HF'|exact Hks|].
  now apply count_step_ids.
Qed.

Lemma count_run (es : list Event) (s : GameState) :
  sessionInv s -> knownRun es s ->
  foundCount s = countCollected (gifts s) ->
  foundCount (run es s) = countCollected (gifts (run es s)).
Proof.
  intros [G _ F _]. now apply count_run_ids.
Qed.

Lemma offered_known (s : GameState) (e : Event) :
  Scene.offered s e -> known s e.
Proof.
  destruct e as [id|id]; simpl; [|auto].
  unfold Scene.renderedGifts, giftIds. rewrite !in_map_iff.
  intros (g & Hid & Hg). apply List.filter_In in Hg. exists g. tauto.
Qed.

Lemma offeredRun_knownRun (es : list Event) (s : GameState) :
  Scene.offeredRun es s -> knownRun es s.
Proof.
  revert s. induction es as [|e es IH]; intros s; simpl; [auto|].
  intros [Ho Hr]. split; [now apply offered_known|now apply IH].
Qed.

(** X1: in a session with distinct gift identities in which no gift yet
    carries the reward identity of a living snowman, [foundCount] stays the
    number of collected gifts along every sequence of events whose collects
    name gifts of the list, in particular along every sequence of events
    sent by the rendered scene. *)
Theorem scene_keeps_count (es : list Event) (s0 : GameState) :
  NoDup (giftIds s0) ->
  rewardsFresh s0 ->
  foundCount s0 = countCollected (gifts s0) ->
  (knownRun es s0 ->
     foundCount (run es s0) = countCollected (gifts (run es s0))) /\
  (Scene.offeredRun es s0 ->
     foundCount (run es s0) = countCollected (gifts (run es s0))).
Proof.
  intros HG HF Hc. split; intros Hr.
  - now apply count_run_ids.
  - apply count_run_ids; auto. now apply offeredRun_knownRun.
Qed.

(** X2: the order of the identities is kept by every event, offered or
    not: gift identities stay distinct, so a snowman yields at most one
    reward gift; hit points never fall below zero, and a snowman is dead
    exactly when it has none left. *)
Theorem session_identities_kept (es : list Event) (s0 : GameState) :
  sessionInv s0 ->
  NoDup (giftIds (run es s0)) /\
  NoDup (snowmanIds (run es s0)) /\
  (forall sm, In sm (snowmen (run es s0)) ->
     0 <= hp sm /\ (isDead sm = true <-> hp sm = 0)) /\
  (forall id : Z,
     (List.length (List.filter (fun g => (gift_id g =? 1000 + id)%Z)
                               (gifts (run es s0))) <= 1)%nat).
Proof.
  intros HI. apply (sessionInv_run es) in HI. destruct HI as [G S F H].
  split; [exact G|]. split; [exact S|]. split.
  - intros sm Hin. destruct (H sm Hin) as [Hhp Hd]. split; [exact Hhp|].
    rewrite Hd. rewrite Z.leb_le. lia.
  - intros id. unfold giftIds in G. clear - G.
    induction (gifts (run es s0)) as [|a l IH]; simpl; [lia|].
    simpl in G. apply NoDup_cons in G. destruct G as [Hn G].
    specialize (IH G). rewrite list_elem_of_In in Hn.
    destruct (Z.eqb_spec (gift_id a) (1000 + id)) as [E|_]; [|exact IH].
    simpl. assert (Hnone : List.filter (fun g => gift_id g =? 1000 + id) l = []).
    { destruct (List.filter _ l) as [|b k] eqn:Ef; [reflexivity|].
      exfalso. assert (Hb : In b (List.filter (fun g => gift_id g =? 1000 + id) l))
        by (rewrite Ef; now left).
      apply List.filter_In in Hb. destruct Hb as [Hbl Hbid].
      apply Z.eqb_eq in Hbid. apply Hn. rewrite E, <- Hbid. now apply in_map. }
    rewrite Hnone. simpl. lia.
Qed.

(** ** Conservation *)

Lemma map_damaged_absent (id newHp : Z) (dead : bool) (l : list Snowman) :
  ~ In id (map snowman_id l) ->
  map (fun s => if snowman_id s =? id then damaged newHp dead s else s) l = l.
Proof.
  induction l as [|a l IH]; simpl; [reflexivity|]. intros Hn.
  destruct (Z.eqb_spec (snowman_id a) id) as [E|_];
    [exfalso; apply Hn; now left|].
  rewrite IH; [reflexivity|]. intros H. apply Hn. now right.
Qed.

Lemma alive_damaged (id newHp : Z) (dead : bool) (l : list Snowman)
    (sm : Snowman) :
  NoDup (map snowman_id l) -> In sm l -> snowman_id sm = id ->
  isDead sm = false ->
  (List.length (Scene.renderedSnowmen
     (map (fun s => if (snowman_id s =? id)%Z then damaged newHp dead s else s)
          l))
   + (if dead then 1 else 0)
   = List.length (Scene.renderedSnowmen l))%nat.
Proof.
  induction l as [|a l IH]; intros Hnd Hin Hid Hd; [destruct Hin|].
  simpl in Hnd. apply NoDup_cons in Hnd. destruct Hnd as [Hnotin Hnd].
  rewrite list_elem_of_In in Hnotin. simpl.
  destruct Hin as [->|Hin].
  - rewrite Hid, Z.eqb_refl, Hd. simpl.
    rewrite map_damaged_absent by (now rewrite <- Hid).
    destruct dead; cbn [negb List.length]; lia.
  - destruct (Z.eqb_spec (snowman_id a) id) as [E|_].
    + exfalso. apply Hnotin. rewrite E, <- Hid. now apply in_map.
    + specialize (IH Hnd Hin Hid Hd).
      destruct (isDead a); cbn [negb List.length]; lia.
Qed.

Lemma snowmanIds_step (e : Event) (s : GameState) :
  snowmanIds (step e s) = snowmanIds s.
Proof.
  destruct e as [id|id]; simpl.
  - destruct (handleCollect_giftIds id s) as [_ Es].
    unfold snowmanIds. now rewrite Es.
  - destruct (handleSnowmanHit_cases id s) as [->|(sm & _ & _ & _ & Es & _)];
      [reflexivity|].
    unfold snowmanIds. rewrite Es. apply map_damaged_ids.
Qed.

Lemma conservation_step (e : Event) (s : GameState) :
  NoDup (snowmanIds s) ->
  (List.length (gifts (step e s)) + aliveCount (step e s)
   = List.length (gifts s) + aliveCount s)%nat.
Proof.
  intros HS. destruct e as [id|id]; simpl.
  - unfold handleCollect, aliveCount. destruct (found_and_collected _);
      [reflexivity|]. simpl. now rewrite length_map.
  - destruct (handleSnowmanHit_cases id s)
      as [->|(sm & Hin & Hid & Hd & Es & Eg)]; [reflexivity|].
    unfold aliveCount. rewrite Es, Eg.
    pose proof (alive_damaged id (hp sm - 1) (hp sm - 1 <=? 0) (snowmen s) sm
                  HS Hin Hid Hd) as Ha.
    destruct (hp sm - 1 <=? 0); [rewrite length_app; simpl|]; lia.
Qed.

Lemma conservation_run_ids (es : list Event) (s0 : GameState) :
  NoDup (snowmanIds s0) ->
  (List.length (gifts (run es s0)) + aliveCount (run es s0)
   = List.length (gifts s0) + aliveCount s0)%nat.
Proof.
  revert s0. induction es as [|e es IH]; intros s0 HS; [reflexivity|].
  simpl. rewrite IH by (now rewrite snowmanIds_step).
  now apply conservation_step.
Qed.

Lemma conservation_run (es : list Event) (s0 : GameState) :
  sessionInv s0 ->
  (List.length (gifts (run es s0)) + aliveCount (run es s0)
   = List.length (gifts s0) + aliveCount s0)%nat.
Proof.
  intros HI. apply conservation_run_ids, (si_snowman_ids s0 HI).
Qed.

(** Marking never lowers the number of collected gifts, and raises it when
    an uncollected gift carries the identity, distinct identities or not. *)
Lemma countCollected_mark_le (id : Z) (l : list Gift) :
  countCollected l
  <= countCollected
       (map (fun g => if gift_id g =? id then markCollected g else g) l).
Proof.
  induction l as [|a l IH]; [simpl; lia|].
  simpl map. rewrite !countCollected_cons.
  destruct (gift_id a =? id); simpl; destruct (collected a); lia.
Qed.

Lemma countCollected_mark_lt (id : Z) (l : list Gift) (g : Gift) :
  In g l -> gift_id g = id -> collected g = false ->
  countCollected l + 1
  <= countCollected
       (map (fun g => if gift_id g =? id then markCollected g else g) l).
Proof.
  induction l as [|a l IH]; intros Hin Hid Hc; [destruct Hin|].
  simpl map. rewrite !countCollected_cons.
  destruct Hin as [->|Hin].
  - rewrite Hid, Z.eqb_refl, Hc. simpl.
    pose proof (countCollected_mark_le id l). lia.
  - specialize (IH Hin Hid Hc).
    destruct (gift_id a =? id); simpl; destruct (collected a); lia.
Qed.

Lemma count_le_step (e : Event) (s : GameState) :
  known s e ->
  foundCount s <= countCollected (gifts s) ->
  foundCount (step e s) <= countCollected (gifts (step e s)).
Proof.
  intros Hk Hc. destruct e as [id|id]; simpl in *.
  - destruct (find_gift_known id (gifts s) Hk) as [g Hg].
    unfold handleCollect. rewrite Hg. simpl.
    destruct (collected g) eqn:Ec; [exact Hc|]. simpl.
    apply find_gift_In in Hg. destruct Hg as [Hin Hid].
    pose proof (countCollected_mark_lt id (gifts s) g Hin Hid Ec). lia.
  - destruct (handleSnowmanHit_foundCount id s) as [Ef _]. rewrite Ef.
    destruct (handleSnowmanHit_cases id s) as [->|(sm & _ & _ & _ & _ & Eg)];
      [exact Hc|].
    rewrite Eg. destruct (hp sm - 1 <=? 0); [|exact Hc].
    rewrite countCollected_app. pose proof (countCollected_le [rewardGift id sm]).
    lia.
Qed.

Lemma count_le_run (es : list Event) (s : GameState) :
  knownRun es s ->
  foundCount s <= countCollected (gifts s) ->
  foundCount (run es s) <= countCollected (gifts (run es s)).
Proof.
  revert s. induction es as [|e es IH]; intros s Hk Hc; [exact Hc|].
  destruct Hk as [Hk Hks]. simpl. apply IH; [exact Hks|].
  now apply count_le_step.
Qed.

(** X3: with distinct snowman identities every event keeps the number of
    gifts plus the number of living snowmen: a gift is added exactly when a
    snowman dies.  Hence, when [foundCount] starts no larger than the number
    of collected gifts and [gameOver] starts as the test [30 <= foundCount],
    a session that reaches [gameOver] by events whose collects name gifts
    of the list holds at least 30 gifts, and cannot exist when gifts and
    living snowmen together numbered fewer than 30 at the start. *)
Theorem gifts_plus_living_snowmen (es : list Event) (s0 : GameState) :
  NoDup (snowmanIds s0) ->
  (List.length (gifts (run es s0)) + aliveCount (run es s0)
   = List.length (gifts s0) + aliveCount s0)%nat /\
  (foundCount s0 <= countCollected (gifts s0) ->
   gameOver s0 = (30 <=? foundCount s0) ->
   knownRun es s0 ->
   gameOver (run es s0) = true ->
   (30 <= List.length (gifts (run es s0)))%nat /\
   (30 + aliveCount (run es s0)
    <= List.length (gifts s0) + aliveCount s0)%nat).
Proof.
  intros HS.
  pose proof (conservation_run_ids es s0 HS) as Hcons.
  split; [exact Hcons|].
  intros Hc Hg Hk Hover.
  rewrite (run_gameOver es s0 Hg) in Hover. apply Z.leb_le in Hover.
  pose proof (count_le_run es s0 Hk Hc).
  pose proof (countCollected_le (gifts (run es s0))). lia.
Qed.

(** ** Persistence *)

Lemma giftsPersist_refl (l : list Gift) : giftsPersist l l.
Proof. intros i g Hg. exists g. tauto. Qed.

Lemma giftsPersist_trans (l k m : list Gift) :
  giftsPersist l k -> giftsPersist k m -> giftsPersist l m.
Proof.
  intros H1 H2 i g Hg.
  destruct (H1 i g Hg) as (g1 & Hg1 & I1 & P1 & C1 & T1 & R1 & K1).
  destruct (H2 i g1 Hg1) as (g2 & Hg2 & I2 & P2 & C2 & T2 & R2 & K2).
  exists g2. repeat split; try congruence. auto.
Qed.

Lemma giftsPersist_step (e : Event) (s : GameState) :
  giftsPersist (gifts s) (gifts (step e s)).
Proof.
  destruct e as [id|id]; simpl.
  - unfold handleCollect. destruct (found_and_collected _);
      [apply giftsPersist_refl|]. simpl. intros i g Hg.
    exists (if gift_id g =? id then markCollected g else g). split.
    + rewrite nth_error_map, Hg. reflexivity.
    + destruct (gift_id g =? id); simpl; tauto.
  - destruct (handleSnowmanHit_cases id s) as [->|(sm & _ & _ & _ & _ & Eg)];
      [apply giftsPersist_refl|]. rewrite Eg.
    destruct (hp sm - 1 <=? 0); [|apply giftsPersist_refl].
    intros i g Hg. exists g. split; [|tauto].
    rewrite nth_error_app1; [exact Hg|]. apply nth_error_Some. congruence.
Qed.

Lemma snowman_id_inj (l : list Snowman) (x y : Snowman) :
  NoDup (map snowman_id l) -> In x l -> In y l ->
  snowman_id x = snowman_id y -> x = y.
Proof.
  induction l as [|a l IH]; intros Hnd Hx Hy E; [destruct Hx|].
  simpl in Hnd. apply NoDup_cons in Hnd. destruct Hnd as [Hn Hnd].
  rewrite list_elem_of_In in Hn.
  destruct Hx as [->|Hx], Hy as [->|Hy]; auto.
  - exfalso. apply Hn. rewrite E. now apply in_map.
  - exfalso. apply Hn. rewrite <- E. now apply in_map.
Qed.

Lemma snowmanWorn_refl (sm : Snowman) : snowmanWorn sm sm.
Proof. unfold snowmanWorn. repeat split; auto; lia. Qed.

Lemma snowmanWorn_trans (a b c : Snowman) :
  snowmanWorn a b -> snowmanWorn b c -> snowmanWorn a c.
Proof.
  intros (I1 & P1 & R1 & H1 & D1) (I2 & P2 & R2 & H2 & D2).
  unfold snowmanWorn. repeat split; try congruence; [lia|].
  intros Hd. specialize (D1 Hd). subst b. auto.
Qed.

Lemma Forall2_map_self {A : Type} (R : A -> A -> Prop) (f : A -> A)
    (l : list A) :
  (forall x, In x l -> R x (f x)) -> Forall2 R l (map f l).
Proof.
  induction l as [|a l IH]; intros H; simpl; constructor.
  - apply H. now left.
  - apply IH. intros x Hx. apply H. now right.
Qed.

Lemma snowmenPersist_refl (l : list Snowman) : snowmenPersist l l.
Proof.
  unfold snowmenPersist. induction l; constructor;
    [apply snowmanWorn_refl|assumption].
Qed.

Lemma snowmenPersist_step (e : Event) (s : GameState) :
  NoDup (snowmanIds s) -> snowmenPersist (snowmen s) (snowmen (step e s)).
Proof.
  intros HS. pose proof (snowmenPersist_refl (snowmen s)) as Hrefl.
  destruct e as [id|id]; simpl.
  - destruct (handleCollect_giftIds id s) as [_ ->]. exact Hrefl.
  - destruct (handleSnowmanHit_cases id s)
      as [->|(sm & Hin & Hid & Hd & Es & _)]; [exact Hrefl|].
    rewrite Es. apply Forall2_map_self. intros x Hx.
    destruct (Z.eqb_spec (snowman_id x) id) as [E|_];
      [|apply snowmanWorn_refl].
    assert (x = sm)
      by (apply (snowman_id_inj (snowmen s)); auto; congruence).
    subst x. unfold snowmanWorn. simpl. repeat split; [lia|congruence].
Qed.

Lemma Forall2_trans_worn (l k m : list Snowman) :
  snowmenPersist l k -> snowmenPersist k m -> snowmenPersist l m.
Proof.
  unfold snowmenPersist. intros H. revert m.
  induction H as [|a b l k Hab _ IH]; intros m Hm; inversion Hm; subst;
    constructor.
  - eapply snowmanWorn_trans; eauto.
  - now apply IH.
Qed.

(** X4: nothing is ever taken back.  Along every sequence of events each
    gift keeps its index, identity, place, colour, type and rotation, and
    stays collected once it is; with distinct snowman identities each
    snowman keeps its index, identity and place, never gains a hit point,
    and is never changed again once dead. *)
Theorem session_monotone (es : list Event) (s0 : GameState) :
  giftsPersist (gifts s0) (gifts (run es s0)) /\
  (NoDup (snowmanIds s0) ->
   snowmenPersist (snowmen s0) (snowmen (run es s0))).
Proof.
  split.
  - revert s0. induction es as [|e es IH]; intros s0;
      [apply giftsPersist_refl|].
    simpl. eapply giftsPersist_trans; [apply giftsPersist_step|apply IH].
  - revert s0. induction es as [|e es IH]; intros s0 HS.
    + apply snowmenPersist_refl.
    + simpl. eapply Forall2_trans_worn; [now apply snowmenPersist_step|].
      apply IH. now rewrite snowmanIds_step.
Qed.

(** ** Collecting a rendered gift *)

(** X5: collecting is idempotent for an identity of the list; and a click
    on a rendered gift, with distinct gift identities, raises [foundCount]
    by exactly one and takes exactly the gifts of that identity out of the
    rendered ones. *)
Theorem collect_rendered (id : Z) (s : GameState) :
  (In id (giftIds s) ->
     handleCollect id (handleCollect id s) = handleCollect id s) /\
  (NoDup (giftIds s) -> Scene.offered s (Collect id) ->
     foundCount (handleCollect id s) = foundCount s + 1 /\
     forall g, In g (Scene.renderedGifts (gifts (handleCollect id s))) <->
               In g (Scene.renderedGifts (gifts s)) /\ gift_id g <> id).
Proof.
  split.
  - intros Hk. destruct (find_gift_known id (gifts s) Hk) as [g Hg].
    unfold handleCollect at 2 3. rewrite Hg. simpl.
    destruct (collected g) eqn:Ec.
    + unfold handleCollect. rewrite Hg. simpl. now rewrite Ec.
    + unfold handleCollect. simpl.
      rewrite (find_map_if (fun g => gift_id g =? id) markCollected);
        [|auto]. rewrite Hg. reflexivity.
  - intros Hnd Hoff. simpl in Hoff. apply in_map_iff in Hoff.
    destruct Hoff as (g0 & Hid0 & Hr0). apply List.filter_In in Hr0.
    destruct Hr0 as [Hin0 Hc0]. apply negb_true_iff in Hc0.
    assert (Hk : In id (giftIds s)) by (rewrite <- Hid0; now apply in_map).
    destruct (find_gift_known id (gifts s) Hk) as [g Hg].
    assert (g = g0).
    { apply find_gift_In in Hg. destruct Hg as [Hin Hid].
      clear - Hnd Hin Hin0 Hid Hid0. unfold giftIds in Hnd.
      induction (gifts s) as [|a l IH]; [destruct Hin|].
      simpl in Hnd. apply NoDup_cons in Hnd. destruct Hnd as [Hn Hnd].
      rewrite list_elem_of_In in Hn.
      destruct Hin as [->|Hin], Hin0 as [->|Hin0]; auto.
      - exfalso. apply Hn. rewrite Hid, <- Hid0. now apply in_map.
      - exfalso. apply Hn. rewrite Hid0, <- Hid. now apply in_map. }
    subst g0. unfold handleCollect. rewrite Hg. simpl. rewrite Hc0. simpl.
    split; [reflexivity|]. intros x. unfold Scene.renderedGifts.
    rewrite !List.filter_In, in_map_iff. split.
    + intros [(y & Hy & Hyin) Hcx].
      destruct (Z.eqb_spec (gift_id y) id) as [E|E]; subst x.
      * simpl in Hcx. discriminate.
      * auto.
    + intros [[Hx Hcx] Hne]. split; [|exact Hcx]. exists x.
      split; [|exact Hx]. destruct (Z.eqb_spec (gift_id x) id); [lia|reflexivity].
Qed.

End SessionMore.

(* ================================================================== *)
(** * Further properties of the snowman placement *)
(* ================================================================== *)

Section SnowmenMore.

Variable random : nat -> R.

Local Open Scope R_scope.

(** The coordinate kept after [if (!v) v = 10]. *)
Lemma fallback_nonzero (v : option R) :
  (if falsy v then 10 else match v with Some x => x | None => 10 end) <> 0.
Proof.
  destruct v as [x|]; simpl; [|lra].
  destruct (Req_dec_T x 0); lra.
Qed.

Lemma fallback_value (x : R) :
  (if falsy (Some x) then 10 else x) = x \/
  (x = 0 /\ (if falsy (Some x) then 10 else x) = 10).
Proof. simpl. destruct (Req_dec_T x 0); auto. Qed.

(** The sampling loop with at least one attempt ends on a drawn sample,
    valid only if that sample is accepted, and valid whenever one of the
    samples it may draw is accepted. *)
Lemma sampleSpot_run (left : nat) :
  forall (xVoxel zVoxel : option R) (sms : list Snowman) (n : nat),
  exists m valid n',
    sampleSpot random (S left) xVoxel zVoxel (sms, n)
    = ((Some ((random m - 0.5) * 2 * maxRange),
        Some ((random (S m) - 0.5) * 2 * maxRange), valid), (sms, n')) /\
    (valid = true -> accepted8 random m) /\
    ((exists k, (k < S left)%nat /\ accepted8 random (n + 2 * k)) ->
     valid = true).
Proof.
  induction left as [|left IH]; intros xVoxel zVoxel sms n.
  - cbn [sampleSpot]. unfold bind, Math_random, ret. cbn [fst snd].
    destruct (Rlt_dec _ 8) as [Hrej|Hacc].
    + exists n, false, (S (S n)). split; [reflexivity|].
      split; [discriminate|]. intros (k & Hk & Hak).
      assert (k = O) by lia. subst k. exfalso. apply Hak.
      rewrite Nat.mul_0_r, Nat.add_0_r. exact Hrej.
    + exists n, true, (S (S n)). split; [reflexivity|].
      split; [intros _; exact Hacc|auto].
  - remember (S left) as l1. cbn [sampleSpot].
    unfold bind at 1 2, Math_random. cbn [fst snd].
    destruct (Rlt_dec _ 8) as [Hrej|Hacc].
    + subst l1.
      destruct (IH (Some ((random n - 0.5) * 2 * maxRange))
                   (Some ((random (S n) - 0.5) * 2 * maxRange))
                   sms (S (S n))) as (m & valid & n' & E & V & A).
      exists m, valid, n'. split; [exact E|]. split; [exact V|].
      intros (k & Hk & Hak). apply A. destruct k as [|k].
      * exfalso. apply Hak. rewrite Nat.mul_0_r, Nat.add_0_r. exact Hrej.
      * exists k. split; [lia|].
        now replace (S (S n) + 2 * k)%nat with (n + 2 * S k)%nat by lia.
    + exists n, true, (S (S n)). split; [reflexivity|].
      split; [intros _; exact Hacc|auto].
Qed.

Lemma ten_far (a b : R) : a = 10 \/ b = 10 -> 8 <= sqrt (a ^ 2 + b ^ 2).
Proof.
  intros H. apply sqrt_not_lt. intros Hlt.
  apply sqrt_lt_bound in Hlt; [|apply sum_sq_nonneg|lra].
  destruct H as [-> | ->]; nra.
Qed.

Lemma placeSnowman_run (i : Z) (sms : list Snowman) (n : nat) :
  exists sm n',
    placeSnowman random i (sms, n) = (tt, (sms ++ [sm], n')) /\
    snowmanPlaced random n i sm.
Proof.
  unfold placeSnowman.
  destruct (Z.eqb_spec i 0) as [->|H0].
  { unfold bind at 1, ret. cbv beta iota.
    rewrite (falsy_nonzero 15) by lra.
    eexists _, _. split; [reflexivity|].
    unfold snowmanPlaced, VOXEL_SIZE. simpl. repeat split.
    exists 15, 15. repeat split; try lra; try lia.
    intros _. apply sqrt_not_lt. intros H.
    apply sqrt_lt_bound in H; [lra|apply sum_sq_nonneg|lra]. }
  destruct (Z.eqb_spec i 1) as [->|H1].
  { unfold bind at 1, ret. cbv beta iota.
    rewrite (falsy_nonzero (-20)), (falsy_nonzero (-10)) by lra.
    eexists _, _. split; [reflexivity|].
    unfold snowmanPlaced, VOXEL_SIZE. simpl. repeat split.
    exists (-20), (-10). repeat split; try lra; try lia.
    intros _. apply sqrt_not_lt. intros H.
    apply sqrt_lt_bound in H; [lra|apply sum_sq_nonneg|lra]. }
  destruct (sampleSpot_run 19 None None sms n) as (m & valid & n' & E & V & A).
  unfold bind at 1. rewrite E. cbv beta iota.
  set (x0 := (random m - 0.5) * 2 * maxRange) in *.
  set (z0 := (random (S m) - 0.5) * 2 * maxRange) in *.
  eexists _, _. split; [reflexivity|].
  unfold snowmanPlaced, VOXEL_SIZE. simpl snowman_id. simpl hp.
  simpl isDead. simpl snowman_position. repeat split.
  set (x := if falsy (Some x0) then 10 else x0).
  set (z := if falsy (Some z0) then 10 else z0).
  exists x, z.
  split; [apply (fallback_nonzero (Some x0))|].
  split; [apply (fallback_nonzero (Some z0))|].
  split; [reflexivity|]. split; [intros; lia|]. split; [intros; lia|].
  destruct (fallback_value x0) as [Ex|[Ex0 Ex]];
    destruct (fallback_value z0) as [Ez|[Ez0 Ez]]; fold x in Ex; fold z in Ez.
  - split.
    + intros Hu. rewrite Ex, Ez. unfold x0, z0, maxRange.
      pose proof (Hu m). pose proof (Hu (S m)). lra.
    + intros [Hi|[Hi|Hne]]; [lia|lia|]. rewrite Ex, Ez. apply sqrt_not_lt.
      apply V, A, Hne.
  - split; [|intros _; apply ten_far; auto].
    intros Hu. rewrite Ex, Ez. unfold x0, maxRange. pose proof (Hu m). lra.
  - split; [|intros _; apply ten_far; auto].
    intros Hu. rewrite Ex, Ez. unfold z0, maxRange. pose proof (Hu (S m)). lra.
  - split; [|intros _; apply ten_far; auto].
    intros Hu. rewrite Ex, Ez. lra.
Qed.

Lemma forEach_app {U A : Type} (l k : list A) (body : A -> Gen U unit)
    (s : U * nat) :
  forEach (l ++ k) body s = forEach k body (snd (forEach l body s)).
Proof.
  revert s. induction l as [|a l IH]; intros s; [reflexivity|].
  cbn [app forEach]. unfold bind.
  destruct (body a s) as [u s1]. apply IH.
Qed.

Lemma range_1 (lo : Z) : range lo 1 = [lo].
Proof. now rewrite range_S. Qed.

(** The run over the first [k] snowmen ends at [snowmanStart random k], and
    each of them was placed from where its predecessors ended. *)
Lemma forEach_placeSnowman (k : nat) :
  exists new,
    forEach (range 0 k) (placeSnowman random) ([], O)
    = (tt, (new, snowmanStart random k)) /\
    Forall2 (snowmanOfRun random) (range 0 k) new.
Proof.
  induction k as [|k IH].
  - exists []. split; [reflexivity|constructor].
  - destruct IH as (new & E & HF).
    destruct (placeSnowman_run (Z.of_nat k) new (snowmanStart random k))
      as (sm & n' & Ep & Hsm).
    assert (E' : forEach (range 0 (S k)) (placeSnowman random) ([], O)
                 = (tt, (new ++ [sm], n'))).
    { replace (S k) with (k + 1)%nat by lia. rewrite <- range_app.
      rewrite forEach_app, E. cbn [snd]. rewrite Z.add_0_l.
      rewrite range_1.
      cbn [forEach]. unfold bind at 1. rewrite Ep. reflexivity. }
    exists (new ++ [sm]). split.
    + rewrite E'. unfold snowmanStart at 1. rewrite E'. reflexivity.
    + replace (S k) with (k + 1)%nat by lia. rewrite <- range_app.
      apply Forall2_app; [exact HF|]. rewrite Z.add_0_l.
      rewrite range_1.
      constructor; [|constructor].
      unfold snowmanOfRun. rewrite Nat2Z.id. exact Hsm.
Qed.

Lemma generateSnowmen_run (count : Z) :
  Forall2 (snowmanOfRun random) (range 0 (Z.to_nat count))
          (generateSnowmen random count) /\
  List.length (generateSnowmen random count) = Z.to_nat count /\
  map snowman_id (generateSnowmen random count) = range 0 (Z.to_nat count).
Proof.
  unfold generateSnowmen.
  destruct (forEach_placeSnowman (Z.to_nat count)) as (new & E & HF).
  rewrite E. cbn [fst snd].
  split; [exact HF|]. split.
  - apply Forall2_length in HF. now rewrite range_length in HF.
  - clear E. induction HF as [|i sm l sms Hsm _ IH]; [reflexivity|].
    simpl. rewrite IH. f_equal. apply Hsm.
Qed.


End SnowmenMore.

(* ================================================================== *)
(** * The session that the application starts *)
(* ================================================================== *)

Section AppSession.

Import Session.

Variables random1 random2 : nat -> R.
Hypothesis random1_unit : in_unit random1.

Local Open Scope Z_scope.

Lemma NoDup_range (lo : Z) (n : nat) : NoDup (range lo n).
Proof.
  revert lo. induction n as [|n IH]; intros lo; [apply NoDup_nil_2|].
  rewrite range_S. apply NoDup_cons. split; [|apply IH].
  rewrite list_elem_of_In, In_range. lia.
Qed.

Lemma generateGifts_uncollected (count : Z) :
  Forall (fun g => collected g = false) (generateGifts random1 count).
Proof.
  destruct (generateGifts_structure random1 random1_unit count)
    as (tree & hs & pond & sc & -> & _ & [_ Ht] & [_ Hh] & [_ Hp] & _ & _ & Hs).
  repeat (apply Forall_app; split).
  - apply List.Forall_forall. intros g Hg. apply In_nth_error in Hg.
    destruct Hg as [k Hk]. destruct (Ht k g Hk) as (_ & _ & _ & _ & _ & Hc).
    exact Hc.
  - eapply List.Forall_impl; [|exact Hh]. intros g [_ Hc]. exact Hc.
  - eapply List.Forall_impl; [|exact Hp]. intros g [_ Hc]. exact Hc.
  - eapply List.Forall_impl; [|exact Hs]. intros g (x & z & _ & _ & Hc). exact Hc.
Qed.

Lemma countCollected_none (l : list Gift) :
  Forall (fun g => collected g = false) l -> countCollected l = 0.
Proof.
  induction 1 as [|g l Hg _ IH]; [reflexivity|].
  rewrite countCollected_cons, Hg, IH. reflexivity.
Qed.

Lemma rendered_all_alive (l : list Snowman) :
  Forall (fun sm => isDead sm = false) l -> Scene.renderedSnowmen l = l.
Proof.
  induction 1 as [|sm l Hsm _ IH]; [reflexivity|].
  simpl. rewrite Hsm. simpl. now rewrite IH.
Qed.

Lemma generateSnowmen_fresh (count : Z) :
  Forall (fun sm => hp sm = 3 /\ isDead sm = false /\
                    0 <= snowman_id sm) (generateSnowmen random2 count).
Proof.
  destruct (generateSnowmen_run random2 count) as [HF _].
  remember (range 0 (Z.to_nat count)) as l eqn:El.
  assert (Hl : forall i, In i l -> 0 <= i)
    by (intros i Hi; subst l; apply In_range in Hi; lia).
  clear El. induction HF as [|i sm l sms Hsm _ IH]; constructor.
  - destruct Hsm as (Hid & Hhp & Hd & _). repeat split; auto.
    rewrite Hid. apply Hl. now left.
  - apply IH. intros j Hj. apply Hl. now right.
Qed.

Lemma appSession_fields :
  gifts (appSession random1 random2) = generateGifts random1 30 /\
  snowmen (appSession random1 random2) = generateSnowmen random2 5 /\
  foundCount (appSession random1 random2) = 0 /\
  gameOver (appSession random1 random2) = false.
Proof.
  unfold appSession, initGame, initialState.
  cbn [gifts snowmen foundCount gameOver]. auto.
Qed.

Lemma appSession_inv :
  let s0 := appSession random1 random2 in
  sessionInv s0 /\ foundCount s0 = countCollected (gifts s0) /\
  gameOver s0 = (30 <=? foundCount s0) /\
  aliveCount s0 = 5%nat /\
  (List.length (gifts s0) <= 25)%nat.
Proof.
  intros s0. destruct appSession_fields as (Eg & Es & Ef & Eo).
  fold s0 in Eg, Es, Ef, Eo.
  destruct (generateGifts_structure random1 random1_unit 30)
    as (_ & _ & _ & _ & _ & Hids & _).
  destruct (generateGifts_length random1 random1_unit 30) as [Hlen _].
  destruct (generateSnowmen_run random2 5) as (_ & Hslen & Hsids).
  pose proof (generateSnowmen_fresh 5) as Hfresh.
  rewrite List.Forall_forall in Hfresh.
  split; [constructor|].
  - unfold giftIds. rewrite Eg, Hids. apply NoDup_range.
  - unfold snowmanIds. rewrite Es, Hsids. apply NoDup_range.
  - intros sm Hin _. unfold giftIds. rewrite Eg, Hids. rewrite Es in Hin.
    rewrite In_range. destruct (Hfresh sm Hin) as (_ & _ & Hid0). lia.
  - intros sm Hin. rewrite Es in Hin.
    destruct (Hfresh sm Hin) as (-> & -> & _). split; [lia|reflexivity].
  - rewrite Ef, Eo, Eg. split.
    { now rewrite countCollected_none by apply generateGifts_uncollected. }
    split; [reflexivity|]. split; [|exact Hlen].
    unfold aliveCount. rewrite Es.
    rewrite rendered_all_alive; [exact Hslen|].
    apply List.Forall_forall. intros sm Hin.
    destruct (Hfresh sm Hin) as (_ & Hd & _). exact Hd.
Qed.

(** X7: in the session that [App] starts, with [generateGifts(30)] and
    [generateSnowmen(5)] on an oracle in the unit interval, along every
    sequence of events sent by the rendered scene [foundCount] is the
    number of collected gifts; and the game is over only when
    [generateGifts] had returned 25 gifts, all five snowmen are dead and
    every one of the 30 gifts is collected. *)
Theorem app_session_win (es : list Event) :
  let s0 := appSession random1 random2 in
  Scene.offeredRun es s0 ->
  foundCount (run es s0) = countCollected (gifts (run es s0)) /\
  (gameOver (run es s0) = true ->
     List.length (generateGifts random1 30) = 25%nat /\
     aliveCount (run es s0) = 0%nat /\
     List.length (gifts (run es s0)) = 30%nat /\
     countCollected (gifts (run es s0)) = 30).
Proof.
  intros s0 Hoff.
  destruct appSession_inv as (HI & Hc & Hg & Ha & Hl).
  fold s0 in HI, Hc, Hg, Ha, Hl.
  destruct appSession_fields as (Eg & _). fold s0 in Eg.
  apply offeredRun_knownRun in Hoff.
  pose proof (count_run es s0 HI Hoff Hc) as Hcount.
  split; [exact Hcount|]. intros Hover.
  rewrite (run_gameOver es s0 Hg) in Hover. apply Z.leb_le in Hover.
  pose proof (conservation_run es s0 HI) as Hcons.
  pose proof (countCollected_le (gifts (run es s0))) as Hle.
  rewrite Hcount in Hover. rewrite Eg in Hcons, Hl.
  repeat split; lia.
Qed.

End AppSession.

(* ================================================================== *)
(** * Further properties of the gift placement *)
(* ================================================================== *)

Section GiftsMore.

Variable random : nat -> R.
Hypothesis random_unit : in_unit random.

Local Open Scope R_scope.

(** An index computed as [Math.floor(Math.random() * l.length)] is within
    the array. *)
Lemma pick_in {A : Type} (l : list A) (d : A) (r : R) :
  l <> [] -> 0 <= r < 1 ->
  In (pick l (Zfloor (r * IZR (Z.of_nat (List.length l)))) d) l.
Proof.
  intros Hl Hr.
  assert (Hlen : (0 < Z.of_nat (List.length l))%Z)
    by (destruct l; [contradiction|simpl; lia]).
  set (len := Z.of_nat (List.length l)) in *.
  assert (Hlen' : 0 < IZR len) by (apply IZR_lt; lia).
  pose proof (Zfloor_bound (r * IZR len)) as [Hlo Hhi].
  assert (H0 : (0 <= Zfloor (r * IZR len))%Z).
  { apply Zfloor_lub. simpl. nra. }
  assert (H1 : (Zfloor (r * IZR len) < len)%Z).
  { apply lt_IZR. nra. }
  subst len. unfold pick.
  destruct (Z.ltb_spec (Zfloor (r * IZR (Z.of_nat (List.length l)))) 0);
    [lia|].
  apply nth_In. lia.
Qed.

Lemma addGift_decorated (x y z : R) (type : option GiftType) :
  appends (addGift random x y z type)
    (fun new => exists g, new = [g] /\ gift_position g = (x, y, z) /\
                          decorated g /\
                          (forall t, type = Some t -> gift_type g = t)).
Proof.
  assert (Hc : forall n, In (pick colors
              (Zfloor (random n * IZR (Z.of_nat (List.length colors))))
              "undefined"%string) colors).
  { intros n. apply pick_in; [discriminate|apply random_unit]. }
  assert (Hrot : forall a b c : nat,
            0 <= random a * 0.5 < 0.5 /\ 0 <= random b * PI * 2 < 2 * PI /\
            0 <= random c * 0.5 < 0.5).
  { intros a b c. pose proof (random_unit a). pose proof (random_unit b).
    pose proof (random_unit c). pose proof PI_RGT_0. repeat split; nra. }
  intros [gs idc] n. destruct type as [t|].
  - eexists [_], _. split; [reflexivity|].
    split; [cbn; f_equal; lia|].
    eexists. split; [reflexivity|]. cbn [gift_position]. split; [reflexivity|].
    split; [|now intros ? [= ->]].
    unfold decorated. cbn [gift_color collected gift_rotation].
    split; [apply Hc|]. split; [reflexivity|].
    eexists _, _, _. split; [reflexivity|]. apply Hrot.
  - eexists [_], _. split; [reflexivity|].
    split; [cbn; f_equal; lia|].
    eexists. split; [reflexivity|]. cbn [gift_position]. split; [reflexivity|].
    split; [|discriminate].
    unfold decorated. cbn [gift_color collected gift_rotation].
    split; [apply Hc|]. split; [reflexivity|].
    eexists _, _, _. split; [reflexivity|]. apply Hrot.
Qed.

Lemma Forall2_Forall_concat {A : Type} (Q : Gift -> Prop) (l : list A)
    (parts : list (list Gift)) :
  Forall2 (fun _ new => Forall Q new) l parts -> Forall Q (concat parts).
Proof.
  induction 1 as [|a new l parts Hn _ IH]; simpl; [constructor|].
  now apply Forall_app.
Qed.

Lemma appends_forEach_Forall {A : Type} (l : list A)
    (body : A -> Gen GiftStore unit) (Q : Gift -> Prop) :
  (forall a, In a l -> appends (body a) (Forall Q)) ->
  appends (forEach l body) (Forall Q).
Proof.
  intros Hb. eapply appends_weaken; [|apply appends_forEach, Hb].
  intros new (parts & -> & HF). now apply Forall2_Forall_concat in HF.
Qed.

Lemma appends_one (c : Gen GiftStore unit) (Q : Gift -> Prop) :
  appends c (fun new => exists g, new = [g] /\ Q g) -> appends c (Forall Q).
Proof.
  apply appends_weaken. intros new (g & -> & Hg). now constructor.
Qed.

(** ** The groups *)

Lemma treeStage_decorated :
  appends (forEach (range 0 treeCount) (placeOnTree random))
          (Forall decorated).
Proof.
  apply appends_forEach_Forall. intros i _. unfold placeOnTree.
  apply (appends_random random random_unit); intros rh _.
  apply (appends_random random random_unit); intros ra _.
  apply appends_one. eapply appends_weaken; [|apply addGift_decorated].
  intros new (g & -> & _ & Hd & _). now exists g.
Qed.

Lemma footprint_cases (h : House) :
  In h houses ->
  exists b, In b World.buildings /\
    forall r1 r2, 0 <= r1 < 1 -> 0 <= r2 < 1 ->
      inFootprint b (house_x h + (r1 - 0.5) * (house_w h - 5))
                    (house_z h + (r2 - 0.5) * (house_d h - 5)).
Proof.
  unfold houses. simpl.
  intros [<-|[<-|[<-|[<-|[]]]]]; simpl.
  - exists (World.mkBuilding 50 0 12 16 12 1). split; [simpl; auto|].
    intros r1 r2 H1 H2. unfold inFootprint. simpl.
    destruct (Req_dec_T 1 0); [lra|].
    split; apply Rabs_le; lra.
  - exists (World.mkBuilding 30 (-50) 10 12 10 0). split; [simpl; auto|].
    intros r1 r2 H1 H2. unfold inFootprint. simpl.
    destruct (Req_dec_T 0 0); [|lra].
    split; apply Rabs_le; lra.
  - exists (World.mkBuilding (-40) (-40) 14 10 14 1). split; [simpl; auto|].
    intros r1 r2 H1 H2. unfold inFootprint. simpl.
    destruct (Req_dec_T 1 0); [lra|].
    split; apply Rabs_le; lra.
  - exists (World.mkBuilding 0 60 16 12 11 1). split; [simpl; tauto|].
    intros r1 r2 H1 H2. unfold inFootprint. simpl.
    destruct (Req_dec_T 1 0); [lra|].
    split; apply Rabs_le; lra.
Qed.

Lemma houseStage_placed :
  appends (forEach houses (placeInHouse random))
          (Forall (fun g => decorated g /\ housePlaced g)).
Proof.
  apply appends_forEach_Forall. intros h Hh.
  destruct (footprint_cases h Hh) as (b & Hb & Hfoot).
  unfold placeInHouse.
  apply (appends_random random random_unit); intros rn _.
  apply appends_forEach_Forall. intros k _.
  apply (appends_random random random_unit); intros r1 H1.
  apply (appends_random random random_unit); intros r2 H2.
  apply appends_one. eapply appends_weaken; [|apply addGift_decorated].
  intros new (g & -> & Hpos & Hd & Hty). exists g. split; [reflexivity|].
  split; [exact Hd|]. split; [now apply Hty|].
  exists b, (house_x h + (r1 - 0.5) * (house_w h - 5)),
         (house_z h + (r2 - 0.5) * (house_d h - 5)).
  split; [exact Hb|]. split; [now apply Hfoot|].
  rewrite Hpos. unfold VOXEL_SIZE.
  apply f_equal2; [apply f_equal2|]; lra.
Qed.

Lemma pond_on_ice (a r : R) :
  0 <= r < 12 ->
  distance2 (-35 + cos a * r) (35 + sin a * r) (-35) 35 < 12 /\
  Terrain.getTerrainVoxelY (-35 + cos a * r) (35 + sin a * r) = -2.
Proof.
  intros Hr.
  assert (Hd : sqrt ((-35 + cos a * r - -35) ^ 2 + (35 + sin a * r - 35) ^ 2)
               = r).
  { replace (-35 + cos a * r - -35) with (cos a * r) by lra.
    replace (35 + sin a * r - 35) with (sin a * r) by lra.
    apply circle_radius. lra. }
  split; [unfold distance2; rewrite Hd; lra|].
  unfold Terrain.getTerrainVoxelY. rewrite Hd.
  destruct (Rlt_dec r 16); [reflexivity|lra].
Qed.

Lemma pondStage_placed :
  appends (forEach (range 0 pondCount) (placeOnPond random))
          (Forall (fun g => decorated g /\ pondPlaced g)).
Proof.
  apply appends_forEach_Forall. intros i _. unfold placeOnPond.
  apply (appends_random random random_unit); intros ra _.
  apply (appends_random random random_unit); intros rr Hrr.
  apply appends_one. eapply appends_weaken; [|apply addGift_decorated].
  intros new (g & -> & Hpos & Hd & Hty). exists g. split; [reflexivity|].
  split; [exact Hd|]. split; [now apply Hty|].
  destruct (pond_on_ice (ra * PI * 2) (rr * 12)) as [Hdist Hy]; [lra|].
  exists (-35 + cos (ra * PI * 2) * (rr * 12)),
         (35 + sin (ra * PI * 2) * (rr * 12)).
  split; [exact Hdist|]. split; [exact Hy|].
  rewrite Hpos, Hy. unfold VOXEL_SIZE. reflexivity.
Qed.

Lemma scatterAttempts_placed (left : nat) :
  appends (scatterAttempts random left)
          (Forall (fun g => decorated g /\ scatterPlaced g)).
Proof.
  induction left as [|left IH].
  { eapply appends_weaken; [|apply appends_ret]. intros new ->. constructor. }
  cbn [scatterAttempts].
  apply (appends_random random random_unit); intros rx Hx.
  apply (appends_random random random_unit); intros rz Hz.
  destruct (Rlt_dec _ 6) as [_|Hacc]; [exact IH|].
  apply appends_one. eapply appends_weaken; [|apply addGift_decorated].
  intros new (g & -> & Hpos & Hd & _). exists g. split; [reflexivity|].
  split; [exact Hd|].
  exists ((rx - 0.5) * 160), ((rz - 0.5) * 160).
  split; [lra|]. split; [now apply sqrt_not_lt|].
  rewrite Hpos. unfold VOXEL_SIZE. reflexivity.
Qed.

Lemma scatter_placed (st : GiftStore) (n : nat) :
  exists new n',
    scatter random (st, n) =
      (tt, ({| store_gifts := store_gifts st ++ new;
               idCounter := idCounter st + Z.of_nat (List.length new) |}, n'))
    /\ map gift_id new = range (idCounter st) (List.length new)
    /\ (fun _ new => Forall (fun g => decorated g /\ scatterPlaced g) new)
         (store_gifts st) new.
Proof.
  unfold scatter. unfold bind at 1, get. cbn [fst snd].
  apply appends_forEach_Forall. intros i _. apply scatterAttempts_placed.
Qed.

Lemma appends_and (c : Gen GiftStore unit) (P Q : list Gift -> Prop) :
  appends c P -> appends c Q -> appends c (fun new => P new /\ Q new).
Proof.
  intros HP HQ st n.
  destruct (HP st n) as (new & n' & E & I & Hp).
  destruct (HQ st n) as (new' & n'' & E' & _ & Hq).
  rewrite E in E'. injection E' as E' _ _.
  apply app_inv_head in E'. subst new'.
  exists new, n'. auto.
Qed.

Lemma Forall_and_split {A : Type} (P Q : A -> Prop) (l : list A) :
  Forall (fun a => P a /\ Q a) l -> Forall P l /\ Forall Q l.
Proof.
  intros H. split; eapply List.Forall_impl; try exact H; now intros a [? ?].
Qed.

Lemma generateGifts_layout (count : Z) :
  exists tree hs pond sc,
    generateGifts random count = tree ++ hs ++ pond ++ sc /\
    List.length tree = 12%nat /\
    (forall k g, nth_error tree k = Some g -> treeShape (Z.of_nat k) g) /\
    (4 <= List.length hs <= 8)%nat /\
    List.length pond = 4%nat /\
    Forall decorated tree /\
    Forall (fun g => decorated g /\ housePlaced g) hs /\
    Forall (fun g => decorated g /\ pondPlaced g) pond /\
    Forall (fun g => decorated g /\ scatterPlaced g) sc.
Proof.
  destruct (generateGifts_compose random count _ _ _ _
              (appends_and _ _ _ (treeStage_appends random random_unit)
                                 treeStage_decorated)
              (appends_and _ _ _ (houseStage_appends random random_unit)
                                 houseStage_placed)
              (appends_and _ _ _ (pondStage_appends random random_unit)
                                 pondStage_placed)
              scatter_placed)
    as (tree & hs & pond & sc & Hgen & _ & [[Lt Ts] Dt] & [[Lh _] Dh]
        & [[Lp _] Dp] & Ds).
  exists tree, hs, pond, sc. auto 10.
Qed.


(** X8: under no assumption beyond [Math.random()] returning values of
    [0, 1), every gift that [generateGifts] returns carries a colour of the
    seven-colour palette (the index never leaves the array), is not yet
    collected, and has a rotation drawn in [0, 0.5) x [0, 2 PI) x [0, 0.5). *)
Theorem generateGifts_decorated (count : Z) :
  Forall decorated (generateGifts random count).
Proof.
  destruct (generateGifts_layout count)
    as (tree & hs & pond & sc & -> & _ & _ & _ & _ & Dt & Dh & Dp & Ds).
  apply Forall_and_split in Dh, Dp, Ds.
  repeat (apply Forall_app; split); tauto.
Qed.

(** X9: the gifts placed in houses are the 4 to 8 entries after the twelve
    tree gifts; each is a stocking at height 0.3 whose voxel coordinates lie
    in the rectangle that [generateWorld] builds one of its four houses
    on (rotation included). *)
Theorem house_gifts_in_buildings (count : Z) :
  exists tree hs rest,
    generateGifts random count = tree ++ hs ++ rest /\
    List.length tree = 12%nat /\
    (4 <= List.length hs <= 8)%nat /\
    Forall housePlaced hs.
Proof.
  destruct (generateGifts_layout count)
    as (tree & hs & pond & sc & Hgen & Lt & _ & Lh & _ & _ & Dh & _).
  exists tree, hs, (pond ++ sc). apply Forall_and_split in Dh. tauto.
Qed.

(** X10: the four pond gifts are candy canes less than 12 voxels from the
    pond centre (-35, 35); there the terrain function gives the ice level
    -2, so the literal height [-2 * VOXEL_SIZE + 0.3] of the source is 0.3
    above the terrain. *)
Theorem pond_gifts_on_ice (count : Z) :
  exists before pond sc,
    generateGifts random count = before ++ pond ++ sc /\
    (16 <= List.length before <= 20)%nat /\
    List.length pond = 4%nat /\
    Forall pondPlaced pond.
Proof.
  destruct (generateGifts_layout count)
    as (tree & hs & pond & sc & Hgen & Lt & _ & Lh & Lp & _ & _ & Dp & _).
  exists (tree ++ hs), pond, sc. apply Forall_and_split in Dp.
  rewrite <- app_assoc, length_app. repeat split; try tauto; lia.
Qed.

Lemma Rabs_scaled (c r : R) :
  -1 <= c <= 1 -> 0 <= r <= 80 -> Rabs (c * r * 0.25) <= 20.
Proof. intros Hc Hr. apply Rabs_le. nra. Qed.

Lemma Rabs_le_bounds (a b : R) : Rabs a <= b -> - b <= a <= b.
Proof. unfold Rabs. destruct (Rcase_abs a); lra. Qed.

Lemma treeShape_inSquare (k : Z) (g : Gift) : treeShape k g -> inSquare g.
Proof.
  intros (hf & angle & Hhf & [Hpos _] & _). unfold inSquare. rewrite Hpos.
  assert (Hr : 0 <= World.currentRadius (hf * 100) + 1.5 <= 80).
  { unfold World.currentRadius, World.maxRadius, World.treeHeight.
    pose proof (SIN_bound (hf * 100 * 0.5)). lra. }
  split; apply Rabs_scaled; auto using COS_bound, SIN_bound.
Qed.

Lemma housePlaced_inSquare (g : Gift) : housePlaced g -> inSquare g.
Proof.
  intros (_ & b & X & Z & Hb & Hfoot & Hpos). unfold inSquare. rewrite Hpos.
  unfold inFootprint in Hfoot. simpl in Hb.
  destruct Hb as [<-|[<-|[<-|[<-|[]]]]]; simpl in Hfoot;
    destruct (Req_dec_T _ 0); try lra;
    destruct Hfoot as [H1%Rabs_le_bounds H2%Rabs_le_bounds];
    split; apply Rabs_le; lra.
Qed.

Lemma sq_sum_pos (u v : R) : 0 <= u * u + v * v.
Proof. nra. Qed.

Lemma sq_sum_bound (u v c : R) :
  0 < c -> u * u + v * v < c * c -> - c < u < c.
Proof.
  intros Hc H. pose proof (Rle_0_sqr v) as Hv. unfold Rsqr in Hv.
  split; apply Rnot_le_lt; intros Hu.
  - assert (0 <= (- c - u) * (c - u)) by (apply Rmult_le_pos; lra). nra.
  - assert (0 <= (u - c) * (u + c)) by (apply Rmult_le_pos; lra). nra.
Qed.

Lemma pondPlaced_inSquare (g : Gift) : pondPlaced g -> inSquare g.
Proof.
  intros (_ & px & pz & Hd & _ & Hpos). unfold inSquare. rewrite Hpos.
  unfold distance2 in Hd.
  assert (Hsq : (px - -35) ^ 2 + (pz - 35) ^ 2 < 12 * 12).
  { apply sqrt_lt_bound; [|lra|exact Hd].
    apply Rplus_le_le_0_compat; apply pow2_ge_0. }
  cbn [pow] in Hsq. rewrite !Rmult_1_r in Hsq.
  assert (Hx : - (12) < px - -35 < 12)
    by (eapply sq_sum_bound; [|exact Hsq]; lra).
  assert (Hz : - (12) < pz - 35 < 12)
    by (eapply sq_sum_bound; [|rewrite Rplus_comm; exact Hsq]; lra).
  split; apply Rabs_le; lra.
Qed.

Lemma scatterPlaced_inSquare (g : Gift) : scatterPlaced g -> inSquare g.
Proof.
  intros (x & z & [Hx Hz] & _ & Hpos). unfold inSquare. rewrite Hpos.
  split; apply Rabs_le; lra.
Qed.

(** X11: every gift of [generateGifts], whatever its group, lies within 20
    world units (80 voxels) of the tree axis in both horizontal
    coordinates, hence inside the bounding square of the island of radius
    90 voxels. *)
Theorem gifts_within_square (count : Z) :
  Forall inSquare (generateGifts random count).
Proof.
  destruct (generateGifts_layout count)
    as (tree & hs & pond & sc & -> & _ & Ts & _ & _ & _ & Dh & Dp & Ds).
  apply Forall_and_split in Dh, Dp, Ds.
  repeat (apply Forall_app; split).
  - apply List.Forall_forall. intros g Hg.
    apply In_nth_error in Hg as [k Hk].
    eapply treeShape_inSquare, Ts, Hk.
  - eapply List.Forall_impl; [apply housePlaced_inSquare|tauto].
  - eapply List.Forall_impl; [apply pondPlaced_inSquare|tauto].
  - eapply List.Forall_impl; [apply scatterPlaced_inSquare|tauto].
Qed.

End GiftsMore.

(* ================================================================== *)
(** * The pond of the world generator *)
(* ================================================================== *)

Section PondMore.

Import World WorldInv Pond.

Variable random : nat -> R.
Hypothesis random_range : forall n, (0 <= random n < 1)%R.

Local Open Scope Z_scope.

Lemma lockstep_safe {A : Type} (cols : list (Z * Z)) (c : Gen WorldStore A) :
  safe c -> hoare (lockstep cols) c (lockstep cols).
Proof.
  intros Hc w n [Hi Hw]. destruct (Hc w n) as (Ei & Ew & _).
  unfold lockstep. rewrite Ei, Ew. auto.
Qed.

Lemma midColumn_safe {A : Type} (cols : list (Z * Z)) (c0 : Z * Z) (y : Z)
    (c : Gen WorldStore A) :
  safe c -> hoare (midColumn cols c0 y) c (midColumn cols c0 y).
Proof.
  intros Hc w n [Hi Hw]. destruct (Hc w n) as (Ei & Ew & _).
  unfold midColumn. rewrite Ei, Ew. auto.
Qed.

Lemma midColumn_next (cols : list (Z * Z)) (c : Z * Z) (y : Z)
    (w : WorldStore) :
  y <> -2 -> y <> -6 -> midColumn cols c y w -> midColumn cols c (y + 1) w.
Proof.
  unfold midColumn, pondIceY, pondWaterY. intros H2 H6 [Hi Hw].
  destruct (Z.ltb_spec (-2) y), (Z.ltb_spec (-2) (y + 1)); try lia;
    destruct (Z.ltb_spec (-6) y), (Z.ltb_spec (-6) (y + 1)); try lia; auto.
Qed.

Lemma insideb_insidePond (x z : Z) : insideb (x, z) = true <-> insidePond x z.
Proof.
  unfold insideb, insidePond. cbn [fst snd].
  destruct (Rlt_dec _ _); split; auto; discriminate.
Qed.

(** A column strictly inside the pond lies in the square
    [-51 < x < -19], [19 < z < 51]. *)
Lemma insidePond_box (x z : Z) :
  insidePond x z -> (-51 < x < -19) /\ (19 < z < 51).
Proof.
  unfold insidePond, pondCenter_x, pondCenter_z, pondRadius. intros H.
  assert (Hsq : ((IZR x - -35) * (IZR x - -35)
                 + (IZR z - 35) * (IZR z - 35) < 16 * 16)%R).
  { apply sqrt_lt_bound; [apply sq_sum_pos|lra|].
    replace ((IZR x - -35) * (IZR x - -35) + (IZR z - 35) * (IZR z - 35))%R
      with ((IZR x - -35) ^ 2 + (IZR z - 35) ^ 2)%R by ring.
    replace 16%R with (18 - 2)%R by lra. exact H. }
  assert (Hx : (- (16) < IZR x - -35 < 16)%R)
    by (eapply sq_sum_bound; [|exact Hsq]; lra).
  assert (Hz : (- (16) < IZR z - 35 < 16)%R)
    by (eapply sq_sum_bound; [|rewrite Rplus_comm; exact Hsq]; lra).
  repeat split; apply lt_IZR; lra.
Qed.

Lemma insidePond_in_world (x z : Z) :
  insidePond x z ->
  ~ (IZR WORLD_RADIUS < sqrt (IZR x * IZR x + IZR z * IZR z))%R.
Proof.
  intros H. apply insidePond_box in H. destruct H as [[H1 H2] [H3 H4]].
  apply IZR_lt in H1, H2, H3, H4. unfold WORLD_RADIUS. intros Hfar.
  assert (Hlt : (sqrt (IZR x * IZR x + IZR z * IZR z) < 90)%R).
  { apply sqrt_lt_bound; [apply sq_sum_pos|lra|nra]. }
  lra.
Qed.

Lemma columnCell_ice_mid (cols : list (Z * Z)) (x z : Z) (isPath : bool)
    (surfaceY bottomY surfaceColor y : Z) :
  hoare (midColumn cols (x, z) y)
        (columnCell random x z true isPath surfaceY bottomY surfaceColor y)
        (midColumn cols (x, z) (y + 1)).
Proof.
  unfold columnCell. cbv zeta. unfold pondIceY, pondWaterY.
  destruct (Z.eqb_spec y (-2)) as [->|Hice].
  { intros w n [Hi Hw]. unfold after, modify, midColumn. cbn [fst snd].
    unfold push_ice. cbn [interactiveIce waterVoxels].
    rewrite Hi, Hw. unfold pondIceY, pondWaterY.
    change (-2 <? -2) with false. change (-6 <? -2) with true.
    change (-2 <? -6) with false. change (-6 <? -6) with false.
    change (-2 <? -2 + 1) with true. change (-6 <? -2 + 1) with true.
    change (-2 <? -6 + 1) with false. change (-6 <? -6 + 1) with true.
    rewrite ?app_nil_r. split; reflexivity. }
  destruct ((y <? -2) && (-6 <? y)) eqn:Egap.
  { eapply hoare_weaken; [| |apply hoare_ret]; [intros w Hw; exact Hw|].
    intros w. apply midColumn_next; lia. }
  destruct (Z.eqb_spec y (-6)) as [->|Hwater].
  { intros w n [Hi Hw]. unfold after, modify, midColumn. cbn [fst snd].
    unfold push_water. cbn [interactiveIce waterVoxels].
    rewrite Hi, Hw. unfold pondIceY, pondWaterY.
    change (-2 <? -2) with false. change (-6 <? -2) with true.
    change (-2 <? -6) with false. change (-6 <? -6) with false.
    change (-2 <? -2 + 1) with true. change (-6 <? -2 + 1) with true.
    change (-2 <? -6 + 1) with false. change (-6 <? -6 + 1) with true.
    rewrite ?app_nil_r. split; reflexivity. }
  apply (hoare_weaken (midColumn cols (x, z) y) _ (midColumn cols (x, z) y));
    [auto|intros w; apply midColumn_next; lia|].
  apply midColumn_safe.
  destruct (Z.ltb_spec y (-6)) as [Hlow|_]; [|apply safe_ret].
  assert (Hfree : ~ reserved (Math_round (IZR x), Math_round (IZR y),
                              Math_round (IZR z))).
  { rewrite !Math_round_IZR. unfold reserved, pondIceY, pondWaterY.
    intros [[?|?] _]; lia. }
  destruct (y =? _); [apply safe_add, Hfree|].
  destruct (_ <? 2); [apply safe_add, Hfree|apply safe_ret].
Qed.

Lemma terrainColumn_lockstep (cols : list (Z * Z)) (x z : Z) :
  hoare (lockstep cols) (terrainColumn random x z)
        (lockstep (cols ++ List.filter insideb [(x, z)])).
Proof.
  unfold terrainColumn. cbv zeta.
  destruct (Rlt_dec _ _) as [Hskip|_].
  { eapply hoare_weaken; [| |apply hoare_ret]; [intros w Hw; exact Hw|].
    intros w Hw. cbn [List.filter].
    destruct (insideb (x, z)) eqn:Ein; [|now rewrite app_nil_r].
    apply insideb_insidePond in Ein.
    exfalso. now apply (insidePond_in_world x z). }
  apply (hoare_bind _ (lockstep cols) _ (fun _ => True)).
  { intros w n Hw. split; [exact I|exact Hw]. }
  intros w0 _.
  apply (hoare_bind _ (lockstep cols) _
           (fun surface : Z * Z * bool =>
              let '(surfaceY, _, isIceSurface) := surface in
              (isIceSurface = true -> insidePond x z /\ surfaceY = -2) /\
              (isIceSurface = false -> ~ insidePond x z))).
  { intros w n Hw. unfold after.
    destruct (Rltb _ pondRadius) eqn:Epond.
    - destruct (Rlt_dec _ (pondRadius - 2)) as [Hin|Hout]; cbn.
      + split; [|exact Hw]. repeat split; auto; discriminate.
      + split; [|exact Hw]. repeat split; try discriminate; auto.
    - assert (Hout : ~ insidePond x z).
      { intros Hin. apply insidePond_isPond in Hin. congruence. }
      destruct (decide _); cbn; (split; [|exact Hw]);
        repeat split; try discriminate; auto. }
  intros [[surfaceY surfaceColor] isIceSurface] (Hice & Hplain).
  match goal with
  | |- hoare _ (forEach (range ?b _) _) _ => set (bottomY := b)
  end.
  assert (Hb : bottomY <= surfaceY - 5) by apply bottomY_below.
  destruct isIceSurface.
  - destruct (Hice eq_refl) as [Hin ->].
    eapply hoare_weaken;
      [| |apply (hoare_forEach_range (midColumn cols (x, z)))].
    + intros w [Hi Hw]. unfold midColumn, pondIceY, pondWaterY.
      destruct (Z.ltb_spec (-2) bottomY); [lia|].
      destruct (Z.ltb_spec (-6) bottomY); [lia|].
      rewrite !app_nil_r. auto.
    + intros w [Hi Hw]. cbn [List.filter].
      apply insideb_insidePond in Hin. rewrite Hin.
      unfold lockstep. rewrite !map_app. cbn [map].
      unfold pondIceY, pondWaterY in Hi, Hw.
      destruct (Z.ltb_spec (-2) (bottomY + Z.of_nat (Z.to_nat (-2 - bottomY + 1))));
        [|lia].
      destruct (Z.ltb_spec (-6) (bottomY + Z.of_nat (Z.to_nat (-2 - bottomY + 1))));
        [|lia].
      auto.
    + intros y _. apply columnCell_ice_mid.
  - specialize (Hplain eq_refl). cbn [List.filter].
    destruct (insideb (x, z)) eqn:Ein;
      [apply insideb_insidePond in Ein; contradiction|].
    rewrite app_nil_r. apply lockstep_safe, safe_forEach.
    intros y _. now apply columnCell_plain.
Qed.

(** A loop whose steps each append [f a] to the list that indexes the
    invariant. *)
Lemma hoare_forEach_acc {A B : Type} (f : A -> list B)
    (P : list B -> WorldStore -> Prop) (l : list A)
    (body : A -> Gen WorldStore unit) :
  (forall a acc, In a l -> hoare (P acc) (body a) (P (acc ++ f a))) ->
  forall acc, hoare (P acc) (forEach l body) (P (acc ++ flat_map f l)).
Proof.
  induction l as [|a l IH]; intros Hb acc.
  - cbn [forEach flat_map]. rewrite app_nil_r. apply hoare_ret.
  - cbn [forEach flat_map]. rewrite app_assoc.
    eapply hoare_seq; [apply Hb; now left|apply IH].
    intros a' acc' Ha'. apply Hb. now right.
Qed.

Lemma filter_flat_map {A B : Type} (p : B -> bool) (f : A -> list B)
    (l : list A) :
  List.filter p (flat_map f l) = flat_map (fun a => List.filter p (f a)) l.
Proof.
  induction l as [|a l IH]; [reflexivity|].
  cbn [flat_map]. now rewrite List.filter_app, IH.
Qed.

Lemma filter_map_single {A B : Type} (p : B -> bool) (g : A -> B)
    (l : list A) :
  List.filter p (map g l) = flat_map (fun a => List.filter p [g a]) l.
Proof.
  induction l as [|a l IH]; [reflexivity|].
  cbn [map flat_map List.filter]. rewrite IH.
  destruct (p (g a)); reflexivity.
Qed.

Lemma terrainRow_lockstep (zs : list Z) (x : Z) (acc : list (Z * Z)) :
  hoare (lockstep acc)
        (forEach zs (fun z => terrainColumn random x z))
        (lockstep (acc ++ List.filter insideb (map (pair x) zs))).
Proof.
  rewrite filter_map_single.
  apply (hoare_forEach_acc (fun z => List.filter insideb [(x, z)]) lockstep).
  intros z acc' _. apply terrainColumn_lockstep.
Qed.

Lemma terrainRows_lockstep (xs zs : list Z) :
  hoare (lockstep [])
        (forEach xs (fun x =>
           forEach zs (fun z => terrainColumn random x z)))
        (lockstep (List.filter insideb
                     (flat_map (fun x => map (pair x) zs) xs))).
Proof.
  rewrite filter_flat_map.
  exact (hoare_forEach_acc
           (fun x => List.filter insideb (map (pair x) zs)) lockstep xs
           (fun x => forEach zs (fun z => terrainColumn random x z))
           (fun x acc _ => terrainRow_lockstep zs x acc) []).
Qed.

Lemma terrain_lockstep :
  hoare (lockstep []) (terrain random) (lockstep pondColumns).
Proof. exact (terrainRows_lockstep axis axis). Qed.

Lemma generateWorld_lockstep : lockstep pondColumns (generateWorld random).
Proof.
  unfold generateWorld.
  change (fst (snd (generateWorld_body random (emptyWorld, O))))
    with (after (generateWorld_body random) emptyWorld O).
  assert (H : hoare (lockstep []) (generateWorld_body random)
                    (lockstep pondColumns));
    [|apply H; split; reflexivity].
  unfold generateWorld_body.
  apply (hoare_seq _ (lockstep [])).
  { apply lockstep_safe, safe_forEach. intros b _.
    unfold buildingPaths. cbv zeta.
    apply safe_bind; [now apply safe_createPath|intros _].
    destruct (Req_dec_T _ _); now apply safe_createPath. }
  apply (hoare_seq _ (lockstep [])).
  { apply lockstep_safe. unfold ringPaths.
    repeat (apply safe_bind; [now apply safe_createPath|intros _]).
    now apply safe_createPath. }
  apply (hoare_seq _ (lockstep []));
    [now apply lockstep_safe, safe_houses|].
  apply (hoare_seq _ (lockstep pondColumns)); [apply terrain_lockstep|].
  apply (hoare_seq _ (lockstep pondColumns));
    [apply lockstep_safe, safe_trunk|].
  apply (hoare_seq _ (lockstep pondColumns));
    [now apply lockstep_safe, safe_canopy|].
  apply lockstep_safe, safe_starTop.
Qed.

Lemma In_pondColumns (x z : Z) : In (x, z) pondColumns <-> insidePond x z.
Proof.
  unfold pondColumns. rewrite List.filter_In, insideb_insidePond.
  split; [tauto|]. intros Hin. split; [|exact Hin].
  apply insidePond_box in Hin. unfold grid, axis, WORLD_RADIUS.
  apply in_flat_map. exists x. split; [apply In_range; lia|].
  apply in_map, In_range. lia.
Qed.

(** X12: the ice sheet and the water line of [generateWorld] go in
    lockstep.  With [cols] the integer columns less than 16 from the pond
    centre (-35, 35), in the order of the terrain loops, [interactiveIce]
    holds exactly one voxel per column at elevation -2 and [waterVoxels]
    exactly one per column at elevation -6, in the same order: every ice
    voxel lies four cells above a water voxel, and the three cells between
    them hold no pond voxel. *)
Theorem pond_ice_over_water :
  let w := generateWorld random in
  interactiveIce w = map iceAt pondColumns /\
  waterVoxels w = map waterAt pondColumns /\
  (forall x z, In (x, z) pondColumns <-> insidePond x z) /\
  List.length (interactiveIce w) = List.length (waterVoxels w) /\
  (forall v, In v (interactiveIce w ++ waterVoxels w) ->
     voxel_y v = -2 \/ voxel_y v = -6).
Proof.
  intros w. destruct generateWorld_lockstep as [Hi Hw]. fold w in Hi, Hw.
  split; [exact Hi|]. split; [exact Hw|]. split; [apply In_pondColumns|].
  split; [now rewrite Hi, Hw, !length_map|].
  intros v Hv. rewrite Hi, Hw in Hv. apply in_app_iff in Hv.
  destruct Hv as [Hv|Hv]; apply in_map_iff in Hv;
    destruct Hv as (c & <- & _); auto.
Qed.

(** X21: the ice of the world lies where the terrain function of [App]
    says the pond is.  For every integer column, [generateWorld] holds the
    ice voxel of the column exactly when the column is less than 16 from
    (-35, 35), the pond test of [getTerrainVoxelY]; there
    [getTerrainVoxelY] gives the elevation -2 of that voxel, and the cell
    is not marked occupied. *)
Theorem ice_where_terrain_says (x z : Z) :
  let w := generateWorld random in
  (In (iceAt (x, z)) (interactiveIce w)
   <-> (distance2 (IZR x) (IZR z) (-35) 35 < 16)%R) /\
  (In (iceAt (x, z)) (interactiveIce w) ->
   Terrain.getTerrainVoxelY (IZR x) (IZR z) = IZR (voxel_y (iceAt (x, z)))
   /\ key (iceAt (x, z)) ∉ occupied w).
Proof.
  intros w. destruct generateWorld_lockstep as [Hi _]. fold w in Hi.
  assert (Hin : In (iceAt (x, z)) (interactiveIce w) <-> insidePond x z).
  { rewrite Hi, <- In_pondColumns. split.
    - intros H. apply in_map_iff in H. destruct H as ([x' z'] & E & H).
      unfold iceAt in E. cbn [fst snd] in E. now injection E as -> ->.
    - apply in_map. }
  assert (Hd : insidePond x z
               <-> (distance2 (IZR x) (IZR z) (-35) 35 < 16)%R).
  { unfold insidePond, distance2, pondCenter_x, pondCenter_z, pondRadius.
    replace (18 - 2)%R with 16%R by lra. reflexivity. }
  split; [now rewrite Hin, Hd|].
  intros H. split.
  - apply Hin, Hd in H. unfold distance2 in H.
    unfold Terrain.getTerrainVoxelY.
    destruct (Rlt_dec _ 16) as [_|Hn]; [reflexivity|contradiction].
  - destruct (generateWorld_endInv random random_range) as [HI _].
    fold w in HI. intros Hocc. apply (inv_occupied_free w HI _ Hocc).
    apply (inv_pond_reserved w HI). unfold pondVoxels.
    apply in_app_iff. now left.
Qed.

End PondMore.

(* ================================================================== *)
(** * Framing: what each stage of the world generator leaves alone *)
(* ================================================================== *)

Section FrameFacts.

Import World WorldInv Frame.

Variable random : nat -> R.

Local Open Scope Z_scope.

Lemma keeps_ret {X A : Type} (proj : WorldStore -> X) (a : A) :
  keeps proj (ret a).
Proof. intros w n. reflexivity. Qed.

Lemma keeps_bind {X A B : Type} (proj : WorldStore -> X)
    (c : Gen WorldStore A) (k : A -> Gen WorldStore B) :
  keeps proj c -> (forall a, keeps proj (k a)) -> keeps proj (bind c k).
Proof.
  intros Hc Hk w n. unfold after, bind.
  specialize (Hc w n). unfold after in Hc.
  destruct (c (w, n)) as [a [w1 n1]]. cbn [fst snd] in *.
  rewrite <- Hc. apply (Hk a w1 n1).
Qed.

Lemma keeps_get {X : Type} (proj : WorldStore -> X) : keeps proj get.
Proof. intros w n. reflexivity. Qed.

Lemma keeps_random {X : Type} (proj : WorldStore -> X) :
  keeps proj (Math_random random).
Proof. intros w n. reflexivity. Qed.

Lemma keeps_modify {X : Type} (proj : WorldStore -> X)
    (f : WorldStore -> WorldStore) :
  (forall w, proj (f w) = proj w) -> keeps proj (modify f).
Proof. intros Hf w n. apply Hf. Qed.

Lemma keeps_forEach {X A : Type} (proj : WorldStore -> X) (l : list A)
    (body : A -> Gen WorldStore unit) :
  (forall a, keeps proj (body a)) -> keeps proj (forEach l body).
Proof.
  intros Hb. induction l as [|a l IH]; cbn [forEach]; [apply keeps_ret|].
  apply keeps_bind; [apply Hb|intros _; exact IH].
Qed.

Lemma keeps_forFold {X A S : Type} (proj : WorldStore -> X) (l : list A)
    (s : S) (body : A -> S -> Gen WorldStore S) :
  (forall a s', keeps proj (body a s')) -> keeps proj (forFold l s body).
Proof.
  intros Hb. revert s.
  induction l as [|a l IH]; intros s; cbn [forFold]; [apply keeps_ret|].
  apply keeps_bind; [apply Hb|intros s'; apply IH].
Qed.

Lemma keeps_orElse {X : Type} (proj : WorldStore -> X) (a : bool)
    (c : Gen WorldStore bool) :
  keeps proj c -> keeps proj (orElse a c).
Proof. intros Hc. destruct a; [apply keeps_ret|exact Hc]. Qed.

Lemma keeps_add {X : Type} (proj : WorldStore -> X) (x y z : R) (color : Z)
    (isGlowing : bool) :
  aside proj -> keeps proj (add x y z color isGlowing).
Proof.
  intros (Hr & Hg & Ho). unfold add. cbv zeta.
  apply keeps_bind; [apply keeps_get|intros w0].
  destruct (decide _); [apply keeps_ret|].
  apply keeps_bind; [apply keeps_modify, Ho|intros _].
  destruct isGlowing; apply keeps_modify; [apply Hg|apply Hr].
Qed.

Lemma aside_doors : aside doors.
Proof. repeat split. Qed.

Ltac keeps_step :=
  lazymatch goal with
  | |- keeps _ (ret _) => apply keeps_ret
  | |- keeps _ get => apply keeps_get
  | |- keeps _ (Math_random _) => apply keeps_random
  | |- keeps _ (bind _ _) => apply keeps_bind; [|intros ?]
  | |- keeps _ (orElse _ _) => apply keeps_orElse
  | |- keeps _ (forEach _ _) => apply keeps_forEach; intros ?
  | |- keeps _ (forFold _ _ _) => apply keeps_forFold; intros ? ?
  | |- keeps _ (add _ _ _ _ _) => apply keeps_add, aside_doors
  | |- keeps _ (modify _) => apply keeps_modify; intros ?; reflexivity
  | |- keeps _ (if ?b then _ else _) => destruct b
  | |- keeps _ (let '(_, _) := ?p in _) => destruct p
  end.

Lemma keeps_doors_buildLamp (x y z : R) : keeps doors (buildLamp x y z).
Proof. unfold buildLamp. cbv zeta. repeat keeps_step. Qed.

Lemma keeps_doors_createPath (x1 z1 x2 z2 widthOverride : R) :
  keeps doors (createPath random x1 z1 x2 z2 widthOverride).
Proof.
  unfold createPath. cbv zeta. repeat keeps_step.
  apply keeps_doors_buildLamp.
Qed.

Lemma keeps_doors_paths :
  keeps doors (forEach buildings (buildingPaths random)) /\
  keeps doors (ringPaths random).
Proof.
  split.
  - keeps_step. unfold buildingPaths. cbv zeta.
    repeat keeps_step; apply keeps_doors_createPath.
  - unfold ringPaths. repeat keeps_step; apply keeps_doors_createPath.
Qed.

Lemma keeps_doors_chimneyCell (cx cz width height rotation y : R)
    (cx_ cz_ : Z) :
  keeps doors (chimneyCell random cx cz width height rotation y cx_ cz_).
Proof. unfold chimneyCell. cbv zeta. repeat keeps_step. Qed.

Lemma keeps_doors_terrain : keeps doors (terrain random).
Proof.
  unfold terrain. do 2 keeps_step.
  unfold terrainColumn. cbv zeta. keeps_step; [apply keeps_ret|].
  keeps_step; [apply keeps_get|].
  apply keeps_bind;
    [repeat keeps_step|intros [[surfaceY surfaceColor] isIceSurface]].
  keeps_step. unfold columnCell. cbv zeta. repeat keeps_step.
Qed.

Lemma keeps_doors_trunk : keeps doors trunk.
Proof. unfold trunk. cbv zeta. repeat keeps_step. Qed.

Lemma keeps_doors_canopy : keeps doors (canopy random).
Proof.
  unfold canopy. cbv zeta. do 3 keeps_step.
  unfold canopyCell. cbv zeta. repeat keeps_step.
Qed.

Lemma keeps_doors_starTop : keeps doors starTop.
Proof. unfold starTop. cbv zeta. repeat keeps_step. Qed.

(** ** The door flag of [buildHouse] *)

Lemma doorStep_ret (d : DoorData) (b : bool) : doorStep d b (ret b).
Proof. intros w n. left. split; reflexivity. Qed.

Lemma doorStep_keeps_bind {A : Type} (d : DoorData) (b : bool)
    (c : Gen WorldStore A) (k : A -> Gen WorldStore bool) :
  keeps doors c -> (forall a, doorStep d b (k a)) ->
  doorStep d b (bind c k).
Proof.
  intros Hc Hk w n. unfold after, bind.
  specialize (Hc w n). unfold after in Hc.
  destruct (c (w, n)) as [a [w1 n1]]. cbn [fst snd] in *.
  rewrite <- Hc. apply (Hk a w1 n1).
Qed.

Lemma doorStep_forFold {A : Type} (d : DoorData) (l : list A)
    (body : A -> bool -> Gen WorldStore bool) :
  (forall a b, doorStep d b (body a b)) ->
  forall b, doorStep d b (forFold l b body).
Proof.
  intros Hb. induction l as [|a l IH]; intros b; cbn [forFold];
    [apply doorStep_ret|].
  intros w n. unfold after, bind.
  destruct (Hb a b w n) as [[Hf Hd]|(Hf0 & Hf & Hd)]; unfold after in Hd;
    destruct (body a b (w, n)) as [b1 [w1 n1]]; cbn [fst snd] in *.
  - subst b1. rewrite <- Hd. apply (IH b w1 n1).
  - subst b b1. right. split; [reflexivity|].
    destruct (IH true w1 n1) as [[Hf Hd']|(Hf0 & _)]; [|discriminate].
    unfold after in Hd'. split; [exact Hf|]. now rewrite Hd', Hd.
Qed.

(** The flag is never unset; it is set once the loop has passed an element
    that always sets it. *)
Lemma forFold_sets_flag {A : Type} (d : DoorData) (l : list A)
    (body : A -> bool -> Gen WorldStore bool) :
  (forall a b, doorStep d b (body a b)) ->
  (exists a, In a l /\ sets_flag body a) ->
  forall b w n, fst (forFold l b body (w, n)) = true.
Proof.
  intros Hb (a0 & Hin & Hset).
  assert (Hmono : forall l' w n, fst (forFold l' true body (w, n)) = true).
  { intros l' w n.
    destruct (doorStep_forFold d l' body Hb true w n) as [[Hf _]|(Hf & _)];
      [exact Hf|discriminate]. }
  induction l as [|a l IH]; [destruct Hin|].
  intros b w n. cbn [forFold]. unfold bind.
  destruct Hin as [->|Hin].
  - specialize (Hset b w n).
    destruct (body a0 b (w, n)) as [b1 [w1 n1]]. cbn [fst] in Hset.
    subst b1. apply Hmono.
  - destruct (body a b (w, n)) as [b1 [w1 n1]]. now apply IH.
Qed.

Lemma doorStep_houseCell (cx cz width depth height rotation y x z : R)
    (b : bool) :
  doorStep (doorOf (mkBuilding cx cz width depth height rotation)) b
    (houseCell random cx cz width depth height rotation y x z b).
Proof.
  unfold houseCell. cbv zeta.
  destruct (Rlt_dec y height).
  - destruct (_ || _).
    + destruct (_ && _ && _).
      * destruct (negb b && _ && _) eqn:E.
        -- destruct b; [discriminate E|].
           intros w n. right. repeat split.
        -- apply doorStep_ret.
      * apply doorStep_keeps_bind; [repeat keeps_step|intros isDarkBrick].
        apply doorStep_keeps_bind; [repeat keeps_step|intros _].
        apply doorStep_ret.
    + destruct (Req_dec_T y 0); [|apply doorStep_ret].
      apply doorStep_keeps_bind; [repeat keeps_step|intros _].
      apply doorStep_ret.
  - destruct (_ && _); [|apply doorStep_ret].
    apply doorStep_keeps_bind; [repeat keeps_step|intros isSnowTop].
    apply doorStep_keeps_bind; [repeat keeps_step|intros _].
    apply doorStep_ret.
Qed.

(** At the cell [y = 0], [x = -2], [z = depth / 2] of a house that is not
    flat, the flag is set on return. *)
Lemma houseCell_sets_flag (cx cz width depth height rotation y x z : R) :
  (0 < height)%R -> (0 <= depth)%R ->
  y = 0%R -> x = (-2)%R -> z = (depth / 2)%R ->
  forall b w n,
    fst (houseCell random cx cz width depth height rotation y x z b (w, n))
    = true.
Proof.
  intros Hh Hd -> -> -> b w n. unfold houseCell. cbv zeta.
  destruct (Rlt_dec 0 height); [|lra].
  assert (Ewall : Rleb (width / 2 - 1) (Rabs (-2))
                  || Rleb (depth / 2 - 1) (Rabs (depth / 2)) = true).
  { apply orb_true_iff. right. unfold Rleb.
    destruct (Rle_dec _ _) as [|Hn]; [reflexivity|].
    exfalso. apply Hn. rewrite Rabs_pos_eq; lra. }
  rewrite Ewall.
  assert (Edoor : Rltb (Rabs (depth / 2 - depth / 2)) 1.5
                  && (Rleb (-2) (-2) && Rleb (-2) 1) && Rltb 0 7 = true).
  { unfold Rltb, Rleb.
    replace (depth / 2 - depth / 2)%R with 0%R by lra. rewrite Rabs_R0.
    destruct (Rlt_dec 0 1.5); [|lra]. destruct (Rle_dec (-2) (-2)); [|lra].
    destruct (Rle_dec (-2) 1); [|lra]. destruct (Rlt_dec 0 7); [|lra].
    reflexivity. }
  rewrite Edoor.
  destruct b; cbn [negb andb]; [reflexivity|].
  unfold Reqb. destruct (Req_dec_T (-2) (-2)); [|lra].
  destruct (Req_dec_T 0 0); [|lra]. reflexivity.
Qed.

Lemma In_stepsR_le_nth (lo hi step : R) (k : nat) :
  (0 < step)%R -> (lo + INR k * step <= hi)%R ->
  In (lo + INR k * step)%R (stepsR_le lo hi step).
Proof.
  intros Hs Hk. unfold stepsR_le. apply in_map_iff. exists k.
  split; [reflexivity|]. apply in_seq. split; [lia|].
  assert (Hz : Z.of_nat k <= Zfloor ((hi - lo) / step)).
  { apply Zfloor_lub. rewrite <- INR_IZR_INZ.
    apply Rmult_le_reg_r with step; [exact Hs|].
    unfold Rdiv. rewrite Rmult_assoc, Rinv_l; lra. }
  lia.
Qed.

Lemma In_stepsR_lt_nth (lo hi step : R) (k : nat) :
  (0 < step)%R -> (lo + INR k * step < hi)%R ->
  In (lo + INR k * step)%R (stepsR_lt lo hi step).
Proof.
  intros Hs Hk. unfold stepsR_lt. apply in_map_iff. exists k.
  split; [reflexivity|]. apply in_seq. split; [lia|].
  assert (Hz : Z.of_nat k < Zceil ((hi - lo) / step)).
  { apply lt_IZR. rewrite <- INR_IZR_INZ.
    apply Rlt_le_trans with ((hi - lo) / step)%R;
      [|apply Zceil_bound].
    apply Rmult_lt_reg_r with step; [exact Hs|].
    unfold Rdiv. rewrite Rmult_assoc, Rinv_l; lra. }
  lia.
Qed.

Lemma doors_after_seq {A : Type} (c : Gen WorldStore A)
    (k : Gen WorldStore unit) (ds : list DoorData) (w : WorldStore)
    (n : nat) :
  doors (after c w n) = ds -> keeps doors k ->
  doors (after (bind c (fun _ => k)) w n) = ds.
Proof.
  unfold after, bind. intros Hc Hk.
  destruct (c (w, n)) as [a [w1 n1]]. cbn [fst snd] in *.
  rewrite <- Hc. apply (Hk w1 n1).
Qed.

(** Each of the four buildings visits its door cell. *)
Lemma door_cell_visited (b : Building) :
  In b buildings ->
  (0 < b_h b)%R /\ (0 <= b_d b)%R /\
  (exists y, In y (stepsR_lt 0 (b_h b + 8) 1) /\ y = 0%R) /\
  (exists x, In x (stepsR_le (- b_w b / 2) (b_w b / 2) 1) /\ x = (-2)%R) /\
  (exists z, In z (stepsR_le (- b_d b / 2) (b_d b / 2) 1)
             /\ z = (b_d b / 2)%R).
Proof.
  unfold buildings. cbn [In].
  intros [<-|[<-|[<-|[<-|[]]]]]; cbn [b_h b_d b_w];
    (split; [lra|]); (split; [lra|]); split.
  - exists (0 + INR 0 * 1)%R. split; [apply In_stepsR_lt_nth|]; simpl; lra.
  - split.
    + exists (- (12) / 2 + INR 4 * 1)%R.
      split; [apply In_stepsR_le_nth|]; simpl; lra.
    + exists (- (16) / 2 + INR 16 * 1)%R.
      split; [apply In_stepsR_le_nth|]; simpl; lra.
  - exists (0 + INR 0 * 1)%R. split; [apply In_stepsR_lt_nth|]; simpl; lra.
  - split.
    + exists (- (10) / 2 + INR 3 * 1)%R.
      split; [apply In_stepsR_le_nth|]; simpl; lra.
    + exists (- (12) / 2 + INR 12 * 1)%R.
      split; [apply In_stepsR_le_nth|]; simpl; lra.
  - exists (0 + INR 0 * 1)%R. split; [apply In_stepsR_lt_nth|]; simpl; lra.
  - split.
    + exists (- (14) / 2 + INR 5 * 1)%R.
      split; [apply In_stepsR_le_nth|]; simpl; lra.
    + exists (- (10) / 2 + INR 10 * 1)%R.
      split; [apply In_stepsR_le_nth|]; simpl; lra.
  - exists (0 + INR 0 * 1)%R. split; [apply In_stepsR_lt_nth|]; simpl; lra.
  - split.
    + exists (- (16) / 2 + INR 6 * 1)%R.
      split; [apply In_stepsR_le_nth|]; simpl; lra.
    + exists (- (12) / 2 + INR 12 * 1)%R.
      split; [apply In_stepsR_le_nth|]; simpl; lra.
Qed.

Lemma buildHouse_doors (b : Building) (w : WorldStore) (n : nat) :
  In b buildings ->
  doors (after (buildHouse random (b_x b) (b_z b) (b_w b) (b_d b) (b_h b)
                           (b_r b)) w n)
  = doors w ++ [doorOf b].
Proof.
  intros Hb.
  destruct (door_cell_visited b Hb)
    as (Hh & Hd & (y0 & Hy & Ey) & (x0 & Hx & Ex) & (z0 & Hz & Ez)).
  destruct b as [cx cz width depth height rotation].
  cbn [b_x b_z b_w b_d b_h b_r] in *.
  set (D := doorOf (mkBuilding cx cz width depth height rotation)).
  set (cellZ := fun y x => fun z flag =>
         houseCell random cx cz width depth height rotation y x z flag).
  set (cellX := fun y => fun x flag =>
         forFold (stepsR_le (- depth / 2) (depth / 2) 1) flag (cellZ y x)).
  set (cellY := fun y flag =>
         forFold (stepsR_le (- width / 2) (width / 2) 1) flag (cellX y)).
  assert (SZ : forall y x z flag, doorStep D flag (cellZ y x z flag))
    by (intros; apply doorStep_houseCell).
  assert (SX : forall y x flag, doorStep D flag (cellX y x flag))
    by (intros; apply doorStep_forFold; apply SZ).
  assert (SY : forall y flag, doorStep D flag (cellY y flag))
    by (intros; apply doorStep_forFold; apply SX).
  assert (TY : sets_flag cellY y0).
  { intros flag w1 n1. apply (forFold_sets_flag D); [apply SX|].
    exists x0. split; [exact Hx|]. intros flag' w2 n2.
    apply (forFold_sets_flag D); [apply SZ|].
    exists z0. split; [exact Hz|]. intros flag'' w3 n3.
    now apply houseCell_sets_flag. }
  unfold buildHouse. apply doors_after_seq.
  - change (doors (after (forFold (stepsR_lt 0 (height + 8) 1) false cellY)
                         w n) = doors w ++ [D]).
    pose proof (forFold_sets_flag D _ cellY SY
                  (ex_intro _ y0 (conj Hy TY)) false w n) as Hflag.
    destruct (doorStep_forFold D (stepsR_lt 0 (height + 8) 1) cellY SY
                false w n) as [[Hf _]|(_ & _ & Hdoors)];
      [congruence|exact Hdoors].
  - do 3 keeps_step. apply keeps_doors_chimneyCell.
Qed.

Lemma houses_doors (l : list Building) (w : WorldStore) (n : nat) :
  (forall b, In b l -> In b buildings) ->
  doors (after (forEach l (fun b =>
                  buildHouse random (b_x b) (b_z b) (b_w b) (b_d b) (b_h b)
                             (b_r b))) w n)
  = doors w ++ map doorOf l.
Proof.
  revert w n. induction l as [|b l IH]; intros w n Hl.
  - cbn. now rewrite app_nil_r.
  - cbn [forEach map]. unfold after, bind.
    pose proof (buildHouse_doors b w n (Hl b (or_introl eq_refl))) as Hb.
    unfold after in Hb.
    destruct (buildHouse _ _ _ _ _ _ _ (w, n)) as [u [w1 n1]].
    cbn [fst snd] in *.
    specialize (IH w1 n1 (fun b' Hb' => Hl b' (or_intror Hb'))).
    unfold after in IH. rewrite IH, Hb, <- app_assoc. reflexivity.
Qed.

(** X13: [generateWorld] records exactly one door for each of the four
    buildings, in the order of [buildings]: the flag of [buildHouse] lets
    the first door cell of a house push the door and none after it, and no
    other stage touches the array.  Each door sits on the ground at the
    hinge [rotate(-2.5, depth / 2)] of its house and is turned by
    [-PI / 2] exactly when the house is rotated. *)
Theorem one_door_per_house :
  doors (generateWorld random) = map doorOf buildings /\
  List.length (doors (generateWorld random)) = 4%nat.
Proof.
  assert (H : doors (generateWorld random) = map doorOf buildings).
  { unfold generateWorld.
    change (fst (snd (generateWorld_body random (emptyWorld, O))))
      with (after (generateWorld_body random) emptyWorld O).
    unfold generateWorld_body.
    destruct keeps_doors_paths as [K1 K2].
    pose proof (keeps_bind doors _ _ K1 (fun _ => K2)) as K12.
    set (stage3 := forEach buildings (fun b =>
           buildHouse random (b_x b) (b_z b) (b_w b) (b_d b) (b_h b)
                      (b_r b))).
    assert (Krest : keeps doors
              (bind (terrain random) (fun _ =>
                 bind trunk (fun _ =>
                   bind (canopy random) (fun _ => starTop))))).
    { apply keeps_bind; [apply keeps_doors_terrain|intros _].
      apply keeps_bind; [apply keeps_doors_trunk|intros _].
      apply keeps_bind; [apply keeps_doors_canopy|intros _].
      apply keeps_doors_starTop. }
    unfold after, bind.
    specialize (K1 emptyWorld O). unfold after in K1.
    destruct (forEach buildings (buildingPaths random) (emptyWorld, O))
      as [u1 [w1 n1]]. cbn [fst snd] in K1.
    specialize (K2 w1 n1). unfold after in K2.
    destruct (ringPaths random (w1, n1)) as [u2 [w2 n2]].
    cbn [fst snd] in K2.
    pose proof (houses_doors buildings w2 n2 (fun b Hb => Hb)) as Hh.
    fold stage3 in Hh. unfold after in Hh.
    destruct (stage3 (w2, n2)) as [u3 [w3 n3]]. cbn [fst snd] in Hh.
    specialize (Krest w3 n3). unfold after, bind in Krest.
    rewrite Krest, Hh, K2, K1. reflexivity. }
  split; [exact H|]. rewrite H. reflexivity.
Qed.

(** ** The occupancy check of [add] *)

Lemma add_occupied_grows (x y z : R) (color : Z) (isGlowing : bool)
    (w : WorldStore) (n : nat) (k : Key) :
  k ∈ occupied w -> k ∈ occupied (after (add x y z color isGlowing) w n).
Proof.
  intros Hk. unfold after, add, bind, get. cbn [fst snd].
  destruct (decide _) as [Hin|Hout]; [exact Hk|].
  destruct isGlowing; unfold modify; cbn [fst snd]; simpl;
    apply elem_of_union; now right.
Qed.

(** X14: the first writer of a cell wins.  Once [add] has returned, a
    second [add] whose coordinates round to the same cell changes nothing,
    whatever its colour and glow; and [add] never frees a cell. *)
Theorem add_first_wins (x y z x' y' z' : R) (c c' : Z) (g g' : bool)
    (w : WorldStore) (n n' : nat) :
  (Math_round x', Math_round y', Math_round z')
    = (Math_round x, Math_round y, Math_round z) ->
  let w1 := after (add x y z c g) w n in
  after (add x' y' z' c' g') w1 n' = w1 /\
  (forall k, k ∈ occupied w -> k ∈ occupied w1).
Proof.
  intros Hkey w1. split.
  - unfold after at 1. unfold add at 1. unfold bind, get. cbn [fst snd].
    rewrite Hkey.
    destruct (decide _) as [Hin|Hout]; [reflexivity|].
    exfalso. apply Hout, add_occupies.
  - intros k. apply add_occupied_grows.
Qed.

End FrameFacts.

(* ================================================================== *)
(** * The cracks of the ice pond *)
(* ================================================================== *)

Section CrackFacts.

Import IcePond.

Variable random : nat -> R.
Hypothesis random_unit : in_unit random.

Local Open Scope R_scope.

(** ** Rules for [grows] *)

Lemma grows_weaken (c : Gen (list Vec3) unit) (P Q : list Vec3 -> Prop) :
  (forall new, P new -> Q new) -> grows c P -> grows c Q.
Proof.
  intros HPQ Hc pts n. destruct (Hc pts n) as (new & n' & E & HP).
  exists new, n'. auto.
Qed.

Lemma grows_ret : grows (ret tt) (fun new => new = []).
Proof. intros pts n. exists [], n. now rewrite app_nil_r. Qed.

Lemma grows_random_bind (k : R -> Gen (list Vec3) unit)
    (P : list Vec3 -> Prop) :
  (forall r, 0 <= r < 1 -> grows (k r) P) ->
  grows (bind (Math_random random) k) P.
Proof.
  intros Hk pts n.
  destruct (Hk (random n) (random_unit n) pts (S n)) as (new & n' & E & HP).
  exists new, n'. split; [exact E|exact HP].
Qed.

Lemma grows_seq (c1 c2 : Gen (list Vec3) unit) (P Q : list Vec3 -> Prop) :
  grows c1 P -> grows c2 Q ->
  grows (bind c1 (fun _ => c2))
        (fun new => exists a b, new = a ++ b /\ P a /\ Q b).
Proof.
  intros H1 H2 pts n.
  destruct (H1 pts n) as (a & n1 & E1 & Ha).
  destruct (H2 (pts ++ a) n1) as (b & n2 & E2 & Hb).
  exists (a ++ b), n2. unfold bind. rewrite E1, E2, <- app_assoc.
  split; [reflexivity|]. now exists a, b.
Qed.

(** ** The recursion *)

Lemma addJaggedLine_grows (depth : nat) :
  forall (p1 p2 : Vec3) (maxOffset : R),
    0 <= maxOffset ->
    grows (addJaggedLine random p1 p2 depth maxOffset)
      (fun new =>
         chain p1 new p2 /\
         List.length new = (2 * 2 ^ depth)%nat /\
         (vy p1 = vy p2 -> Forall (fun p => vy p = vy p1) new) /\
         (forall lo hi, lo <= vx p1 <= hi -> lo <= vx p2 <= hi ->
            Forall (fun p => lo - maxOffset <= vx p <= hi + maxOffset) new) /\
         (forall lo hi, lo <= vz p1 <= hi -> lo <= vz p2 <= hi ->
            Forall (fun p => lo - maxOffset <= vz p <= hi + maxOffset) new)).
Proof.
  induction depth as [|depth IH]; intros p1 p2 off Hoff.
  - intros pts n. exists [p1; p2], n.
    unfold addJaggedLine, push_point, bind, modify. cbn [fst snd].
    rewrite <- app_assoc. split; [reflexivity|].
    split; [constructor|]. split; [reflexivity|].
    split; [intros Hy; constructor; [|constructor; [|constructor]]; auto|].
    split; intros lo hi H1 H2;
      (constructor; [lra|constructor; [lra|constructor]]).
  - cbn [addJaggedLine]. cbv zeta.
    apply grows_random_bind; intros r1 Hr1.
    apply grows_random_bind; intros r2 Hr2.
    unfold lerpVectors. cbn [vx vy vz fst snd].
    set (mid := (vx p1 + (vx p2 - vx p1) * 0.5 + (r1 - 0.5) * off,
                 vy p1 + (vy p2 - vy p1) * 0.5,
                 vz p1 + (vz p2 - vz p1) * 0.5 + (r2 - 0.5) * off)).
    assert (Hhalf : 0 <= off * 0.5) by lra.
    eapply grows_weaken;
      [|apply grows_seq; [apply (IH p1 mid (off * 0.5) Hhalf)
                         |apply (IH mid p2 (off * 0.5) Hhalf)]].
    intros new (a & b & -> & (Ca & La & Ya & Xa & Za)
                & (Cb & Lb & Yb & Xb & Zb)).
    assert (Emx : vx mid = vx p1 + (vx p2 - vx p1) * 0.5 + (r1 - 0.5) * off)
      by reflexivity.
    assert (Emy : vy mid = vy p1 + (vy p2 - vy p1) * 0.5) by reflexivity.
    assert (Emz : vz mid = vz p1 + (vz p2 - vz p1) * 0.5 + (r2 - 0.5) * off)
      by reflexivity.
    clearbody mid.
    split; [now apply chain_app with mid|].
    split; [rewrite length_app, La, Lb; cbn [Nat.pow]; lia|].
    split; [|split].
    + intros Hy. assert (Hm : vy mid = vy p1) by (rewrite Emy; lra).
      apply Forall_app. split; [apply Ya; lra|].
      eapply List.Forall_impl; [|apply Yb; lra].
      intros p Hp. cbn beta in Hp. lra.
    + intros lo hi H1 H2.
      assert (Hm : lo - off * 0.5 <= vx mid <= hi + off * 0.5)
        by (rewrite Emx; nra).
      apply Forall_app. split.
      * eapply List.Forall_impl;
          [|apply (Xa (lo - off * 0.5) (hi + off * 0.5)); lra].
        intros p Hp. cbn beta in Hp. lra.
      * eapply List.Forall_impl;
          [|apply (Xb (lo - off * 0.5) (hi + off * 0.5)); lra].
        intros p Hp. cbn beta in Hp. lra.
    + intros lo hi H1 H2.
      assert (Hm : lo - off * 0.5 <= vz mid <= hi + off * 0.5)
        by (rewrite Emz; nra).
      apply Forall_app. split.
      * eapply List.Forall_impl;
          [|apply (Za (lo - off * 0.5) (hi + off * 0.5)); lra].
        intros p Hp. cbn beta in Hp. lra.
      * eapply List.Forall_impl;
          [|apply (Zb (lo - off * 0.5) (hi + off * 0.5)); lra].
        intros p Hp. cbn beta in Hp. lra.
Qed.

(** What [chain] says in terms of positions: an even number of points,
    the first and last being the two ends, and every odd position equal to
    the next one. *)
Lemma chain_joined (a b d : Vec3) (l : list Vec3) :
  chain a l b ->
  (exists k, List.length l = (2 * S k)%nat) /\
  nth 0 l d = a /\
  nth (List.length l - 1) l d = b /\
  (forall i, (2 * i + 2 < List.length l)%nat ->
     nth (2 * i + 1) l d = nth (2 * i + 2) l d).
Proof.
  induction 1 as [a b|a m b l1 l2 _ IH1 _ IH2].
  - split; [exists O; reflexivity|]. split; [reflexivity|].
    split; [reflexivity|]. intros i Hi. cbn [List.length] in Hi. lia.
  - destruct IH1 as ([k1 L1] & F1 & E1 & J1).
    destruct IH2 as ([k2 L2] & F2 & E2 & J2).
    split; [exists (S (k1 + k2)); rewrite length_app; lia|].
    split; [rewrite app_nth1; [exact F1|lia]|].
    split.
    { rewrite length_app, app_nth2; [|lia].
      replace (List.length l1 + List.length l2 - 1 - List.length l1)%nat
        with (List.length l2 - 1)%nat by lia.
      exact E2. }
    intros i Hi. rewrite length_app in Hi.
    destruct (Nat.lt_trichotomy (2 * i + 2) (List.length l1)) as [Hlt|[Heq|Hgt]].
    + rewrite !app_nth1 by lia. now apply J1.
    + rewrite app_nth1 by lia. rewrite app_nth2 by lia.
      replace (2 * i + 1)%nat with (List.length l1 - 1)%nat by lia.
      replace (2 * i + 2 - List.length l1)%nat with O by lia.
      now rewrite E1, F2.
    + rewrite !app_nth2 by lia.
      replace (2 * i + 1 - List.length l1)%nat
        with (2 * (i - S k1) + 1)%nat by lia.
      replace (2 * i + 2 - List.length l1)%nat
        with (2 * (i - S k1) + 2)%nat by lia.
      apply J2. lia.
Qed.

(** X15: [addJaggedLine(p1, p2, depth, maxOffset)] only appends to
    [points]: [2 ^ depth] line segments, given by [2 * 2 ^ depth] end
    points, that form one unbroken polyline from [p1] to [p2].  When both
    ends are at one height every point is; and with [Math.random()] in
    [0, 1) no point leaves the span of the two ends by more than
    [maxOffset] along x or z. *)
Theorem addJaggedLine_polyline (p1 p2 : Vec3) (depth : nat) (maxOffset : R)
    (points : list Vec3) (n : nat) :
  0 <= maxOffset ->
  exists new n',
    addJaggedLine random p1 p2 depth maxOffset (points, n)
      = (tt, (points ++ new, n')) /\
    List.length new = (2 * 2 ^ depth)%nat /\
    nth 0 new p1 = p1 /\
    nth (List.length new - 1) new p1 = p2 /\
    (forall i, (2 * i + 2 < List.length new)%nat ->
       nth (2 * i + 1) new p1 = nth (2 * i + 2) new p1) /\
    (vy p1 = vy p2 -> Forall (fun p => vy p = vy p1) new) /\
    Forall (fun p =>
              Rmin (vx p1) (vx p2) - maxOffset <= vx p
                <= Rmax (vx p1) (vx p2) + maxOffset /\
              Rmin (vz p1) (vz p2) - maxOffset <= vz p
                <= Rmax (vz p1) (vz p2) + maxOffset) new.
Proof.
  intros Hoff.
  destruct (addJaggedLine_grows depth p1 p2 maxOffset Hoff points n)
    as (new & n' & E & C & L & Y & X & Z).
  exists new, n'. split; [exact E|]. split; [exact L|].
  destruct (chain_joined p1 p2 p1 new C) as (_ & F & La & J).
  split; [exact F|]. split; [exact La|]. split; [exact J|].
  split; [exact Y|].
  assert (X1 : Rmin (vx p1) (vx p2) <= vx p1 <= Rmax (vx p1) (vx p2))
    by (split; [apply Rmin_l|apply Rmax_l]).
  assert (X2 : Rmin (vx p1) (vx p2) <= vx p2 <= Rmax (vx p1) (vx p2))
    by (split; [apply Rmin_r|apply Rmax_r]).
  assert (Z1 : Rmin (vz p1) (vz p2) <= vz p1 <= Rmax (vz p1) (vz p2))
    by (split; [apply Rmin_l|apply Rmax_l]).
  assert (Z2 : Rmin (vz p1) (vz p2) <= vz p2 <= Rmax (vz p1) (vz p2))
    by (split; [apply Rmin_r|apply Rmax_r]).
  specialize (X _ _ X1 X2). specialize (Z _ _ Z1 Z2).
  apply List.Forall_forall. intros p Hp.
  rewrite List.Forall_forall in X, Z. split; [now apply X|now apply Z].
Qed.

(** ** Spokes and rings *)

Lemma counted_line (p1 p2 : Vec3) (off d e : R) (depth k : nat) :
  0 <= off -> e + off <= d ->
  (2 * 2 ^ depth = 16 * k)%nat ->
  nearCentre e p1 -> nearCentre e p2 ->
  grows (addJaggedLine random p1 p2 depth off) (counted (nearCentre d) k k).
Proof.
  intros Hoff Hd Hk (Y1 & X1 & Z1) (Y2 & X2 & Z2).
  eapply grows_weaken; [|apply (addJaggedLine_grows depth p1 p2 off Hoff)].
  intros new (_ & L & Y & X & Z). exists k.
  split; [lia|]. split; [lia|].
  specialize (Y ltac:(congruence)).
  specialize (X _ _ X1 X2). specialize (Z _ _ Z1 Z2).
  apply List.Forall_forall. intros p Hp.
  rewrite List.Forall_forall in Y, X, Z.
  specialize (Y p Hp). specialize (X p Hp). specialize (Z p Hp).
  cbn beta in Y, X, Z. unfold nearCentre. repeat split; try lra; congruence.
Qed.

Lemma on_circle (a r e : R) :
  0 <= r <= e ->
  nearCentre e (centerX + cos a * r, surfaceY, centerZ + sin a * r).
Proof.
  intros Hr. pose proof (COS_bound a). pose proof (SIN_bound a).
  unfold nearCentre, vx, vy, vz. cbn [fst snd].
  split; [reflexivity|]. split; nra.
Qed.

Lemma spoke_counted (i : Z) :
  grows (spoke random i) (counted (nearCentre 4.9) 4 4).
Proof.
  unfold spoke. cbv zeta.
  apply grows_random_bind; intros ra Hra.
  apply grows_random_bind; intros rs Hrs.
  apply grows_random_bind; intros re Hre.
  apply (counted_line _ _ 0.5 4.9 4.4 5 4); [lra|lra|reflexivity| |];
    apply on_circle; unfold pondRadius, VOXEL_SIZE; lra.
Qed.

Lemma ringSegment_counted (r : R) (segments j : Z) :
  0 <= r <= 4 ->
  grows (ringSegment random r segments j) (counted (nearCentre 4.9) 0 1).
Proof.
  intros Hr. unfold ringSegment. cbv zeta.
  apply grows_random_bind; intros g Hg.
  destruct (Rlt_dec 0.6 g).
  - eapply grows_weaken; [|apply grows_ret].
    intros new ->. exists O. split; [reflexivity|]. split; [lia|constructor].
  - eapply grows_weaken;
      [|apply (counted_line _ _ 0.3 4.9 4 3 1); [lra|lra|reflexivity| |];
        apply on_circle; lra].
    intros new (k & L & B & F). exists k. split; [exact L|].
    split; [lia|exact F].
Qed.

Lemma grows_forEach_counted {A : Type} (Q : Vec3 -> Prop) (l : list A)
    (body : A -> Gen (list Vec3) unit) (lo hi : A -> nat) :
  (forall a, In a l -> grows (body a) (counted Q (lo a) (hi a))) ->
  grows (forEach l body)
        (counted Q (list_sum (map lo l)) (list_sum (map hi l))).
Proof.
  induction l as [|a l IH]; intros Hb.
  - eapply grows_weaken; [|apply grows_ret].
    intros new ->. exists O. split; [reflexivity|].
    split; [cbn; lia|constructor].
  - cbn [forEach].
    eapply grows_weaken;
      [|apply grows_seq;
        [apply Hb; now left|apply IH; intros a' Ha'; apply Hb; now right]].
    intros new (x & y & -> & (k1 & L1 & B1 & F1) & (k2 & L2 & B2 & F2)).
    exists (k1 + k2)%nat. split; [rewrite length_app; lia|].
    split; [|now apply Forall_app].
    change (list_sum (map lo (a :: l))) with (lo a + list_sum (map lo l))%nat.
    change (list_sum (map hi (a :: l))) with (hi a + list_sum (map hi l))%nat.
    lia.
Qed.

Lemma list_sum_const {A : Type} (c : nat) (l : list A) :
  list_sum (map (fun _ => c) l) = (List.length l * c)%nat.
Proof.
  induction l as [|a l IH]; [reflexivity|].
  change (list_sum (map (fun _ : A => c) (a :: l)))
    with (c + list_sum (map (fun _ : A => c) l))%nat.
  rewrite IH. cbn [List.length]. lia.
Qed.

Lemma ring_counted (i : Z) :
  (0 <= i < 8)%Z ->
  grows (ring random i)
        (counted (nearCentre 4.9) 0 (Z.to_nat (12 + i * 2))).
Proof.
  intros Hi. unfold ring. cbv zeta.
  assert (Hr : 0 <= pondRadius * (0.2 + IZR i / IZR numRings * 0.8) <= 4).
  { unfold pondRadius, VOXEL_SIZE, numRings.
    assert (0 <= IZR i) by (apply IZR_le; lia).
    assert (IZR i <= 8) by (apply IZR_le; lia).
    split; nra. }
  eapply grows_weaken;
    [|apply (grows_forEach_counted (nearCentre 4.9) _ _
               (fun _ => O) (fun _ => 1%nat));
      intros j _; now apply ringSegment_counted].
  intros new (k & L & B & F). exists k. split; [exact L|].
  rewrite !list_sum_const, range_length in B. split; [lia|exact F].
Qed.

(** X16: under [Math.random()] in [0, 1), the points that [crackGeometry]
    hands to [setFromPoints] are the 12 spokes of 32 segments each,
    followed by 8 segments for each ring piece that is not skipped, of
    which there are at most 152: an even number of points between 768 and
    3200.  Every point lies at the height [surfaceY] just above the ice,
    and within 4.9 world units of the pond centre along x and z. *)
Theorem crackGeometry_points :
  exists kept : nat,
    (kept <= 152)%nat /\
    List.length (crackGeometry random) = (768 + 16 * kept)%nat /\
    Forall (nearCentre 4.9) (crackGeometry random).
Proof.
  assert (Hs : grows (forEach (range 0 (Z.to_nat numSpokes)) (spoke random))
                     (counted (nearCentre 4.9) 48 48)).
  { eapply grows_weaken;
      [|apply (grows_forEach_counted (nearCentre 4.9) _ _
                 (fun _ => 4%nat) (fun _ => 4%nat));
        intros i _; apply spoke_counted].
    intros new. now rewrite !list_sum_const, range_length. }
  assert (Hr : grows (forEach (range 0 (Z.to_nat numRings)) (ring random))
                     (counted (nearCentre 4.9) 0 152)).
  { eapply grows_weaken;
      [|apply (grows_forEach_counted (nearCentre 4.9) _ _ (fun _ => O)
                 (fun i => Z.to_nat (12 + i * 2)));
        intros i Hi; apply ring_counted; apply In_range in Hi;
        unfold numRings in Hi; lia].
    intros new (k & L & B & F). exists k. split; [exact L|].
    split; [|exact F]. rewrite list_sum_const in B.
    change (list_sum (map (fun i => Z.to_nat (12 + i * 2))
                          (range 0 (Z.to_nat numRings)))) with 152%nat in B.
    lia. }
  destruct (grows_seq _ _ _ _ Hs Hr [] O)
    as (new & n' & E & a & b & -> & (k1 & L1 & B1 & F1) & (k2 & L2 & B2 & F2)).
  unfold crackGeometry, crackGeometry_body. rewrite E. cbn [fst snd app].
  exists k2. split; [lia|]. split; [rewrite length_app; lia|].
  apply Forall_app. split; assumption.
Qed.

End CrackFacts.

(* ================================================================== *)
(** * The falling snow *)
(* ================================================================== *)

Section SnowFacts.

Import Snow.

Variable random : nat -> R.
Hypothesis random_unit : in_unit random.

Local Open Scope R_scope.

Lemma newParticle_run (temp : list Particle) (n : nat) :
  exists p,
    newParticle random (temp, n) = (tt, (temp ++ [p], (n + 5)%nat)) /\
    inVolume p /\ 10 <= py p.
Proof.
  eexists. split.
  - unfold newParticle, bind, Math_random, modify. cbn [fst snd].
    replace (S (S (S (S (S n))))) with (n + 5)%nat by lia. reflexivity.
  - pose proof (random_unit n). pose proof (random_unit (S n)).
    pose proof (random_unit (S (S n))).
    pose proof (random_unit (S (S (S n)))).
    pose proof (random_unit (S (S (S (S n))))).
    unfold inVolume. cbn [px py pz speed offset]. repeat split; lra.
Qed.

Lemma particles_run {A : Type} (l : list A) (temp : list Particle)
    (n : nat) :
  exists new n',
    forEach l (fun _ => newParticle random) (temp, n)
      = (tt, (temp ++ new, n')) /\
    List.length new = List.length l /\ Forall inVolume new.
Proof.
  revert temp n. induction l as [|a l IH]; intros temp n.
  - exists [], n. rewrite app_nil_r. repeat split. constructor.
  - destruct (newParticle_run temp n) as (p & E & Hp & _).
    destruct (IH (temp ++ [p]) (n + 5)%nat) as (new & n' & E' & L & F).
    exists (p :: new), n'. cbn [forEach]. unfold bind. rewrite E, E'.
    rewrite <- app_assoc. split; [reflexivity|].
    split; [cbn [List.length]; lia|]. now constructor.
Qed.

Lemma fall_inVolume (p : Particle) : inVolume p -> inVolume (fall p).
Proof.
  unfold inVolume, fall. cbn [px py pz speed offset].
  intros (Hx & Hy & Hz & Hs & Ho).
  destruct (Rlt_dec _ _); repeat split; lra.
Qed.

Lemma frames_map (k : nat) (ps : list Particle) :
  List.length (frames k ps) = List.length ps /\
  map px (frames k ps) = map px ps /\
  map pz (frames k ps) = map pz ps /\
  map speed (frames k ps) = map speed ps /\
  map offset (frames k ps) = map offset ps /\
  (Forall inVolume ps -> Forall inVolume (frames k ps)).
Proof.
  revert ps. induction k as [|k IH]; intros ps; [repeat split; auto|].
  cbn [frames]. destruct (IH (frame ps)) as (L & X & Z & S & O & V).
  unfold frame in *. rewrite length_map in L. rewrite map_map in X, Z, S, O.
  repeat split; auto.
  intros Hps. apply V. apply List.Forall_forall. intros q Hq.
  apply in_map_iff in Hq. destruct Hq as (p & <- & Hp).
  rewrite List.Forall_forall in Hps. apply fall_inVolume. now apply Hps.
Qed.

(** X17: the snow never leaves its volume.  The 3000 particles start, and
    stay after any number of frames, with [-5 <= y <= 50]; a frame changes
    nothing but [y], so that [x] and [z] stay in [-40, 40) and the speed in
    [0.01, 0.05); and the position given to an instance is never more than
    0.2 away from the particle along x and z, at the particle's height. *)
Theorem snow_stays_in_volume (k : nat) :
  let ps := frames k (particles random) in
  List.length ps = 3000%nat /\
  Forall inVolume ps /\
  map px ps = map px (particles random) /\
  map pz ps = map pz (particles random) /\
  map speed ps = map speed (particles random) /\
  (forall time p, In p ps ->
     let '(x, y, z) := displayed time p in
     Rabs (x - px p) <= 0.2 /\ y = py p /\ Rabs (z - pz p) <= 0.2).
Proof.
  intros ps.
  destruct (particles_run (range 0 count) [] O) as (new & n' & E & L & F).
  assert (Ep : particles random = new).
  { unfold particles. rewrite E. reflexivity. }
  destruct (frames_map k (particles random)) as (Lk & X & Z & S & _ & V).
  fold ps in Lk, X, Z, S, V.
  split; [rewrite Lk, Ep, L; apply range_length|].
  split; [apply V; rewrite Ep; exact F|].
  split; [exact X|]. split; [exact Z|]. split; [exact S|].
  intros time p _. unfold displayed. cbv zeta.
  pose proof (SIN_bound (time + offset p)).
  pose proof (COS_bound (time * 0.8 + offset p)).
  split; [apply Rabs_le; lra|]. split; [reflexivity|apply Rabs_le; lra].
Qed.

End SnowFacts.

(* ================================================================== *)
(** * Keyboard motion of the camera *)
(* ================================================================== *)

Section CameraFacts.

Import IcePond CameraRig.

Local Open Scope R_scope.

Lemma lengthSq_nonneg (a : Vec3) : 0 <= lengthSq a.
Proof. unfold lengthSq. nra. Qed.

(** A vector that is not null is normalised to length 1. *)
Lemma normalize_unit (a : Vec3) :
  0 < lengthSq a -> lengthSq (normalize a) = 1.
Proof.
  intros Hpos. unfold normalize, length.
  assert (HL : 0 < sqrt (lengthSq a)) by now apply sqrt_lt_R0.
  destruct (Req_dec_T _ 0) as [E|_]; [lra|].
  set (L := sqrt (lengthSq a)) in *.
  assert (HLL : L * L = lengthSq a) by (apply sqrt_sqrt; lra).
  unfold lengthSq in *. cbn [vx vy vz fst snd] in *.
  field_simplify_eq; [|lra]. lra.
Qed.

Lemma normalize_level (a : Vec3) : vy a = 0 -> vy (normalize a) = 0.
Proof.
  intros Hy. unfold normalize. cbn [vx vy vz fst snd]. rewrite Hy.
  unfold Rdiv. apply Rmult_0_l.
Qed.

(** X18: keyboard motion is level and rigid.  A frame of [CameraRig]
    leaves the height of the camera and of the orbit target alone and moves
    both by the same vector, so that the camera keeps its offset from the
    target; and when it moves at all it moves by exactly [40 * delta],
    whichever keys are held, so that walking diagonally is not faster. *)
Theorem camera_motion_level_and_rigid (keys : Keys) (delta : R)
    (fq rq camera target : Vec3) :
  0 <= delta ->
  let camera' := fst (frame keys delta fq rq camera target) in
  let target' := snd (frame keys delta fq rq camera target) in
  vy camera' = vy camera /\ vy target' = vy target /\
  sub camera' target' = sub camera target /\
  sub camera' camera = sub target' target /\
  ((camera' = camera /\ target' = target) \/
   length (sub camera' camera) = 40 * delta).
Proof.
  intros Hd. cbv zeta.
  assert (Hstill :
    vy camera = vy camera /\ vy target = vy target /\
    sub camera target = sub camera target /\
    sub camera camera = sub target target /\
    ((camera = camera /\ target = target) \/
     length (sub camera camera) = 40 * delta)).
  { repeat split; auto. unfold sub. f_equal; [f_equal|]; lra. }
  unfold frame.
  match goal with
  | |- context [if ?b then (camera, target) else _] => destruct b
  end; [exact Hstill|].
  cbv zeta.
  set (f := normalize (vx fq, 0, vz fq)).
  set (r := normalize (vx rq, 0, vz rq)).
  assert (Hf : vy f = 0) by (apply normalize_level; reflexivity).
  assert (Hr : vy r = 0) by (apply normalize_level; reflexivity).
  match goal with
  | |- context [Rlt_dec 0 (lengthSq ?v)] => set (m := v)
  end.
  assert (Hm : vy m = 0).
  { unfold m. destruct (forward keys), (backward keys), (right keys),
      (left keys); unfold add, sub; cbn [vx vy vz fst snd];
      rewrite ?Hf, ?Hr; lra. }
  clearbody m.
  destruct (Rlt_dec 0 (lengthSq m)) as [Hpos|_]; [|exact Hstill].
  clear Hstill. cbn [fst snd].
  pose proof (normalize_unit m Hpos) as Hu.
  pose proof (normalize_level m Hm) as Hy.
  set (u := normalize m) in *. clearbody u.
  destruct u as [[ux uy] uz], camera as [[cx cy] cz], target as [[tx ty] tz].
  unfold add, sub, multiplyScalar, length, lengthSq in *.
  cbn [vx vy vz fst snd] in *. subst uy.
  split; [lra|]. split; [lra|].
  split; [apply f_equal2; [apply f_equal2|]; lra|].
  split; [apply f_equal2; [apply f_equal2|]; lra|].
  right.
  replace ((cx + ux * (40 * delta) - cx) * (cx + ux * (40 * delta) - cx)
           + (cy + 0 * (40 * delta) - cy) * (cy + 0 * (40 * delta) - cy)
           + (cz + uz * (40 * delta) - cz) * (cz + uz * (40 * delta) - cz))
    with ((40 * delta) * (40 * delta) * (ux * ux + 0 * 0 + uz * uz)) by ring.
  rewrite Hu, Rmult_1_r. apply sqrt_square. lra.
Qed.

End CameraFacts.

(* ================================================================== *)
(** * The swinging doors *)
(* ================================================================== *)

Section DoorFacts.

Import Door.

Local Open Scope R_scope.

Lemma damp_gap (x y dt : R) :
  damp x y 4 dt - y = exp (- (4) * dt) * (x - y).
Proof. unfold damp, lerp. ring. Qed.

Lemma exp_decay (dt : R) : 0 <= dt -> 0 < exp (- (4) * dt) <= 1.
Proof.
  intros Hd. split; [apply exp_pos|].
  rewrite <- exp_0. destruct (Req_dec_T dt 0) as [->|Hne].
  - right. f_equal. lra.
  - left. apply exp_increasing. lra.
Qed.

Lemma PI_open : - PI / 1.5 < 0.
Proof. pose proof PI_RGT_0. lra. Qed.

Lemma step_in_range (e : Event) (s : State) :
  forwardInTime e ->
  - PI / 1.5 <= angle s <= 0 -> - PI / 1.5 <= angle (step e s) <= 0.
Proof.
  destruct e as [delta|]; cbn [step forwardInTime]; [|auto].
  intros Hd Hs. unfold frame. cbn [angle].
  pose proof (damp_gap (angle s) (targetRotation s) delta) as Hg.
  pose proof (exp_decay delta Hd) as He. pose proof PI_open.
  set (q := exp (- (4) * delta)) in *. clearbody q.
  set (a' := damp (angle s) (targetRotation s) 4 delta) in *. clearbody a'.
  unfold targetRotation in Hg. destruct (isOpen s); split; nra.
Qed.

(** X19: a door never swings past its stops.  From the closed position,
    along any sequence of clicks and of frames that do not run backwards
    in time, the hinge angle stays between the open angle [-PI / 1.5] and
    the closed angle 0; and a frame of length [delta] multiplies the gap
    between the angle and its target by [exp (-4 * delta)], so that the
    door never overshoots and never moves away from its target. *)
Theorem door_within_stops (es : list Event) :
  Forall forwardInTime es ->
  - PI / 1.5 <= angle (run es initial) <= 0 /\
  (forall s delta,
     angle (frame delta s) - targetRotation s
     = exp (- (4) * delta) * (angle s - targetRotation s)) /\
  (forall s delta, 0 <= delta ->
     Rabs (angle (frame delta s) - targetRotation s)
     <= Rabs (angle s - targetRotation s)).
Proof.
  intros Hes. split; [|split].
  - assert (H0 : - PI / 1.5 <= angle initial <= 0)
      by (pose proof PI_open; cbn [angle initial]; lra).
    revert H0. generalize initial as s.
    induction Hes as [|e es He _ IH]; intros s Hs; [exact Hs|].
    cbn [run fold_left]. apply IH. now apply step_in_range.
  - intros s delta. apply damp_gap.
  - intros s delta Hd. unfold frame. cbn [angle]. rewrite damp_gap.
    rewrite Rabs_mult. pose proof (exp_decay delta Hd) as He.
    rewrite (Rabs_pos_eq (exp _)) by lra.
    pose proof (Rabs_pos (angle s - targetRotation s)). nra.
Qed.

End DoorFacts.

(* ================================================================== *)
(** * The surface of the terrain *)
(* ================================================================== *)

Section SurfaceFacts.

Import World WorldInv Surface.

Variable random : nat -> R.
Hypothesis random_range : forall n, (0 <= random n < 1)%R.

Local Open Scope Z_scope.

(** ** Rules for [settled] *)

Lemma settled_ret {A : Type} (a : A) : settled (ret (U := WorldStore) a).
Proof. intros w n. split; [reflexivity|auto]. Qed.

Lemma settled_bind {A B : Type} (c : Gen WorldStore A)
    (k : A -> Gen WorldStore B) :
  settled c -> (forall a, settled (k a)) -> settled (bind c k).
Proof.
  intros Hc Hk w n. unfold after, bind.
  destruct (Hc w n) as [P1 O1]. unfold after in P1, O1.
  destruct (c (w, n)) as [a [w1 n1]]. cbn [fst snd] in *.
  destruct (Hk a w1 n1) as [P2 O2]. unfold after in P2, O2.
  split; [congruence|auto].
Qed.

Lemma settled_get : settled (get (U := WorldStore)).
Proof. intros w n. split; [reflexivity|auto]. Qed.

Lemma settled_random : settled (Math_random (U := WorldStore) random).
Proof. intros w n. split; [reflexivity|auto]. Qed.

Lemma settled_forEach {A : Type} (l : list A)
    (body : A -> Gen WorldStore unit) :
  (forall a, settled (body a)) -> settled (forEach l body).
Proof.
  intros Hb. induction l as [|a l IH]; cbn [forEach]; [apply settled_ret|].
  apply settled_bind; [apply Hb|intros _; exact IH].
Qed.

Lemma settled_forFold {A S : Type} (l : list A) (s : S)
    (body : A -> S -> Gen WorldStore S) :
  (forall a s', settled (body a s')) -> settled (forFold l s body).
Proof.
  intros Hb. revert s.
  induction l as [|a l IH]; intros s; cbn [forFold]; [apply settled_ret|].
  apply settled_bind; [apply Hb|intros s'; apply IH].
Qed.

Lemma settled_orElse (a : bool) (c : Gen WorldStore bool) :
  settled c -> settled (orElse a c).
Proof. intros Hc. destruct a; [apply settled_ret|exact Hc]. Qed.

Lemma settled_modify (f : WorldStore -> WorldStore) :
  (forall w, pathHeightMap (f w) = pathHeightMap w /\
             occupied (f w) = occupied w) ->
  settled (modify f).
Proof.
  intros Hf w n. unfold after, modify. cbn [fst snd].
  destruct (Hf w) as [Hp Ho]. split; [exact Hp|]. intros k. now rewrite Ho.
Qed.

Lemma settled_add (x y z : R) (color : Z) (isGlowing : bool) :
  settled (add x y z color isGlowing).
Proof.
  intros w n. split.
  - unfold after, add, bind, get. cbn [fst snd].
    destruct (decide _); [reflexivity|]. destruct isGlowing; reflexivity.
  - intros k. apply add_occupied_grows.
Qed.

Ltac settled_step :=
  lazymatch goal with
  | |- settled (ret _) => apply settled_ret
  | |- settled get => apply settled_get
  | |- settled (Math_random _) => apply settled_random
  | |- settled (bind _ _) => apply settled_bind; [|intros ?]
  | |- settled (orElse _ _) => apply settled_orElse
  | |- settled (forEach _ _) => apply settled_forEach; intros ?
  | |- settled (forFold _ _ _) => apply settled_forFold; intros ? ?
  | |- settled (add _ _ _ _ _) => apply settled_add
  | |- settled (modify _) =>
      apply settled_modify; intros ?; split; reflexivity
  | |- settled (if ?b then _ else _) => destruct b
  | |- settled (let '(_, _) := ?p in _) => destruct p
  end.

Lemma settled_houses :
  settled (forEach buildings (fun b =>
             buildHouse random (b_x b) (b_z b) (b_w b) (b_d b) (b_h b)
                        (b_r b))).
Proof.
  settled_step. unfold buildHouse. settled_step.
  - do 3 settled_step. unfold houseCell. cbv zeta. repeat settled_step.
  - do 3 settled_step. unfold chimneyCell. cbv zeta. repeat settled_step.
Qed.

Lemma settled_columnCell (x z : Z) (isIceSurface isPath : bool)
    (surfaceY bottomY surfaceColor y : Z) :
  settled (columnCell random x z isIceSurface isPath surfaceY bottomY
                      surfaceColor y).
Proof. unfold columnCell. cbv zeta. repeat settled_step. Qed.

Lemma settled_terrainColumn (x z : Z) : settled (terrainColumn random x z).
Proof.
  unfold terrainColumn. cbv zeta. settled_step; [apply settled_ret|].
  settled_step; [apply settled_get|].
  apply settled_bind;
    [repeat settled_step|intros [[surfaceY surfaceColor] isIceSurface]].
  settled_step. apply settled_columnCell.
Qed.

Lemma settled_trunk : settled trunk.
Proof. unfold trunk. cbv zeta. repeat settled_step. Qed.

Lemma settled_canopy : settled (canopy random).
Proof.
  unfold canopy. cbv zeta. do 3 settled_step.
  unfold canopyCell. cbv zeta. repeat settled_step.
Qed.

Lemma settled_starTop : settled starTop.
Proof. unfold starTop. cbv zeta. repeat settled_step. Qed.

(** ** One column *)

Lemma hoare_add_occupies (x y z : Z) (color : Z) (isGlowing : bool) :
  hoare (fun _ => True) (add (IZR x) (IZR y) (IZR z) color isGlowing)
        (fun w => (x, y, z) ∈ occupied w).
Proof.
  intros w n _.
  pose proof (add_occupies (IZR x) (IZR y) (IZR z) color isGlowing w n) as H.
  now rewrite !Math_round_IZR in H.
Qed.

(** The last step of the fill loop of a column that is not iced over takes
    the surface cell. *)
Lemma columnCell_surface (x z : Z) (isPath : bool)
    (surfaceY bottomY surfaceColor : Z) :
  hoare (fun _ => True)
        (columnCell random x z false isPath surfaceY bottomY surfaceColor
                    surfaceY)
        (fun w => (x, surfaceY, z) ∈ occupied w).
Proof.
  unfold columnCell. cbv zeta.
  replace (surfaceY - surfaceY <=? 7) with true
    by (symmetry; apply Z.leb_le; lia).
  cbn [orb].
  apply (hoare_bind _ (fun _ => True) _ (fun _ => True)); [auto|].
  intros color _. apply hoare_add_occupies.
Qed.

Lemma fill_surface (x z : Z) (isPath : bool)
    (surfaceY bottomY surfaceColor : Z) :
  bottomY <= surfaceY ->
  hoare (fun _ => True)
        (forEach (range bottomY (Z.to_nat (surfaceY - bottomY + 1)))
           (columnCell random x z false isPath surfaceY bottomY
                       surfaceColor))
        (fun w => (x, surfaceY, z) ∈ occupied w).
Proof.
  intros Hb.
  eapply hoare_weaken;
    [| |apply (hoare_forEach_range
                 (fun y w => surfaceY < y -> (x, surfaceY, z) ∈ occupied w))].
  - intros w _ Hlt. lia.
  - intros w Hw. apply Hw. lia.
  - intros y Hy. destruct (Z.eq_dec y surfaceY) as [->|Hne].
    + intros w n _ _. now apply columnCell_surface.
    + intros w n _ Hlt. lia.
Qed.

Lemma terrainColumn_surface (paths : gmap (Z * Z) Z) (x z : Z) :
  onIsland x z -> ~ insidePond x z ->
  hoare (fun w => pathHeightMap w = paths) (terrainColumn random x z)
        (fun w => (x, surfaceLevel paths x z, z) ∈ occupied w).
Proof.
  intros Hisland Hout. unfold terrainColumn. cbv zeta.
  destruct (Rlt_dec _ _) as [Hskip|_]; [contradiction|].
  apply (hoare_bind _ (fun _ => True) _
           (fun w0 => pathHeightMap w0 = paths)).
  { intros w n Hw. split; [exact Hw|exact I]. }
  intros w0 Hw0. rewrite !Math_round_IZR, Hw0.
  apply (hoare_bind _ (fun _ => True) _
           (fun surface : Z * Z * bool =>
              let '(surfaceY, _, isIceSurface) := surface in
              surfaceY = surfaceLevel paths x z /\ isIceSurface = false)).
  { intros w n _. split; [|exact I]. unfold surfaceLevel, distToPond, Rltb.
    destruct (Rlt_dec _ pondRadius) as [Hrim|Hfar].
    - destruct (Rlt_dec _ (pondRadius - 2)) as [Hin|_];
        [contradiction|]. cbn. auto.
    - destruct (decide _); cbn; auto. }
  intros [[surfaceY surfaceColor] isIceSurface] [-> ->].
  apply fill_surface.
  pose proof (bottomY_below (surfaceLevel paths x z)) as Hb.
  match goal with
  | |- Zfloor (_ - Rmax 5 ?t) <= _ => specialize (Hb t)
  end. lia.
Qed.

Lemma settled_surfacedBefore {A : Type} (paths : gmap (Z * Z) Z) (x z : Z)
    (c : Gen WorldStore A) :
  settled c ->
  hoare (surfacedBefore paths x z) c (surfacedBefore paths x z).
Proof.
  intros Hc w n [Hp Hs]. destruct (Hc w n) as [Ep Eo].
  split; [congruence|].
  intros x' z' Hlt Hi Ho. apply Eo. now apply Hs.
Qed.

Lemma terrainColumn_surfaced (paths : gmap (Z * Z) Z) (x z : Z) :
  hoare (surfacedBefore paths x z) (terrainColumn random x z)
        (surfacedBefore paths x (z + 1)).
Proof.
  intros w n [Hp Hs].
  destruct (settled_terrainColumn x z w n) as [Ep Eo].
  split; [congruence|].
  intros x' z' Hlt Hi Ho.
  destruct (Z.eq_dec x' x) as [->|Hx];
    [destruct (Z.eq_dec z' z) as [->|Hz]|].
  - now apply (terrainColumn_surface paths x z Hi Ho w n).
  - apply Eo. apply Hs; [lia|exact Hi|exact Ho].
  - apply Eo. apply Hs; [lia|exact Hi|exact Ho].
Qed.

Lemma onIsland_box (x z : Z) :
  onIsland x z -> -90 <= x <= 90 /\ -90 <= z <= 90.
Proof.
  unfold onIsland, WORLD_RADIUS. intros Hi. apply Rnot_lt_le in Hi.
  assert (Hsq : (IZR x * IZR x + IZR z * IZR z <= 90 * 90)%R).
  { rewrite <- (sqrt_sqrt (IZR x * IZR x + IZR z * IZR z))
      by apply sq_sum_pos.
    pose proof (sqrt_pos (IZR x * IZR x + IZR z * IZR z)). nra. }
  assert (Hx1 : (IZR (-90) <= IZR x)%R) by nra.
  assert (Hx2 : (IZR x <= IZR 90)%R) by nra.
  assert (Hz1 : (IZR (-90) <= IZR z)%R) by nra.
  assert (Hz2 : (IZR z <= IZR 90)%R) by nra.
  apply le_IZR in Hx1, Hx2, Hz1, Hz2. lia.
Qed.

Lemma terrain_surfaced (paths : gmap (Z * Z) Z) :
  hoare (fun w => pathHeightMap w = paths) (terrain random)
        (fun w => pathHeightMap w = paths /\
                  forall x z, surfaced paths w x z).
Proof.
  unfold terrain.
  eapply hoare_weaken;
    [| |apply (hoare_forEach_range
                 (fun x => surfacedBefore paths x (- WORLD_RADIUS)))].
  - intros w Hw. split; [exact Hw|].
    intros x' z' Hlt Hi Ho. exfalso.
    apply onIsland_box in Hi. unfold WORLD_RADIUS in Hlt. lia.
  - intros w [Hp Hs]. split; [exact Hp|].
    intros x z Hi Ho. apply Hs; [|exact Hi|exact Ho].
    apply onIsland_box in Hi. unfold WORLD_RADIUS. lia.
  - intros x _.
    eapply hoare_weaken;
      [| |apply (hoare_forEach_range (surfacedBefore paths x))].
    + intros w Hw. exact Hw.
    + intros w [Hp Hs]. split; [exact Hp|].
      intros x' z' Hlt Hi Ho. apply Hs; [|exact Hi|exact Ho].
      apply onIsland_box in Hi. unfold WORLD_RADIUS in *. lia.
    + intros z _. apply terrainColumn_surfaced.
Qed.

Lemma settled_final {A : Type} (paths : gmap (Z * Z) Z)
    (c : Gen WorldStore A) :
  settled c ->
  hoare (fun w => pathHeightMap w = paths /\
                  forall x z, surfaced paths w x z)
        c
        (fun w => pathHeightMap w = paths /\
                  forall x z, surfaced paths w x z).
Proof.
  intros Hc w n [Hp Hs]. destruct (Hc w n) as [Ep Eo].
  split; [congruence|]. intros x z Hi Ho. apply Eo. now apply Hs.
Qed.

Lemma generateWorld_surfaced :
  let w := generateWorld random in
  forall x z, surfaced (pathHeightMap w) w x z.
Proof.
  intros w. unfold w, generateWorld.
  change (fst (snd (generateWorld_body random (emptyWorld, O))))
    with (after (generateWorld_body random) emptyWorld O).
  unfold generateWorld_body, after, bind.
  destruct (forEach buildings (buildingPaths random) (emptyWorld, O))
    as [u1 [w1 n1]].
  destruct (ringPaths random (w1, n1)) as [u2 [w2 n2]].
  set (paths := pathHeightMap w2).
  assert (H : hoare (fun w => pathHeightMap w = paths)
                (bind (forEach buildings (fun b =>
                         buildHouse random (b_x b) (b_z b) (b_w b) (b_d b)
                                    (b_h b) (b_r b)))
                   (fun _ => bind (terrain random)
                      (fun _ => bind trunk
                         (fun _ => bind (canopy random)
                            (fun _ => starTop)))))
                (fun w => pathHeightMap w = paths /\
                          forall x z, surfaced paths w x z)).
  { apply (hoare_seq _ (fun w => pathHeightMap w = paths)).
    { intros w0 n0 Hw0. destruct (settled_houses w0 n0) as [Ep _].
      congruence. }
    apply (hoare_seq _ (fun w => pathHeightMap w = paths /\
                                 forall x z, surfaced paths w x z));
      [apply terrain_surfaced|].
    apply (hoare_seq _ (fun w => pathHeightMap w = paths /\
                                 forall x z, surfaced paths w x z));
      [apply settled_final, settled_trunk|].
    apply (hoare_seq _ (fun w => pathHeightMap w = paths /\
                                 forall x z, surfaced paths w x z));
      [apply settled_final, settled_canopy|].
    apply settled_final, settled_starTop. }
  specialize (H w2 n2 eq_refl). unfold after, bind in H.
  destruct H as [Hp Hs]. rewrite Hp. exact Hs.
Qed.

(** X20: the terrain gives every column of the island its surface.  For
    every integer column within [WORLD_RADIUS] of the origin and not iced
    over, the cell at the elevation that the terrain loop computes (-1 on
    the rim of the pond, 0 on a path, the floor of the noise elsewhere) is
    occupied when [generateWorld] returns, by a regular or glowing voxel;
    and off the paths, off the rim and at least 5 from the origin that
    elevation is the one that [getTerrainVoxelY] of [App] gives for the
    column. *)
Theorem every_column_has_its_surface (x z : Z) :
  let w := generateWorld random in
  let y := surfaceLevel (pathHeightMap w) x z in
  onIsland x z -> ~ insidePond x z ->
  (x, y, z) ∈ occupied w /\
  (exists v, In v (regularVoxels w ++ glowingVoxels w) /\ key v = (x, y, z))
  /\
  (pathHeightMap w !! (x, z) = None ->
   ~ (distToPond x z < pondRadius)%R ->
   (5 <= sqrt (IZR x ^ 2 + IZR z ^ 2))%R ->
   IZR y = Terrain.getTerrainVoxelY (IZR x) (IZR z)).
Proof.
  intros w y Hi Ho.
  assert (Hocc : (x, y, z) ∈ occupied w)
    by (apply generateWorld_surfaced; assumption).
  split; [exact Hocc|]. split.
  - destruct (generateWorld_endInv random random_range) as [HI _].
    fold w in HI. apply (inv_occupied w HI) in Hocc.
    apply in_map_iff in Hocc. destruct Hocc as (v & Hk & Hv).
    exists v. split; [exact Hv|exact Hk].
  - intros Hpath Hrim Hhub. unfold y, surfaceLevel.
    destruct (Rlt_dec _ pondRadius) as [Hr|_]; [contradiction|].
    rewrite Hpath.
    destruct (decide (is_Some None)) as [[? Hs]|_]; [discriminate Hs|].
    unfold Terrain.getTerrainVoxelY, Terrain.Math_floor, terrainNoise.
    unfold distToPond, pondCenter_x, pondCenter_z, pondRadius in Hrim.
    destruct (Rlt_dec _ 16) as [Hp|_]; [exfalso; apply Hrim; lra|].
    destruct (Rlt_dec _ 5) as [Hh|_]; [lra|]. reflexivity.
Qed.

End SurfaceFacts.

(* ================================================================== *)
(** * The lamp heads *)
(* ================================================================== *)

Section GlowFacts.

Import World WorldInv Glow.

Variable random : nat -> R.

Local Open Scope Z_scope.

(** ** Rules for [glowfree] *)

Lemma glowfree_ret {A : Type} (a : A) : glowfree (ret a).
Proof. apply hoare_ret. Qed.

Lemma glowfree_bind {A B : Type} (c : Gen WorldStore A)
    (k : A -> Gen WorldStore B) :
  glowfree c -> (forall a, glowfree (k a)) -> glowfree (bind c k).
Proof.
  intros Hc Hk. apply (hoare_bind _ noLampGlow _ (fun _ => True)).
  - intros w n Hw. split; [exact I|now apply Hc].
  - intros a _. apply Hk.
Qed.

Lemma glowfree_get : glowfree get.
Proof. intros w n Hw. exact Hw. Qed.

Lemma glowfree_random : glowfree (Math_random random).
Proof. intros w n Hw. exact Hw. Qed.

Lemma glowfree_forEach {A : Type} (l : list A)
    (body : A -> Gen WorldStore unit) :
  (forall a, glowfree (body a)) -> glowfree (forEach l body).
Proof.
  intros Hb. induction l as [|a l IH]; cbn [forEach]; [apply glowfree_ret|].
  apply glowfree_bind; [apply Hb|intros _; exact IH].
Qed.

Lemma glowfree_forFold {A S : Type} (l : list A) (s : S)
    (body : A -> S -> Gen WorldStore S) :
  (forall a s', glowfree (body a s')) -> glowfree (forFold l s body).
Proof.
  intros Hb. revert s.
  induction l as [|a l IH]; intros s; cbn [forFold]; [apply glowfree_ret|].
  apply glowfree_bind; [apply Hb|intros s'; apply IH].
Qed.

Lemma glowfree_orElse (a : bool) (c : Gen WorldStore bool) :
  glowfree c -> glowfree (orElse a c).
Proof. intros Hc. destruct a; [apply glowfree_ret|exact Hc]. Qed.

Lemma glowfree_modify (f : WorldStore -> WorldStore) :
  (forall w, glowingVoxels (f w) = glowingVoxels w) -> glowfree (modify f).
Proof.
  intros Hf w n Hw. unfold noLampGlow, after, modify. cbn [fst snd].
  now rewrite Hf.
Qed.

Lemma glowfree_add (x y z : R) (color : Z) (isGlowing : bool) :
  (isGlowing = true -> color <> PALETTE.LAMP_WARM) ->
  glowfree (add x y z color isGlowing).
Proof.
  intros Hc w n Hw. unfold after, add, bind, get. cbn [fst snd].
  destruct (decide _); [exact Hw|].
  destruct isGlowing; unfold modify, noLampGlow; cbn [fst snd];
    cbn [glowingVoxels push_glowing push_regular occupy]; [|exact Hw].
  apply Forall_app. split; [exact Hw|].
  constructor; [|constructor]. cbn [voxel_color]. now apply Hc.
Qed.

(** An [add] into a taken cell does nothing. *)
Lemma add_taken (x y z : R) (color : Z) (isGlowing : bool) (w : WorldStore)
    (n : nat) :
  (Math_round x, Math_round y, Math_round z) ∈ occupied w ->
  after (add x y z color isGlowing) w n = w.
Proof.
  intros Hk. unfold after, add, bind, get. cbn [fst snd].
  destruct (decide _); [reflexivity|contradiction].
Qed.

Ltac glow_side :=
  first [ discriminate
        | let E := fresh in
          intros _ E; vm_compute in E; discriminate E ].

Ltac glowfree_step :=
  lazymatch goal with
  | |- glowfree (ret _) => apply glowfree_ret
  | |- glowfree get => apply glowfree_get
  | |- glowfree (Math_random _) => apply glowfree_random
  | |- glowfree (bind _ _) => apply glowfree_bind; [|intros ?]
  | |- glowfree (orElse _ _) => apply glowfree_orElse
  | |- glowfree (forEach _ _) => apply glowfree_forEach; intros ?
  | |- glowfree (forFold _ _ _) => apply glowfree_forFold; intros ? ?
  | |- glowfree (add _ _ _ _ false) => apply glowfree_add; discriminate
  | |- glowfree (add _ _ _ _ true) => apply glowfree_add; glow_side
  | |- glowfree (modify _) =>
      apply glowfree_modify; intros ?; reflexivity
  | |- glowfree (if ?b then _ else _) => destruct b
  | |- glowfree (let '(_, _) := ?p in _) => destruct p
  end.

(** ** [buildLamp] *)

Lemma lamp_light_cell (x z : R) :
  (Math_round x, Math_round (0 + IZR 9 - 1 - 0.5), Math_round z)
  = poleTop x z.
Proof.
  unfold poleTop, Math_round. f_equal. f_equal.
  rewrite (Zfloor_eq 8 (0 + IZR 9 - 1 - 0.5 + 0.5)),
          (Zfloor_eq 8 (0 + IZR 8 + 0.5)); [reflexivity| |]; simpl; lra.
Qed.

Lemma pole_topped (x z : R) :
  hoare noLampGlow
        (forEach (range 0 (Z.to_nat 9)) (fun h =>
           add x (0 + IZR h) z PALETTE.LAMP_POST false))
        (fun w => noLampGlow w /\ poleTop x z ∈ occupied w).
Proof.
  eapply hoare_weaken;
    [| |apply (hoare_forEach_range
                 (fun h w => noLampGlow w /\
                             (8 < h -> poleTop x z ∈ occupied w)))].
  - intros w Hw. split; [exact Hw|]. lia.
  - intros w [Hw Ht]. split; [exact Hw|]. apply Ht. simpl. lia.
  - intros h Hh w n [Hw Ht]. split.
    + apply glowfree_add; [discriminate|exact Hw].
    + intros Hlt. assert (h = 8) by lia. subst h. apply add_occupies.
Qed.

Lemma keep_topped (x z : R) (c : Gen WorldStore unit) :
  glowfree c -> Surface.settled c ->
  hoare (fun w => noLampGlow w /\ poleTop x z ∈ occupied w) c
        (fun w => noLampGlow w /\ poleTop x z ∈ occupied w).
Proof.
  intros Hg Hs w n [Hw Ht]. split; [now apply Hg|].
  now apply (proj2 (Hs w n)).
Qed.

(** The glowing head of a lamp is handed to [add] for the cell that the
    top of the pole already took. *)
Lemma glowfree_buildLamp (x z : R) : glowfree (buildLamp x 0 z).
Proof.
  unfold buildLamp. cbv zeta.
  set (Q := fun w => noLampGlow w /\ poleTop x z ∈ occupied w).
  apply (hoare_seq _ Q); [apply pole_topped|].
  do 6 (apply (hoare_seq _ Q);
        [apply keep_topped;
         [apply glowfree_add; discriminate|apply settled_add]|]).
  apply (hoare_seq _ Q).
  - intros w n [Hw Ht]. rewrite add_taken; [split; assumption|].
    rewrite lamp_light_cell. exact Ht.
  - intros w n [Hw _]. exact Hw.
Qed.

Lemma glowfree_createPath (x1 z1 x2 z2 widthOverride : R) :
  glowfree (createPath random x1 z1 x2 z2 widthOverride).
Proof.
  unfold createPath. cbv zeta. repeat glowfree_step.
  apply glowfree_buildLamp.
Qed.

Lemma glowfree_paths :
  glowfree (forEach buildings (buildingPaths random)) /\
  glowfree (ringPaths random).
Proof.
  split.
  - glowfree_step. unfold buildingPaths. cbv zeta.
    repeat glowfree_step; apply glowfree_createPath.
  - unfold ringPaths. repeat glowfree_step; apply glowfree_createPath.
Qed.

Lemma glowfree_houses :
  glowfree (forEach buildings (fun b =>
              buildHouse random (b_x b) (b_z b) (b_w b) (b_d b) (b_h b)
                         (b_r b))).
Proof.
  glowfree_step. unfold buildHouse. glowfree_step.
  - do 3 glowfree_step. unfold houseCell. cbv zeta. repeat glowfree_step.
  - do 3 glowfree_step. unfold chimneyCell. cbv zeta. repeat glowfree_step.
Qed.

Lemma glowfree_terrain : glowfree (terrain random).
Proof.
  unfold terrain. do 2 glowfree_step.
  unfold terrainColumn. cbv zeta. glowfree_step; [apply glowfree_ret|].
  glowfree_step; [apply glowfree_get|].
  apply glowfree_bind;
    [repeat glowfree_step|intros [[surfaceY surfaceColor] isIceSurface]].
  glowfree_step. unfold columnCell. cbv zeta.
  repeat glowfree_step.
Qed.

Lemma glowfree_trunk : glowfree trunk.
Proof. unfold trunk. cbv zeta. repeat glowfree_step. Qed.

(** The colour and the flag that [canopyCell] hands to [add]. *)
Lemma canopy_decor (isSurface : bool) (x y z : R) (col1 : Z) :
  hoare noLampGlow
    (bind
       (if isSurface then
          let angle := Math_atan2 z x in
          let spiral1 := js_rem (angle * 5 + y * 0.25) (PI * 2) in
          let spiral2 := js_rem (angle * 5 + y * 0.25 + PI) (PI * 2) in
          if Rltb (Rabs spiral1) 0.3 || Rltb (Rabs spiral2) 0.3
          then ret (PALETTE.LIGHT_STRING, true)
          else
            bind (Math_random random) (fun r2 =>
              if Rltb 0.93 r2 then
                bind (Math_random random) (fun rand =>
                  ret (if Rltb rand 0.3 then PALETTE.DECOR_RED
                       else if Rltb rand 0.45 then PALETTE.DECOR_GOLD
                       else if Rltb rand 0.6 then PALETTE.DECOR_ROYAL_BLUE
                       else if Rltb rand 0.75 then PALETTE.DECOR_PURPLE
                       else if Rltb rand 0.85 then PALETTE.DECOR_PINK
                       else PALETTE.DECOR_SILVER,
                       true))
              else ret (col1, false))
        else ret (col1, false))
       (fun decor => add x (treeBaseY + y) z (fst decor) (snd decor)))
    noLampGlow.
Proof.
  intros w n Hw. destruct isSurface; cbv zeta.
  - destruct (_ || _).
    + refine (glowfree_add x _ z PALETTE.LIGHT_STRING true _ w n Hw).
      glow_side.
    + unfold after, bind, Math_random. cbn [fst snd].
      destruct (Rltb 0.93 (random n)).
      * cbn [fst snd].
        refine (glowfree_add x _ z _ true _ w (S (S n)) Hw).
        intros _.
        repeat destruct (Rltb (random (S n)) _); intros E; vm_compute in E;
          discriminate E.
      * refine (glowfree_add x _ z col1 false _ w (S n) Hw). discriminate.
  - refine (glowfree_add x _ z col1 false _ w n Hw). discriminate.
Qed.

Lemma glowfree_canopy : glowfree (canopy random).
Proof.
  unfold canopy. cbv zeta. do 3 glowfree_step.
  unfold canopyCell. cbv zeta.
  glowfree_step; [|apply glowfree_ret].
  apply glowfree_bind; [repeat glowfree_step|intros keep].
  destruct keep; [|apply glowfree_ret].
  apply glowfree_bind; [apply glowfree_random|intros r1].
  apply canopy_decor.
Qed.

Lemma glowfree_starTop : glowfree starTop.
Proof. unfold starTop. cbv zeta. repeat glowfree_step. Qed.

Lemma generateWorld_noLampGlow : noLampGlow (generateWorld random).
Proof.
  unfold generateWorld.
  change (fst (snd (generateWorld_body random (emptyWorld, O))))
    with (after (generateWorld_body random) emptyWorld O).
  assert (H : glowfree (generateWorld_body random));
    [|apply H; constructor].
  unfold generateWorld_body. destruct glowfree_paths as [K1 K2].
  apply glowfree_bind; [exact K1|intros _].
  apply glowfree_bind; [exact K2|intros _].
  apply glowfree_bind; [apply glowfree_houses|intros _].
  apply glowfree_bind; [apply glowfree_terrain|intros _].
  apply glowfree_bind; [apply glowfree_trunk|intros _].
  apply glowfree_bind; [apply glowfree_canopy|intros _].
  apply glowfree_starTop.
Qed.

(** X22: the lamp heads never glow.  [buildLamp] hands its glowing
    [LAMP_WARM] voxel to [add] at the height 7.5, which rounds to the cell
    that the top of the pole has already taken, so that [add] drops it; no
    other call uses that colour.  Hence, for every stream of random
    numbers, no glowing voxel of [generateWorld] has the colour
    [LAMP_WARM], and the layout effect of [VoxelWorld] never takes its lamp
    branch: the intensity of a glowing voxel is 8 or 5 at night and 1 or 2
    by day, never 50 or 0.5. *)
Theorem lamp_heads_never_glow :
  let w := generateWorld random in
  Forall (fun v => voxel_color v <> PALETTE.LAMP_WARM) (glowingVoxels w) /\
  (forall x z (w0 : WorldStore) (n : nat),
     poleTop x z ∈ occupied w0 ->
     after (add x (0 + IZR 9 - 1 - 0.5) z PALETTE.LAMP_WARM true) w0 n = w0)
  /\
  (forall v isNight, In v (glowingVoxels w) ->
     glow isNight (voxel_color v)
     = if (voxel_color v =? PALETTE.LIGHT_WARM)%Z
       then (if isNight then (8.0%R, voxel_color v) else (1.0%R, 0xaaaaaa%Z))
       else (if isNight then (5.0%R, voxel_color v)
             else (2.0%R, voxel_color v))).
Proof.
  intros w. pose proof generateWorld_noLampGlow as H. fold w in H.
  split; [exact H|]. split.
  - intros x z w0 n Ht. apply add_taken. rewrite lamp_light_cell. exact Ht.
  - intros v isNight Hv. unfold noLampGlow in H.
    rewrite List.Forall_forall in H. specialize (H v Hv).
    unfold glow. destruct (Z.eqb_spec (voxel_color v) PALETTE.LAMP_WARM);
      [contradiction|].
    destruct (_ =? PALETTE.LIGHT_WARM)%Z; destruct isNight; reflexivity.
Qed.

End GlowFacts.
(* ================================================================== *)
(** * The street lamps *)
(* ================================================================== *)

Section LampFacts.

Import World WorldInv Lamps.

Variable random : nat -> R.

Local Open Scope Z_scope.

(** ** Rules for [lamps] *)

Lemma standing_mono (w w' : WorldStore) (p : Point3) :
  (forall key, key ∈ occupied w -> key ∈ occupied w') ->
  standing w p -> standing w' p.
Proof.
  intros Hm (lx & lz & -> & Hc). exists lx, lz. split; [reflexivity|].
  intros h Hh. apply Hm, Hc, Hh.
Qed.

Lemma lamps_ret {A : Type} (a : A) : lamps 0 (ret a).
Proof.
  intros w n. exists []. unfold after, ret. cbn [fst snd].
  rewrite app_nil_r. repeat split; auto.
Qed.

Lemma lamps_bind {A B : Type} (k1 k2 : nat) (c : Gen WorldStore A)
    (k : A -> Gen WorldStore B) :
  lamps k1 c -> (forall a, lamps k2 (k a)) -> lamps (k1 + k2) (bind c k).
Proof.
  intros Hc Hk w n. unfold after, bind.
  destruct (Hc w n) as (new1 & E1 & L1 & M1 & S1). unfold after in *.
  destruct (c (w, n)) as [a [w1 n1]]. cbn [fst snd] in *.
  destruct (Hk a w1 n1) as (new2 & E2 & L2 & M2 & S2). unfold after in *.
  exists (new1 ++ new2). rewrite E2, E1, <- app_assoc.
  split; [reflexivity|]. split; [rewrite length_app; lia|].
  split; [auto|]. apply Forall_app. split; [|exact S2].
  eapply List.Forall_impl; [|exact S1].
  intros p. now apply standing_mono.
Qed.

Lemma lamps0_bind {A B : Type} (c : Gen WorldStore A)
    (k : A -> Gen WorldStore B) :
  lamps 0 c -> (forall a, lamps 0 (k a)) -> lamps 0 (bind c k).
Proof. apply (lamps_bind 0 0). Qed.

Lemma lamps_get : lamps 0 (get (U := WorldStore)).
Proof.
  intros w n. exists []. unfold after, get. cbn [fst snd].
  rewrite app_nil_r. repeat split; auto.
Qed.

Lemma lamps_random : lamps 0 (Math_random (U := WorldStore) random).
Proof.
  intros w n. exists []. unfold after, Math_random. cbn [fst snd].
  rewrite app_nil_r. repeat split; auto.
Qed.

Lemma lamps_forEach {A : Type} (k : nat) (l : list A)
    (body : A -> Gen WorldStore unit) :
  (forall a, In a l -> lamps k (body a)) ->
  lamps (List.length l * k) (forEach l body).
Proof.
  induction l as [|a l IH]; intros Hb; cbn [forEach List.length];
    [apply lamps_ret|].
  replace (S (List.length l) * k)%nat with (k + List.length l * k)%nat
    by lia.
  apply lamps_bind; [apply Hb; now left|intros _; apply IH].
  intros a' Ha'. apply Hb. now right.
Qed.

Lemma lamps0_forEach {A : Type} (l : list A)
    (body : A -> Gen WorldStore unit) :
  (forall a, lamps 0 (body a)) -> lamps 0 (forEach l body).
Proof.
  intros Hb. pose proof (lamps_forEach 0 l body (fun a _ => Hb a)) as H.
  now rewrite Nat.mul_0_r in H.
Qed.

Lemma lamps0_forFold {A S : Type} (l : list A) (s : S)
    (body : A -> S -> Gen WorldStore S) :
  (forall a s', lamps 0 (body a s')) -> lamps 0 (forFold l s body).
Proof.
  intros Hb. revert s.
  induction l as [|a l IH]; intros s; cbn [forFold]; [apply lamps_ret|].
  apply lamps0_bind; [apply Hb|intros s'; apply IH].
Qed.

Lemma lamps_orElse (a : bool) (c : Gen WorldStore bool) :
  lamps 0 c -> lamps 0 (orElse a c).
Proof. intros Hc. destruct a; [apply lamps_ret|exact Hc]. Qed.

Lemma lamps_modify (f : WorldStore -> WorldStore) :
  (forall w, lampCoords (f w) = lampCoords w /\
             occupied (f w) = occupied w) ->
  lamps 0 (modify f).
Proof.
  intros Hf w n. exists []. unfold after, modify. cbn [fst snd].
  destruct (Hf w) as [Hl Ho]. rewrite app_nil_r, Hl.
  split; [reflexivity|]. split; [reflexivity|].
  split; [intros key; now rewrite Ho|constructor].
Qed.

Lemma lamps_add (x y z : R) (color : Z) (isGlowing : bool) :
  lamps 0 (add x y z color isGlowing).
Proof.
  intros w n. exists []. rewrite app_nil_r. split.
  - unfold after, add, bind, get. cbn [fst snd].
    destruct (decide _); [reflexivity|]. destruct isGlowing; reflexivity.
  - split; [reflexivity|]. split; [|constructor].
    intros key. apply add_occupied_grows.
Qed.

Ltac lamps_step :=
  lazymatch goal with
  | |- lamps 0 (ret _) => apply lamps_ret
  | |- lamps 0 get => apply lamps_get
  | |- lamps 0 (Math_random _) => apply lamps_random
  | |- lamps 0 (bind _ _) => apply lamps0_bind; [|intros ?]
  | |- lamps 0 (orElse _ _) => apply lamps_orElse
  | |- lamps 0 (forEach _ _) => apply lamps0_forEach; intros ?
  | |- lamps 0 (forFold _ _ _) => apply lamps0_forFold; intros ? ?
  | |- lamps 0 (add _ _ _ _ _) => apply lamps_add
  | |- lamps 0 (modify _) =>
      apply lamps_modify; intros ?; split; reflexivity
  | |- lamps 0 (if ?b then _ else _) => destruct b
  | |- lamps 0 (let '(_, _) := ?p in _) => destruct p
  end.

(** ** [buildLamp] *)

Lemma pole_cells (lx lz : Z) :
  hoare (fun _ => True)
        (forEach (range 0 (Z.to_nat 9)) (fun h =>
           add (IZR lx) (0 + IZR h) (IZR lz) PALETTE.LAMP_POST false))
        (fun w => forall h, 0 <= h <= 8 -> (lx, h, lz) ∈ occupied w).
Proof.
  eapply hoare_weaken;
    [| |apply (hoare_forEach_range
                 (fun h w => forall h', 0 <= h' < h ->
                                        (lx, h', lz) ∈ occupied w))].
  - intros w _ h' Hh'. lia.
  - intros w Hw h Hh. apply Hw. simpl. lia.
  - intros h Hh w n Hw h' Hh'.
    destruct (Z.eq_dec h' h) as [->|Hne].
    + pose proof (add_occupies (IZR lx) (0 + IZR h) (IZR lz)
                    PALETTE.LAMP_POST false w n) as Ho.
      assert (E : Math_round (0 + IZR h) = h)
        by (rewrite Rplus_0_l; apply Math_round_IZR).
      rewrite E, !Math_round_IZR in Ho. exact Ho.
    + apply add_occupied_grows, Hw. lia.
Qed.

(** What a computation that pushes no lamp keeps. *)
Lemma lamps0_hoare {A : Type} (w0 : WorldStore) (cells : list Key)
    (c : Gen WorldStore A) :
  lamps 0 c ->
  hoare (fun w => lampCoords w = lampCoords w0 /\
                  (forall key, key ∈ occupied w0 -> key ∈ occupied w) /\
                  (forall key, In key cells -> key ∈ occupied w))
        c
        (fun w => lampCoords w = lampCoords w0 /\
                  (forall key, key ∈ occupied w0 -> key ∈ occupied w) /\
                  (forall key, In key cells -> key ∈ occupied w)).
Proof.
  intros Hc w n (Hl & Hm & Hk).
  destruct (Hc w n) as (new & E & L & M & _).
  destruct new; [|discriminate L]. rewrite app_nil_r in E.
  split; [congruence|]. split; auto.
Qed.

Lemma hoare_also {A : Type} (P Q Q' : WorldStore -> Prop)
    (c : Gen WorldStore A) :
  hoare P c Q -> hoare (fun _ => True) c Q' ->
  hoare P c (fun w => Q w /\ Q' w).
Proof. intros H1 H2 w n Hw. split; [now apply H1|now apply H2]. Qed.

Lemma buildLamp_lamps (lx lz : Z) : lamps 1 (buildLamp (IZR lx) 0 (IZR lz)).
Proof.
  intros w0 n.
  set (kept := fun cells w =>
         lampCoords w = lampCoords w0 /\
         (forall key, key ∈ occupied w0 -> key ∈ occupied w) /\
         (forall key, In key cells -> key ∈ occupied w)).
  set (lower := map (fun h => (lx, h, lz)) (range 0 9)).
  set (column := lower ++ [(lx, 9, lz)]).
  assert (H : hoare (kept [])
                (buildLamp (IZR lx) 0 (IZR lz))
                (fun w => lampCoords w = lampCoords w0 ++ [lampAt lx lz] /\
                          (forall key, key ∈ occupied w0 -> key ∈ occupied w)
                          /\ (forall key, In key column -> key ∈ occupied w))).
  { unfold buildLamp. cbv zeta.
    (* the pole *)
    apply (hoare_seq _ (kept lower)).
    { assert (Hpole : lamps 0
                (forEach (range 0 (Z.to_nat 9)) (fun h =>
                   add (IZR lx) (0 + IZR h) (IZR lz) PALETTE.LAMP_POST
                       false)))
        by (do 2 lamps_step).
      eapply hoare_weaken;
        [| |apply (hoare_also _ (kept []) _ _
                     (lamps0_hoare w0 [] _ Hpole) (pole_cells lx lz))];
        [auto|].
      intros w [(Hl & Hm & _) Hp]. split; [exact Hl|]. split; [exact Hm|].
      intros key Hk. unfold lower in Hk. apply in_map_iff in Hk.
      destruct Hk as (h & <- & Hh). apply In_range in Hh. apply Hp. lia. }
    (* the arm and its cap *)
    apply (hoare_seq _ (kept lower));
      [apply lamps0_hoare, lamps_add|].
    apply (hoare_seq _ (kept column)).
    { assert (Hcap0 : hoare (fun _ => True)
                (add (IZR lx) (0 + IZR 9 - 1 + 0.5) (IZR lz)
                     PALETTE.LAMP_POST false)
                (fun w => (Math_round (IZR lx),
                           Math_round (0 + IZR 9 - 1 + 0.5),
                           Math_round (IZR lz)) ∈ occupied w))
        by (intros w m _; apply add_occupies).
      eapply hoare_weaken;
        [| |apply (hoare_also _ (kept lower) _ _
                     (lamps0_hoare w0 lower _
                        (lamps_add (IZR lx) (0 + IZR 9 - 1 + 0.5) (IZR lz)
                                   PALETTE.LAMP_POST false))
                     Hcap0)];
        [auto|].
      intros w [(Hl & Hm & Hk) Hcap]. split; [exact Hl|]. split; [exact Hm|].
      intros key Hin. unfold column in Hin. apply in_app_iff in Hin.
      destruct Hin as [Hin|[<-|[]]]; [now apply Hk|].
      rewrite !Math_round_IZR in Hcap. unfold Math_round in Hcap.
      rewrite (Zfloor_eq 9 (0 + IZR 9 - 1 + 0.5 + 0.5)) in Hcap;
        [exact Hcap|simpl; lra]. }
    (* the four arms and the head *)
    do 5 (apply (hoare_seq _ (kept column));
          [apply lamps0_hoare, lamps_add|]).
    (* the entry of [lampCoords] *)
    intros w m (Hl & Hm & Hk). unfold after, modify. cbn [fst snd].
    cbn [lampCoords occupied push_lamp]. rewrite Hl.
    split; [reflexivity|]. split; assumption. }
  destruct (H w0 n) as (Hl & Hm & Hk).
  { split; [reflexivity|]. split; [auto|]. intros key []. }
  exists [lampAt lx lz]. split; [exact Hl|]. split; [reflexivity|].
  split; [exact Hm|]. constructor; [|constructor].
  exists lx, lz. split; [reflexivity|].
  intros h Hh. apply Hk. unfold column, lower. apply in_app_iff.
  destruct (Z.eq_dec h 9) as [->|Hne]; [right; now left|left].
  apply in_map_iff. exists h. split; [reflexivity|]. apply In_range. lia.
Qed.

(** ** [createPath] *)

Lemma createPath_lamps (x1 z1 x2 z2 widthOverride : R) :
  lamps (lampCount x1 z1 x2 z2)
        (createPath random x1 z1 x2 z2 widthOverride).
Proof.
  unfold createPath, lampCount. cbv zeta.
  apply (lamps_bind 0); [repeat lamps_step|intros _].
  destruct (Rlt_dec 10 _); [|apply lamps_ret].
  match goal with
  | |- lamps _ (forEach (range 1 ?m) ?body) =>
      pose proof (lamps_forEach 1 (range 1 m) body) as Hl
  end.
  rewrite range_length, Nat.mul_1_r in Hl. apply Hl. intros i _.
  apply (lamps_bind 0 1); [apply lamps_random|intros r'].
  apply buildLamp_lamps.
Qed.

Lemma createPath_count (k : nat) (x1 z1 x2 z2 widthOverride : R) :
  lampCount x1 z1 x2 z2 = k ->
  lamps k (createPath random x1 z1 x2 z2 widthOverride).
Proof. intros <-. apply createPath_lamps. Qed.

Lemma sqrt_between (a lo hi : R) :
  (0 <= lo)%R -> (lo * lo <= a < hi * hi)%R -> (0 <= hi)%R ->
  (lo <= sqrt a < hi)%R.
Proof.
  intros Hlo [H1 H2] Hhi. split.
  - rewrite <- (sqrt_square lo Hlo). apply sqrt_le_1_alt. exact H1.
  - rewrite <- (sqrt_square hi Hhi). apply sqrt_lt_1_alt.
    split; [|exact H2]. pose proof (Rle_0_sqr lo) as H. unfold Rsqr in H. lra.
Qed.

(** A path whose length lies in [25 k, 25 (k + 1)) gets [k - 1] lamps. *)
Lemma lampCount_far (x1 z1 x2 z2 : R) (k : Z) :
  1 <= k ->
  ((25 * IZR k) * (25 * IZR k) <= (x2 - x1) ^ 2 + (z2 - z1) ^ 2
   < (25 * (IZR k + 1)) * (25 * (IZR k + 1)))%R ->
  lampCount x1 z1 x2 z2 = Z.to_nat (k - 1).
Proof.
  intros Hk Hd. unfold lampCount. cbv zeta.
  assert (Hk1 : (1 <= IZR k)%R) by (apply IZR_le; lia).
  assert (H25 : (0 <= 25 * IZR k)%R) by lra.
  assert (H26 : (0 <= 25 * (IZR k + 1))%R) by lra.
  destruct (sqrt_between _ _ _ H25 Hd H26) as [Hlo Hhi].
  destruct (Rlt_dec 10 _) as [_|Hn]; [|lra].
  rewrite (Zfloor_eq k); [reflexivity|]. split; lra.
Qed.

(** A path no longer than 10 gets none. *)
Lemma lampCount_near (x1 z1 x2 z2 : R) :
  ((x2 - x1) ^ 2 + (z2 - z1) ^ 2 <= 10 * 10)%R ->
  lampCount x1 z1 x2 z2 = O.
Proof.
  intros Hd. unfold lampCount. cbv zeta.
  destruct (Rlt_dec 10 _) as [Hfar|_]; [|reflexivity].
  exfalso.
  assert (H : (sqrt ((x2 - x1) ^ 2 + (z2 - z1) ^ 2) <= 10)%R).
  { rewrite <- (sqrt_square 10) by lra. now apply sqrt_le_1_alt. }
  lra.
Qed.

Ltac lamp_count k :=
  first [ apply (lampCount_far _ _ _ _ k); [lia|simpl; lra]
        | apply lampCount_near; simpl; lra ].

Lemma buildingPaths_lamps (b : Building) :
  In b buildings -> lamps 1 (buildingPaths random b).
Proof.
  unfold buildings. cbn [In].
  intros [<-|[<-|[<-|[<-|[]]]]]; unfold buildingPaths;
    cbn [b_x b_z b_d b_r]; cbv zeta;
    (destruct (Req_dec_T _ 0) as [E|E]; try lra);
    (apply (lamps_bind 1 0); [|intros _]);
    apply createPath_count; first [ lamp_count 2 | lamp_count 1 ].
Qed.

Lemma ringPaths_lamps : lamps 6 (ringPaths random).
Proof.
  unfold ringPaths, building. cbn [nth buildings b_x b_z].
  apply (lamps_bind 0 6);
    [apply createPath_count; lamp_count 1|intros _].
  apply (lamps_bind 1 5);
    [apply createPath_count; lamp_count 2|intros _].
  apply (lamps_bind 1 4);
    [apply createPath_count; lamp_count 2|intros _].
  apply (lamps_bind 2 2);
    [apply createPath_count; lamp_count 3|intros _].
  apply (lamps_bind 0 2);
    [apply createPath_count; lamp_count 1|intros _].
  apply createPath_count; lamp_count 3.
Qed.

Lemma lamps_houses :
  lamps 0 (forEach buildings (fun b =>
             buildHouse random (b_x b) (b_z b) (b_w b) (b_d b) (b_h b)
                        (b_r b))).
Proof.
  lamps_step. unfold buildHouse. lamps_step.
  - do 3 lamps_step. unfold houseCell. cbv zeta. repeat lamps_step.
  - do 3 lamps_step. unfold chimneyCell. cbv zeta. repeat lamps_step.
Qed.

Lemma lamps_terrain : lamps 0 (terrain random).
Proof.
  unfold terrain. do 2 lamps_step.
  unfold terrainColumn. cbv zeta. lamps_step; [apply lamps_ret|].
  lamps_step; [apply lamps_get|].
  apply lamps0_bind;
    [repeat lamps_step|intros [[surfaceY surfaceColor] isIceSurface]].
  lamps_step. unfold columnCell. cbv zeta. repeat lamps_step.
Qed.

Lemma lamps_trunk : lamps 0 trunk.
Proof. unfold trunk. cbv zeta. repeat lamps_step. Qed.

Lemma lamps_canopy : lamps 0 (canopy random).
Proof.
  unfold canopy. cbv zeta. do 3 lamps_step.
  unfold canopyCell. cbv zeta. repeat lamps_step.
Qed.

Lemma lamps_starTop : lamps 0 starTop.
Proof. unfold starTop. cbv zeta. repeat lamps_step. Qed.

(** X23: ten lamps, each on its pole.  Whatever the random numbers,
    [generateWorld] returns exactly ten entries in [lampCoords] (one on the
    path from the hub to each building, six along the ring of paths, none
    on the short door paths), which [VoxelWorld] turns into ten point
    lights at night; each entry is [(X, 6.5, Z) * VOXEL_SIZE] for integers
    [X] and [Z], and the ten cells of the column [(X, 0..9, Z)] are taken
    when the generator returns. *)
Theorem ten_lamps_on_poles :
  let w := generateWorld random in
  List.length (lampCoords w) = 10%nat /\
  Forall (standing w) (lampCoords w) /\
  Forall (fun p => point_y p = (6.5 * VOXEL_SIZE)%R) (lampCoords w).
Proof.
  intros w.
  assert (H : lamps (4 + (6 + (0 + (0 + (0 + (0 + 0))))))
                    (generateWorld_body random)).
  { unfold generateWorld_body.
    apply lamps_bind;
      [apply (lamps_forEach 1 buildings), buildingPaths_lamps|intros _].
    apply lamps_bind; [apply ringPaths_lamps|intros _].
    apply lamps_bind; [apply lamps_houses|intros _].
    apply lamps_bind; [apply lamps_terrain|intros _].
    apply lamps_bind; [apply lamps_trunk|intros _].
    apply lamps_bind; [apply lamps_canopy|intros _].
    apply lamps_starTop. }
  destruct (H emptyWorld O) as (new & E & L & _ & S).
  change (after (generateWorld_body random) emptyWorld O) with w in E, S.
  cbn [lampCoords emptyWorld app] in E. rewrite E.
  split; [exact L|]. split; [exact S|].
  eapply List.Forall_impl; [|exact S].
  intros p (lx & lz & -> & _). unfold lampAt. cbn [point_y].
  f_equal. simpl. lra.
Qed.

End LampFacts.

(* ================================================================== *)
(** * Instances *)
(* ================================================================== *)

Section MoreInstances.

Import Session.

Local Open Scope Z_scope.

Lemma demoSession_inv : sessionInv demoSession.
Proof.
  constructor.
  - apply (NoDup_range 0 2).
  - apply (NoDup_range 0 1).
  - intros sm [<-|[]] _ [H|[H|[]]]; discriminate.
  - intros sm [<-|[]]. simpl. split; [lia|reflexivity].
Qed.

Lemma demoEvents_offered : Scene.offeredRun demoEvents demoSession.
Proof. vm_compute. tauto. Qed.

Lemma scene_keeps_count_witness :
  foundCount (run demoEvents demoSession)
  = countCollected (gifts (run demoEvents demoSession)).
Proof.
  exact (proj2 (scene_keeps_count demoEvents demoSession
                  (si_gift_ids _ demoSession_inv)
                  (si_rewards_fresh _ demoSession_inv) eq_refl)
               demoEvents_offered).
Defined.

Lemma session_identities_kept_witness :
  NoDup (giftIds (run demoEvents demoSession)).
Proof.
  exact (proj1 (session_identities_kept demoEvents demoSession
                  demoSession_inv)).
Defined.

Lemma collectAll_known : knownRun collectAll thirtyGifts.
Proof. vm_compute. repeat split; tauto. Qed.

Lemma gifts_plus_living_snowmen_witness :
  (List.length (gifts (run demoEvents demoSession))
   + aliveCount (run demoEvents demoSession) = 3)%nat /\
  (30 <= List.length (gifts (run collectAll thirtyGifts)))%nat.
Proof.
  split.
  - exact (proj1 (gifts_plus_living_snowmen demoEvents demoSession
                    (si_snowman_ids _ demoSession_inv))).
  - assert (Hids : NoDup (snowmanIds thirtyGifts)) by apply NoDup_nil_2.
    assert (Hc : foundCount thirtyGifts <= countCollected (gifts thirtyGifts))
      by (vm_compute; discriminate).
    assert (Hover : gameOver (run collectAll thirtyGifts) = true)
      by (vm_compute; reflexivity).
    exact (proj1 (proj2 (gifts_plus_living_snowmen collectAll thirtyGifts
                           Hids) Hc eq_refl collectAll_known Hover)).
Defined.

Lemma session_monotone_witness :
  snowmenPersist (snowmen demoSession) (snowmen (run demoEvents demoSession)).
Proof.
  exact (proj2 (session_monotone demoEvents demoSession)
               (si_snowman_ids _ demoSession_inv)).
Defined.

Lemma collect_rendered_witness :
  foundCount (handleCollect 1 demoSession) = 1.
Proof.
  assert (Hids : NoDup (giftIds demoSession)) by apply (NoDup_range 0 2).
  assert (Hoff : Scene.offered demoSession (Collect 1))
    by (vm_compute; tauto).
  exact (proj1 (proj2 (collect_rendered 1 demoSession) Hids Hoff)).
Defined.

Lemma app_session_win_witness :
  let s0 := appSession (constStream 0) (constStream 0) in
  foundCount (run [Hit 0] s0) = countCollected (gifts (run [Hit 0] s0)).
Proof.
  intros s0.
  assert (Hoff : Scene.offeredRun [Hit 0] s0).
  { subst s0. split; [|exact I]. unfold Scene.offered.
    destruct (appSession_fields (constStream 0) (constStream 0))
      as (_ & -> & _).
    rewrite rendered_all_alive.
    - destruct (generateSnowmen_run (constStream 0) 5) as (_ & _ & ->).
      apply In_range. simpl. lia.
    - eapply List.Forall_impl; [|apply generateSnowmen_fresh].
      intros sm (_ & Hd & _). exact Hd. }
  exact (proj1 (app_session_win (constStream 0) (constStream 0)
                  constStream_0_range [Hit 0] Hoff)).
Defined.

Lemma generateGifts_decorated_witness :
  Forall decorated (generateGifts (constStream 0) 30).
Proof.
  exact (generateGifts_decorated (constStream 0) constStream_0_range 30).
Defined.

Lemma house_gifts_in_buildings_witness :
  exists tree hs rest,
    generateGifts (constStream 0) 30 = tree ++ hs ++ rest /\
    Forall housePlaced hs.
Proof.
  destruct (house_gifts_in_buildings (constStream 0) constStream_0_range 30)
    as (tree & hs & rest & Hgen & _ & _ & Hh).
  exists tree, hs, rest. split; [exact Hgen|exact Hh].
Defined.

Lemma pond_gifts_on_ice_witness :
  exists before pond sc,
    generateGifts (constStream 0) 30 = before ++ pond ++ sc /\
    Forall pondPlaced pond.
Proof.
  destruct (pond_gifts_on_ice (constStream 0) constStream_0_range 30)
    as (before & pond & sc & Hgen & _ & _ & Hp).
  exists before, pond, sc. split; [exact Hgen|exact Hp].
Defined.

Lemma gifts_within_square_witness :
  Forall inSquare (generateGifts (constStream 0) 30).
Proof.
  exact (gifts_within_square (constStream 0) constStream_0_range 30).
Defined.

Lemma pond_ice_over_water_witness :
  let w := World.generateWorld (constStream 0) in
  World.interactiveIce w = map Pond.iceAt Pond.pondColumns /\
  World.waterVoxels w = map Pond.waterAt Pond.pondColumns.
Proof.
  intros w.
  destruct (pond_ice_over_water (constStream 0) constStream_0_range)
    as (Hi & Hw & _).
  split; [exact Hi|exact Hw].
Defined.

Lemma every_column_has_its_surface_witness :
  let w := World.generateWorld (constStream 0) in
  (0, Surface.surfaceLevel (World.pathHeightMap w) 0 0, 0)
    ∈ World.occupied w.
Proof.
  intros w.
  assert (Hi : Surface.onIsland 0 0).
  { unfold Surface.onIsland, World.WORLD_RADIUS.
    replace (0 * 0 + 0 * 0)%R with 0%R by lra. rewrite sqrt_0. lra. }
  assert (Ho : ~ WorldInv.insidePond 0 0).
  { intros H. apply insidePond_box in H. lia. }
  exact (proj1 (every_column_has_its_surface (constStream 0)
                  constStream_0_range 0 0 Hi Ho)).
Defined.

Lemma ice_where_terrain_says_witness :
  In (Pond.iceAt (-35, 35))
     (World.interactiveIce (World.generateWorld (constStream 0)))
  <-> (distance2 (IZR (-35)) (IZR 35) (-35) 35 < 16)%R.
Proof.
  exact (proj1 (ice_where_terrain_says (constStream 0) constStream_0_range
                  (-35) 35)).
Defined.

Lemma add_first_wins_witness :
  let w1 := WorldInv.after (World.add 0.2 0 0 1 false) World.emptyWorld O in
  WorldInv.after (World.add 0.4 0 0 2 true) w1 O = w1.
Proof.
  intros w1.
  assert (Hkey : (World.Math_round 0.4, World.Math_round 0, World.Math_round 0)
                 = (World.Math_round 0.2, World.Math_round 0,
                    World.Math_round 0)).
  { unfold World.Math_round.
    rewrite (Zfloor_eq 0 (0.4 + 0.5)), (Zfloor_eq 0 (0.2 + 0.5));
      [reflexivity|simpl; lra|simpl; lra]. }
  exact (proj1 (add_first_wins 0.2 0 0 0.4 0 0 1 2 false true
                  World.emptyWorld O O Hkey)).
Defined.

Lemma addJaggedLine_polyline_witness :
  exists new n',
    IcePond.addJaggedLine (constStream 0) (0, 0, 0)%R (1, 0, 0)%R 1 0.5
                          ([], O)
      = (tt, ([] ++ new, n')) /\
    List.length new = 4%nat.
Proof.
  assert (Hoff : (0 <= 0.5)%R) by lra.
  destruct (addJaggedLine_polyline (constStream 0) constStream_0_range
              (0, 0, 0)%R (1, 0, 0)%R 1 0.5 [] O Hoff)
    as (new & n' & E & L & _).
  exists new, n'. split; [exact E|exact L].
Defined.

Lemma crackGeometry_points_witness :
  exists kept : nat,
    (kept <= 152)%nat /\
    List.length (IcePond.crackGeometry (constStream 0))
    = (768 + 16 * kept)%nat.
Proof.
  destruct (crackGeometry_points (constStream 0) constStream_0_range)
    as (kept & B & L & _).
  exists kept. split; [exact B|exact L].
Defined.

Lemma snow_stays_in_volume_witness :
  List.length (Snow.frames 7 (Snow.particles (constStream 0))) = 3000%nat.
Proof.
  exact (proj1 (snow_stays_in_volume (constStream 0) constStream_0_range 7)).
Defined.

Lemma camera_motion_level_and_rigid_witness :
  let keys := CameraRig.mkKeys true false false true in
  IcePond.vy (fst (CameraRig.frame keys 1 (0, 0, -1)%R (1, 0, 0)%R
                                   (-50, 20, 50)%R (0, 5, 0)%R))
  = 20%R.
Proof.
  intros keys.
  assert (Hd : (0 <= 1)%R) by lra.
  exact (proj1 (camera_motion_level_and_rigid keys 1 (0, 0, -1)%R
                  (1, 0, 0)%R (-50, 20, 50)%R (0, 5, 0)%R Hd)).
Defined.

Lemma door_within_stops_witness :
  let es := [Door.Click; Door.Frame 0.016; Door.Frame 0.016; Door.Click;
             Door.Frame 1] in
  (- PI / 1.5 <= Door.angle (Door.run es Door.initial) <= 0)%R.
Proof.
  intros es.
  assert (Hes : Forall Door.forwardInTime es).
  { unfold es.
    repeat (apply List.Forall_cons; [cbn [Door.forwardInTime]; try exact I; lra|]).
    apply List.Forall_nil. }
  exact (proj1 (door_within_stops es Hes)).
Defined.


End MoreInstances.
